(** * The document store of the PDF question-answering bot

    A shallow embedding of [document-store.js] (class [DocumentStore]) and of
    the context assembly in [gemini-service.js] ([generateAnswer]), with the
    properties the design document states about them.

    Conventions of the embedding.
    - A JavaScript string is a [list ascii]: one element per code unit, the
      code units being those of the Latin-1 range (0 to 255).  [toLowerCase],
      [trim] and the regular-expression classes are given on that range.
    - Numbers that the code only uses as sizes and counts are [nat]; the two
      optional parameters of [chunkText] are [Z], as a caller may pass any
      integer.
    - The store is a finite map from chat identifiers to arrays of documents;
      every method is a function from the store to a result and a store.
    - A call that can throw has a result of type [completion].
    - Regular expressions are modelled for sources of plain characters and
      dots; what the engine does with any other source is a parameter
      ([RegExp.engine]) of the scorer and of the search. *)

From Stdlib Require Import Ascii String ZArith Lia Permutation Sorted.
From stdpp Require Import base option list sorting gmap.

Local Open Scope list_scope.
Local Open Scope nat_scope.

(** ** Strings *)

Module Str.

(** A string literal of this file as a JavaScript string. *)
Definition lit (s : string) : list ascii := list_ascii_of_string s.

Definition code (c : ascii) : N := N_of_ascii c.

(** [WhiteSpace] and [LineTerminator] of ECMAScript, on the Latin-1 range:
    TAB, LF, VT, FF, CR, SP and NBSP.  This is the class [\s] and the set
    [String.prototype.trim] strips. *)
Definition isWhiteSpace (c : ascii) : bool :=
  let n := code c in
  ((9 <=? n) && (n <=? 13) || (n =? 32) || (n =? 160))%N.

(** [LineTerminator] on the Latin-1 range: the characters [.] refuses. *)
Definition isLineTerminator (c : ascii) : bool :=
  let n := code c in ((n =? 10) || (n =? 13))%N.

(** The character class [[.!?]] of the sentence boundary. *)
Definition isSentenceEnd (c : ascii) : bool :=
  let n := code c in ((n =? 46) || (n =? 33) || (n =? 63))%N.

(** Upper-case letters of Latin-1: A-Z and the accented capitals U+00C0 to
    U+00DE without the multiplication sign U+00D7. *)
Definition isUpper (c : ascii) : bool :=
  let n := code c in
  ((65 <=? n) && (n <=? 90) || (192 <=? n) && (n <=? 222) && negb (n =? 215))%N.

(** Letters whose upper-case form is again a single Latin-1 code unit: a-z and
    U+00E0 to U+00FE without the division sign U+00F7.  (U+00B5 and U+00FF
    have upper-case forms outside Latin-1, U+00DF has a two-letter one; none
    of them is the image of another Latin-1 code unit.) *)
Definition isLowerWithUpper (c : ascii) : bool :=
  let n := code c in
  ((97 <=? n) && (n <=? 122) || (224 <=? n) && (n <=? 254) && negb (n =? 247))%N.

Definition toLowerCaseChar (c : ascii) : ascii :=
  if isUpper c then ascii_of_N (code c + 32) else c.

(** [Canonicalize] of a regular expression with the [i] flag and without the
    [u] flag: the upper-case form when it is a single code unit. *)
Definition canonicalize (c : ascii) : ascii :=
  if isLowerWithUpper c then ascii_of_N (code c - 32) else c.

(** [String.prototype.toLowerCase]. *)
Definition toLowerCase (s : list ascii) : list ascii := map toLowerCaseChar s.

Definition ascii_eqb (a b : ascii) : bool := Ascii.eqb a b.

(** [String.prototype.startsWith]. *)
Fixpoint startsWith (s p : list ascii) {struct p} : bool :=
  match p, s with
  | [], _ => true
  | _ :: _, [] => false
  | a :: p', b :: s' => ascii_eqb a b && startsWith s' p'
  end.

(** [String.prototype.includes]. *)
Fixpoint includes (s p : list ascii) : bool :=
  startsWith s p ||
  match s with
  | [] => false
  | _ :: s' => includes s' p
  end.

Fixpoint trimStart (s : list ascii) : list ascii :=
  match s with
  | [] => []
  | c :: s' => if isWhiteSpace c then trimStart s' else s
  end.

Definition trimEnd (s : list ascii) : list ascii := rev (trimStart (rev s)).

(** [String.prototype.trim]. *)
Definition trim (s : list ascii) : list ascii := trimEnd (trimStart s).

(** Puts [c] in front of the first piece of a split in progress. *)
Definition cons_head (c : ascii) (ps : list (list ascii)) : list (list ascii) :=
  match ps with
  | [] => [[c]]
  | p :: ps' => (c :: p) :: ps'
  end.

(** [s.split(' ')]: the pieces between single spaces; two spaces in a row
    enclose an empty piece, and the empty string has the one piece [""]. *)
Fixpoint split_space (s : list ascii) : list (list ascii) :=
  match s with
  | [] => [[]]
  | c :: s' =>
      if ascii_eqb c " " then [] :: split_space s'
      else cons_head c (split_space s')
  end.

(** [s.split(/\s+/)]: the pieces between maximal runs of white space.  [gap]
    says that the previous character belonged to a separator. *)
Fixpoint split_ws_from (gap : bool) (s : list ascii) : list (list ascii) :=
  match s with
  | [] => [[]]
  | c :: s' =>
      if isWhiteSpace c then
        if gap then split_ws_from true s' else [] :: split_ws_from true s'
      else cons_head c (split_ws_from false s')
  end.

Definition split_ws (s : list ascii) : list (list ascii) := split_ws_from false s.

(** [s.split(/(?<=[.!?])\s+/)]: a separator is a maximal run of white space
    whose first character follows one of [.], [!], [?].  [afterEnd] says that
    the previous character was such a mark, [gap] that it belonged to a
    separator. *)
Fixpoint split_sentences_from (afterEnd gap : bool) (s : list ascii)
  : list (list ascii) :=
  match s with
  | [] => [[]]
  | c :: s' =>
      if isWhiteSpace c then
        if gap then split_sentences_from false true s'
        else if afterEnd then [] :: split_sentences_from false true s'
        else cons_head c (split_sentences_from false false s')
      else cons_head c (split_sentences_from (isSentenceEnd c) false s')
  end.

Definition split_sentences (s : list ascii) : list (list ascii) :=
  split_sentences_from false false s.

(** [Array.prototype.join]. *)
Fixpoint join (sep : list ascii) (ws : list (list ascii)) : list ascii :=
  match ws with
  | [] => []
  | [w] => w
  | w :: ws' => w ++ sep ++ join sep ws'
  end.

(** [Array.prototype.slice(start)] with one argument: a negative [start]
    counts from the end, and both ends are clamped to the array. *)
Definition slice_from {A} (start : Z) (l : list A) : list A :=
  let len := Z.of_nat (length l) in
  if (start <? 0)%Z then drop (Z.to_nat (Z.max (len + start) 0)) l
  else drop (Z.to_nat (Z.min start len)) l.

(** [String.prototype.substring(0, n)] and [Array.prototype.slice(0, n)]. *)
Definition substring0 {A} (n : nat) (l : list A) : list A := take n l.

(** [s.repeat(n)] for a one-character string. *)
Definition repeat_char (c : ascii) (n : nat) : list ascii := repeat c n.

End Str.

Import Str.

(** ** The chunker: [DocumentStore.chunkText] *)

Definition space : list ascii := [" "%char].

(** The state of the loop over the sentences: the chunks pushed so far and the
    buffer [currentChunk]. *)
Record chunker := { chunks_out : list (list ascii); currentChunk : list ascii }.

(** The words kept from a closed buffer:
    [currentChunk.split(' ').slice(-Math.floor(overlap / 10)).join(' ')]. *)
Definition overlapText (overlap : Z) (buffer : list ascii) : list ascii :=
  let words := split_space buffer in
  let overlapWords := slice_from (- (overlap / 10))%Z words in
  join space overlapWords.

(** One turn of the loop body. *)
Definition chunk_step (chunkSize overlap : Z) (st : chunker) (sentence : list ascii)
  : chunker :=
  let cur := currentChunk st in
  if (chunkSize <? Z.of_nat (length (cur ++ sentence)))%Z && (0 <? length cur) then
    {| chunks_out := chunks_out st ++ [trim cur];
       currentChunk := overlapText overlap cur ++ space ++ sentence |}
  else
    {| chunks_out := chunks_out st;
       currentChunk := cur ++ (if 0 <? length cur then space else []) ++ sentence |}.

Definition chunk_loop (chunkSize overlap : Z) (st : chunker)
  (sentences : list (list ascii)) : chunker :=
  fold_left (chunk_step chunkSize overlap) sentences st.

(** The final push of a buffer that is not blank. *)
Definition chunk_flush (st : chunker) : list (list ascii) :=
  match trim (currentChunk st) with
  | [] => chunks_out st
  | t => chunks_out st ++ [t]
  end.

Definition chunkText_with (text : list ascii) (chunkSize overlap : Z)
  : list (list ascii) :=
  let sentences := split_sentences text in
  let st := chunk_loop chunkSize overlap
              {| chunks_out := []; currentChunk := [] |} sentences in
  match chunk_flush st with
  | [] => [text]
  | chunks => chunks
  end.

(** [chunkText(text)] with the default parameters. *)
Definition chunkText (text : list ascii) : list (list ascii) :=
  chunkText_with text 3000 500.

(** ** Completions *)

(** How a call ends: with a value, or abruptly with a thrown error.  The
    errors are the [SyntaxError] of the constructor of regular expressions
    and the failure of the request to the remote model. *)
Inductive error := SyntaxError | RequestFailed.

Inductive completion (A : Type) : Type :=
  | Returns (a : A)
  | Throws (e : error).
Arguments Returns {A} a.
Arguments Throws {A} e.

(** Sequencing, for the methods of the store and for completions: the first
    computation runs before the rest is looked at. *)
Definition and_then {M : Type → Type} `{MBind M} {A B : Type}
  (m : M A) (k : A → M B) : M B := mbind k m.

Notation "'let*' x ':=' m 'in' k" := (and_then m (λ x, k))
  (at level 10, x pattern, m at level 100, k at level 200, only parsing).

#[global] Instance completion_ret : MRet completion := @Returns.
#[global] Instance completion_bind : MBind completion := λ A B k m,
  match m with
  | Returns a => k a
  | Throws e => Throws e
  end.

(** ** Regular expressions: [new RegExp(word, 'gi')] and [text.match(regex)] *)

Module RegExp.

(** The fragment of patterns that is modelled here: a sequence of pattern
    characters and of [.] wildcards, each matching one character. *)
Inductive atom := Char (c : ascii) | AnyChar.

Definition pattern := list atom.

(** The regular expressions outside the fragment are a parameter of the
    development: for a source, either the [SyntaxError] of the constructor or
    the number of matches [text.match(regex)] finds in each text. *)
Definition engine : Type := list ascii → completion (list ascii → nat).

(** A regular expression with the flags [gi]: a pattern of the fragment, or
    one outside it, given by its number of matches in a text. *)
Inductive regex := Pattern (p : pattern) | Beyond (count : list ascii → nat).

(** [SyntaxCharacter] of the ECMAScript grammar.  (The web-compatibility
    grammar reads some of them as themselves in places; a source with one of
    them other than the dot is left outside the fragment.) *)
Definition isSyntaxCharacter (c : ascii) : bool :=
  existsb (ascii_eqb c) (lit "^$\.*+?()[]{}|").

(** The characters that begin a quantifier and so cannot begin a pattern. *)
Definition isQuantifierPrefix (c : ascii) : bool :=
  existsb (ascii_eqb c) (lit "*+?").

(** The atom a character stands for: the wildcard for [.], itself for a
    character that is not a syntax character. *)
Definition atom_of (c : ascii) : option atom :=
  if ascii_eqb c "." then Some AnyChar
  else if isSyntaxCharacter c then None
  else Some (Char c).

(** What reading a source gives: a pattern of the fragment, a source that is
    certainly malformed, or a source outside the fragment. *)
Inductive parsed := Fragment (p : pattern) | Malformed | Outside.

(** An atom was followed by a quantifier character, and [rest] follows that.
    A [?] right after it only marks the quantifier as lazy; one more
    quantifier character has nothing to repeat.  A well-formed quantifier is
    outside the fragment. *)
Definition after_quantifier (rest : list ascii) : parsed :=
  match rest with
  | q :: rest' =>
      if ascii_eqb q "?" then
        match rest' with
        | q' :: _ => if isQuantifierPrefix q' then Malformed else Outside
        | [] => Outside
        end
      else if isQuantifierPrefix q then Malformed
      else Outside
  | [] => Outside
  end.

(** A source of pattern characters and dots is in the fragment.  A quantifier
    character at the start, or after a quantifier, has nothing to repeat. *)
Fixpoint parse (src : list ascii) : parsed :=
  match src with
  | [] => Fragment []
  | c :: rest =>
      if isQuantifierPrefix c then Malformed
      else
        match atom_of c with
        | None => Outside
        | Some a =>
            match rest with
            | [] => Fragment [a]
            | q :: rest' =>
                if isQuantifierPrefix q then after_quantifier rest'
                else match parse rest with
                     | Fragment p => Fragment (a :: p)
                     | other => other
                     end
            end
        end
  end.

(** The constructor [new RegExp(src, 'gi')]. *)
Definition compile (beyond : engine) (src : list ascii) : completion regex :=
  match parse src with
  | Fragment p => Returns (Pattern p)
  | Malformed => Throws SyntaxError
  | Outside => let* count := beyond src in mret (Beyond count)
  end.

(** One atom against one character, under the [i] flag. *)
Definition atom_matches (a : atom) (ch : ascii) : bool :=
  match a with
  | Char c => ascii_eqb (canonicalize c) (canonicalize ch)
  | AnyChar => negb (isLineTerminator ch)
  end.

(** A match of the whole pattern at the head of [t]: the number of characters
    it consumes. *)
Fixpoint match_here (p : pattern) (t : list ascii) : option nat :=
  match p with
  | [] => Some 0
  | a :: p' =>
      match t with
      | [] => None
      | ch :: t' => if atom_matches a ch then S <$> match_here p' t' else None
      end
  end.

(** The loop of [String.prototype.match] under the [g] flag: [lastIndex]
    walks over the text; a failed attempt advances it by one, a match moves
    it to the end of the match, an empty match one further.  [skip] counts
    the characters that the last match still covers.  The result is the
    length of the array of matches, 0 when [match] returns [null]. *)
Fixpoint match_count_from (p : pattern) (skip : nat) (t : list ascii) : nat :=
  match t with
  | [] =>
      match skip, match_here p [] with
      | 0, Some _ => 1
      | _, _ => 0
      end
  | _ :: t' =>
      match skip with
      | S k => match_count_from p k t'
      | 0 =>
          match match_here p t with
          | Some m => S (match_count_from p (pred m) t')
          | None => match_count_from p 0 t'
          end
      end
  end.

(** [text.match(regex)]: the length of the array of matches. *)
Definition match_count (r : regex) (t : list ascii) : nat :=
  match r with
  | Pattern p => match_count_from p 0 t
  | Beyond count => count t
  end.

End RegExp.

(** ** The relevance scorer: [DocumentStore.calculateRelevance] *)

(** The loop over the query words: each word is compiled as a pattern and its
    matches in the text are counted. *)
Fixpoint count_words (engine : RegExp.engine) (text : list ascii)
  (queryWords : list (list ascii)) (score : nat) : completion nat :=
  match queryWords with
  | [] => Returns score
  | word :: rest =>
      let* regex := RegExp.compile engine word in
      count_words engine text rest (score + RegExp.match_count regex text)
  end.

Definition calculateRelevance (engine : RegExp.engine) (text : list ascii)
  (queryWords : list (list ascii)) : completion nat :=
  let* score := count_words engine text queryWords 0 in
  let phrase := join space queryWords in
  mret (if includes text phrase then score + length queryWords * 2 else score).

(** [query.toLowerCase().split(/\s+/).filter(w => w.length > 2)]. *)
Definition queryWordsOf (query : list ascii) : list (list ascii) :=
  filter (λ w, 2 < length w) (split_ws (toLowerCase query)).

(** ** The store: class [DocumentStore] *)

Record Document := {
  fileName : list ascii;
  content : list ascii;
  chunks : list (list ascii);
  uploadedAt : list ascii
}.

(** [this.documents]: a [Map] from chat identifiers to arrays of documents.
    An array is held as a value of the map: the writes in place
    ([userDocs[i] = doc], [push], [splice]) are updates of the user's entry.
    The methods hand out no array that they write to later, except through
    [getDocuments], whose result no method of the store reads back. *)
Abbreviation Store := (gmap Z (list Document)).

(** The constructor: an empty map. *)
Definition newStore : Store := ∅.

(** A method of the store: it reads and updates [this.documents]. *)
Definition Method (A : Type) : Type := Store → A * Store.

#[global] Instance Method_ret : MRet Method := λ A a st, (a, st).
#[global] Instance Method_bind : MBind Method := λ A B k m st,
  let '(a, st') := m st in k a st'.

(** The accesses to the map that the methods are made of. *)
Definition documents_has (chatId : Z) : Method bool :=
  λ st, (bool_decide (is_Some (st !! chatId)), st).
Definition documents_get (chatId : Z) : Method (option (list Document)) :=
  λ st, (st !! chatId, st).
Definition documents_set (chatId : Z) (docs : list Document) : Method unit :=
  λ st, (tt, <[chatId := docs]> st).
Definition documents_delete (chatId : Z) : Method unit :=
  λ st, (tt, delete chatId st).

(** [docs || []]. *)
Definition orEmpty {A} (docs : option (list A)) : list A := default [] docs.

(** [Array.prototype.findIndex]: the index of the first element that
    satisfies [p], or -1. *)
Fixpoint findIndex_from {A} (p : A → bool) (i : Z) (l : list A) : Z :=
  match l with
  | [] => (-1)%Z
  | x :: l' => if p x then i else findIndex_from p (i + 1)%Z l'
  end.

Definition findIndex {A} (p : A → bool) (l : list A) : Z := findIndex_from p 0%Z l.

(** [d => d.fileName === fileName]. *)
Definition hasName (name : list ascii) (d : Document) : bool :=
  bool_decide (fileName d = name).

Record AddResult := {
  success : bool;
  added_fileName : list ascii;
  chunksCount : nat;
  totalDocuments : nat
}.

(** [addDocument(chatId, fileName, content)].  [now] is the value of
    [new Date().toISOString()] at the call. *)
Definition addDocument (chatId : Z) (name text now : list ascii) : Method AddResult :=
  let* known := documents_has chatId in
  let* _ := (if known then mret tt else documents_set chatId []) in
  let chunks := chunkText text in
  let doc := {| fileName := name; content := text; chunks := chunks;
                uploadedAt := now |} in
  let* got := documents_get chatId in
  let userDocs := orEmpty got in
  let existingIndex := findIndex (hasName name) userDocs in
  let userDocs' :=
    if (0 <=? existingIndex)%Z then <[Z.to_nat existingIndex := doc]> userDocs
    else userDocs ++ [doc] in
  let* _ := documents_set chatId userDocs' in
  mret {| success := true; added_fileName := name;
          chunksCount := length chunks; totalDocuments := length userDocs' |}.

Definition getDocuments (chatId : Z) : Method (list Document) :=
  let* got := documents_get chatId in mret (orEmpty got).

Definition getDocumentCount (chatId : Z) : Method nat :=
  let* docs := documents_get chatId in
  mret (match docs with Some ds => length ds | None => 0 end).

Definition getDocumentNames (chatId : Z) : Method (list (list ascii)) :=
  let* got := documents_get chatId in mret (fileName <$> orEmpty got).

(** [deleteDocument(chatId, fileName)]; [splice(index, 1)] removes the
    element at [index] from the user's array. *)
Definition deleteDocument (chatId : Z) (name : list ascii) : Method bool :=
  let* got := documents_get chatId in
  match got with
  | None => mret false
  | Some userDocs =>
      let index := findIndex (hasName name) userDocs in
      if (0 <=? index)%Z then
        let* _ := documents_set chatId (delete (Z.to_nat index) userDocs) in mret true
      else mret false
  end.

Definition clearDocuments (chatId : Z) : Method bool :=
  let* _ := documents_delete chatId in mret true.

Record SearchResult := {
  result_fileName : list ascii;
  result_chunk : list ascii;
  score : nat
}.

(** The body of the inner loop of [searchDocuments] for one chunk: the chunk
    is pushed to [results] when it scores above 0. *)
Definition search_chunk (engine : RegExp.engine) (queryWords : list (list ascii))
  (doc : Document) (results : list SearchResult) (chunk : list ascii)
  : completion (list SearchResult) :=
  let chunkLower := toLowerCase chunk in
  let* relevanceScore := calculateRelevance engine chunkLower queryWords in
  mret (if 0 <? relevanceScore
        then results ++ [{| result_fileName := fileName doc;
                            result_chunk := chunk;
                            score := relevanceScore |}]
        else results).

(** A [for ... of] loop whose body may throw. *)
Fixpoint for_of {A S} (body : S → A → completion S) (xs : list A) (s : S)
  : completion S :=
  match xs with
  | [] => Returns s
  | x :: xs' => let* s' := body s x in for_of body xs' s'
  end.

Definition search_doc (engine : RegExp.engine) (queryWords : list (list ascii))
  (results : list SearchResult) (doc : Document) : completion (list SearchResult) :=
  for_of (search_chunk engine queryWords doc) (chunks doc) results.

(** The comparator [(a, b) => b.score - a.score]: positive when [a] is to
    come after [b]. *)
Definition byScoreDescending (a b : SearchResult) : Z :=
  (Z.of_nat (score b) - Z.of_nat (score a))%Z.

(** [results.sort(compare)].  The sort of an array is stable, so its result
    is that of sorting by insertion from the right: an element passes the
    ones it is to come after and stops in front of the first other one. *)
Fixpoint sort_insert (x : SearchResult) (l : list SearchResult) : list SearchResult :=
  match l with
  | [] => [x]
  | y :: l' =>
      if (0 <? byScoreDescending x y)%Z
      then y :: sort_insert x l'
      else x :: l
  end.

Definition sort_by_score (l : list SearchResult) : list SearchResult :=
  foldr sort_insert [] l.

Definition searchDocuments (engine : RegExp.engine) (chatId : Z) (query : list ascii)
  : Method (completion (list SearchResult)) :=
  let* got := documents_get chatId in
  let docs := orEmpty got in
  if length docs =? 0 then mret (Returns [])
  else
    let queryWords := queryWordsOf query in
    mret (let* results := for_of (search_doc engine queryWords) docs [] in
          mret (substring0 10 (sort_by_score results))).

Record DocContent := { dc_fileName : list ascii; dc_content : list ascii }.

Definition getAllContent (chatId : Z) : Method (list DocContent) :=
  let* got := documents_get chatId in
  mret ((λ d, {| dc_fileName := fileName d; dc_content := content d |})
          <$> orEmpty got).

(** ** Context assembly: [generateAnswer] *)

Definition LF : ascii := ascii_of_N 10.

Definition maxTotalContext : N := 100000.

(** ['\n\n[... document truncated for length ...]']. *)
Definition truncationMarker : list ascii :=
  [LF; LF] ++ lit "[... document truncated for length ...]".

(** The header in front of a document's body.  The pictograph of the source
    is written in its UTF-8 encoding. *)
Definition documentHeader (name : list ascii) : list ascii :=
  [LF; LF] ++ repeat_char "=" 60 ++ [LF] ++ lit "📄 DOCUMENT: " ++ name
  ++ [LF] ++ repeat_char "=" 60 ++ [LF].

Definition noDocumentsAnswer : list ascii :=
  lit "❌ No documents uploaded yet. Please upload PDF files first by sending PDF files to me.".

Arguments documentHeader : simpl never.
Arguments truncationMarker : simpl never.
Arguments noDocumentsAnswer : simpl never.

(** The two accumulators of the loop over the documents. *)
Record assembly := { context : list ascii; sources : list (list ascii) }.

(** The body a document contributes under the budget [maxPerDoc]. *)
Definition docContent (maxPerDoc : N) (doc : DocContent) : list ascii :=
  if (maxPerDoc <? N.of_nat (length (dc_content doc)))%N
  then substring0 (N.to_nat maxPerDoc) (dc_content doc) ++ truncationMarker
  else dc_content doc.

Definition assemble_step (maxPerDoc : N) (acc : assembly) (doc : DocContent)
  : assembly :=
  {| context := context acc ++ documentHeader (dc_fileName doc)
                ++ docContent maxPerDoc doc;
     sources := sources acc ++ [dc_fileName doc] |}.

(** The loop of [generateAnswer] over [allDocs]. *)
Definition assembleContext (allDocs : list DocContent) : assembly :=
  let maxPerDoc := (maxTotalContext / N.of_nat (length allDocs))%N in
  fold_left (assemble_step maxPerDoc) allDocs {| context := []; sources := [] |}.

Record Answer := { answer : list ascii; answer_sources : list (list ascii) }.

Section GenerateAnswer.

(** The call to the remote model: from the context, the question and the
    source names to the answer text, or an abrupt completion. *)
Variable callGemini :
  list ascii → list ascii → list (list ascii) → completion (list ascii).

Definition generateAnswer (chatId : Z) (question : list ascii)
  : Method (completion Answer) :=
  let* allDocs := getAllContent chatId in
  if length allDocs =? 0 then
    mret (Returns {| answer := noDocumentsAnswer; answer_sources := [] |})
  else
    let built := assembleContext allDocs in
    mret (let* text := callGemini (context built) question (sources built) in
          mret {| answer := text; answer_sources := sources built |}).

End GenerateAnswer.

(** ** Vocabulary of the properties *)

(** Unfolding of the two ways of sequencing. *)
Ltac run_completion :=
  unfold and_then, mbind, mret, completion_bind, completion_ret in *.

Ltac run_method :=
  unfold and_then, mbind, mret, Method_bind, Method_ret, documents_has,
    documents_get, documents_set, documents_delete; simpl.

(** The array [addDocument] leaves for the user: the slot of the first
    document of that name is overwritten, or the document is appended. *)
Definition put_document (doc : Document) (userDocs : list Document) : list Document :=
  let existingIndex := findIndex (hasName (fileName doc)) userDocs in
  if (0 <=? existingIndex)%Z then <[Z.to_nat existingIndex := doc]> userDocs
  else userDocs ++ [doc].

(** The record [addDocument] builds: the chunks are those of the content. *)
Definition mkDocument (name text now : list ascii) : Document :=
  {| fileName := name; content := text; chunks := chunkText text; uploadedAt := now |}.

(** [name] occurs first at index [i] of [docs]. *)
Definition first_named (name : list ascii) (docs : list Document) (i : nat) : Prop :=
  (∃ d, docs !! i = Some d ∧ fileName d = name)
  ∧ ∀ j d', j < i → docs !! j = Some d' → fileName d' ≠ name.

(** No collection holds two documents of the same name. *)
Definition unique_names (st : Store) : Prop :=
  ∀ chatId docs, st !! chatId = Some docs → NoDup (fileName <$> docs).

(** The three operations that change the store. *)
Inductive operation :=
  | OpAdd (chatId : Z) (name text now : list ascii)
  | OpDelete (chatId : Z) (name : list ascii)
  | OpClear (chatId : Z).

(** The store after an operation. *)
Definition perform (o : operation) (st : Store) : Store :=
  match o with
  | OpAdd chatId name text now => snd (addDocument chatId name text now st)
  | OpDelete chatId name => snd (deleteDocument chatId name st)
  | OpClear chatId => snd (clearDocuments chatId st)
  end.

(** The states of a store: the new store and what the operations make of it. *)
Inductive reachable : Store → Prop :=
  | reachable_new : reachable newStore
  | reachable_step (st : Store) (o : operation) :
      reachable st → reachable (perform o st).

(** A short history of a store with two users, and the store it leaves. *)
Definition sample_operations : list operation :=
  [OpAdd 7 (lit "a.pdf") (lit "First text.") (lit "t1");
   OpAdd 7 (lit "b.pdf") (lit "Second text.") (lit "t2");
   OpAdd 7 (lit "a.pdf") (lit "Third text.") (lit "t3");
   OpDelete 7 (lit "b.pdf");
   OpAdd 8 (lit "a.pdf") (lit "Other user.") (lit "t4")].

Definition sample_store : Store :=
  foldl (λ st o, perform o st) newStore sample_operations.

(** A user with 3 documents of 50000 characters. *)
Definition long_document (name : list ascii) : Document :=
  {| fileName := name; content := repeat "x"%char (N.to_nat 50000);
     chunks := [repeat "x"%char (N.to_nat 50000)]; uploadedAt := lit "t1" |}.

Definition long_documents : Store :=
  {[ 7%Z := [long_document (lit "a.pdf"); long_document (lit "b.pdf");
             long_document (lit "c.pdf")] ]}.

(** What one chunk contributes to the results of a search: itself with its
    score, when that is above 0. *)
Definition hit (engine : RegExp.engine) (queryWords : list (list ascii))
  (doc : Document) (chunk : list ascii) : list SearchResult :=
  match calculateRelevance engine (toLowerCase chunk) queryWords with
  | Returns n =>
      if 0 <? n
      then [{| result_fileName := fileName doc; result_chunk := chunk; score := n |}]
      else []
  | Throws _ => []
  end.

(** The chunks that score above 0, in the order of the documents of the
    collection and, within a document, of its chunks. *)
Definition encounter_order (engine : RegExp.engine)
  (queryWords : list (list ascii)) (docs : list Document) : list SearchResult :=
  concat ((λ doc, concat (hit engine queryWords doc <$> chunks doc)) <$> docs).

(** Descending by score. *)
Definition score_ge (a b : SearchResult) : Prop := score b ≤ score a.

(** The results of score [n], in the order they have in [l]. *)
Definition with_score (n : nat) (l : list SearchResult) : list SearchResult :=
  filter (λ r, score r = n) l.

(** A query word the constructor of regular expressions accepts. *)
Definition compiles (engine : RegExp.engine) (word : list ascii) : Prop :=
  ∃ r, RegExp.compile engine word = Returns r.

(** An engine that refuses every source outside the fragment. *)
Definition fragment_only : RegExp.engine := λ _, Throws SyntaxError.

(** Five documents of one chunk each; for the query ["ABC def"] the chunks
    score 5, 5, 2, 0 and 8 in the order of the collection. *)
Definition ranking_store : Store :=
  foldl (λ st o, perform o st) newStore
    [OpAdd 1 (lit "a.pdf") (lit "def abc abc abc abc") (lit "t1");
     OpAdd 1 (lit "b.pdf") (lit "DEF def abc abc abc") (lit "t2");
     OpAdd 1 (lit "c.pdf") (lit "def abc") (lit "t3");
     OpAdd 1 (lit "d.pdf") (lit "xyz") (lit "t4");
     OpAdd 1 (lit "e.pdf") (lit "Abc Def def def") (lit "t5")].

Definition ranking_results : list SearchResult :=
  [{| result_fileName := lit "e.pdf"; result_chunk := lit "Abc Def def def"; score := 8 |};
   {| result_fileName := lit "a.pdf"; result_chunk := lit "def abc abc abc abc"; score := 5 |};
   {| result_fileName := lit "b.pdf"; result_chunk := lit "DEF def abc abc abc"; score := 5 |};
   {| result_fileName := lit "c.pdf"; result_chunk := lit "def abc"; score := 2 |}].

(** Two characters that differ at most in case. *)
Definition same_letter (a b : ascii) : bool :=
  ascii_eqb (toLowerCaseChar a) (toLowerCaseChar b).

(** [word] stands at the head of [text], case ignored. *)
Fixpoint occurs_here (word text : list ascii) {struct word} : bool :=
  match word, text with
  | [], _ => true
  | _ :: _, [] => false
  | a :: word', b :: text' => same_letter a b && occurs_here word' text'
  end.

(** The occurrences of a word in a text, case ignored, counted from left to
    right without overlap: after an occurrence the count goes on behind it.
    [skip] is the number of characters of the last occurrence still ahead. *)
Fixpoint occurrences_from (word : list ascii) (skip : nat) (text : list ascii) : nat :=
  match text with
  | [] => 0
  | _ :: text' =>
      match skip with
      | S k => occurrences_from word k text'
      | 0 =>
          if occurs_here word text
          then S (occurrences_from word (length word - 1) text')
          else occurrences_from word 0 text'
      end
  end.

Definition occurrences (word text : list ascii) : nat := occurrences_from word 0 text.

(** The bonus for the phrase: twice the number of words when the lower-cased
    chunk contains the words joined by single spaces. *)
Definition phrase_bonus (chunk : list ascii) (queryWords : list (list ascii)) : nat :=
  if includes (toLowerCase chunk) (join space queryWords)
  then length queryWords * 2 else 0.

(** The score as the design document words it. *)
Definition stated_score (chunk : list ascii) (queryWords : list (list ascii)) : nat :=
  sum_list_with (λ word, occurrences word chunk) queryWords
  + phrase_bonus chunk queryWords.

(** A word without a syntax character of regular expressions. *)
Definition plain_word (word : list ascii) : Prop :=
  Forall (λ c, RegExp.isSyntaxCharacter c = false) word.

(** A string of white space only. *)
Definition blank (s : list ascii) : Prop := Forall (λ c, isWhiteSpace c = true) s.

(** [u] stands in [s] as one piece. *)
Definition infix (u s : list ascii) : Prop := ∃ a b, s = a ++ u ++ b.

(** [s] ends with a character that is not white space. *)
Definition ends_solid (s : list ascii) : Prop :=
  ∃ y, last s = Some y ∧ isWhiteSpace y = false.

(** [s] ends with one of [.], [!], [?]. *)
Definition ends_sentence (s : list ascii) : Prop :=
  ∃ y, last s = Some y ∧ isSentenceEnd y = true.

(** A string without white space at either end. *)
Definition tight (s : list ascii) : Prop :=
  s = [] ∨ (∃ x r, s = x :: r ∧ isWhiteSpace x = false) ∧ ends_solid s.

(** The last [k] elements of an array: [l.slice(-k)] for [k] of at least 1. *)
Definition lastn {A} (k : nat) (l : list A) : list A := drop (length l - k) l.

(** A sentence is covered by a state of the chunker when its trimmed text
    stands in a chunk already pushed or in the buffer. *)
Definition covered (st : chunker) (sentence : list ascii) : Prop :=
  (∃ c, c ∈ chunks_out st ∧ infix (trim sentence) c)
  ∨ infix (trim sentence) (currentChunk st).

(** The buffers of a grouping of the sentences: a buffer holds the sentences
    of its group joined by single spaces, behind its seed; the seed of the
    first buffer is [seed], that of every other buffer is the words kept
    from the buffer before it and a space. *)
Fixpoint buffers_of (overlap : Z) (seed : list ascii)
  (groups : list (list (list ascii))) : list (list ascii) :=
  match groups with
  | [] => []
  | group :: rest =>
      let buffer := seed ++ join space group in
      buffer :: buffers_of overlap (overlapText overlap buffer ++ space) rest
  end.

(** What stands in front of the sentences of the buffer that comes behind
    the buffers [closed]: nothing when there is none, otherwise the words
    kept from the last of them and a space. *)
Definition seed_after (overlap : Z) (closed : list (list ascii)) : list ascii :=
  match last closed with
  | None => []
  | Some buffer => overlapText overlap buffer ++ space
  end.

(** The chunks that buffers leave: each buffer without the white space at its
    ends, those of white space only left out, and the text itself when that
    leaves none. *)
Definition chunks_from (text : list ascii) (buffers : list (list ascii))
  : list (list ascii) :=
  match filter (λ chunk, chunk ≠ []) (trim <$> buffers) with
  | [] => [text]
  | chunks => chunks
  end.

(** A state of the chunker after the sentences [done], and a grouping of
    them: the buffers of the grouping are the buffers closed so far, each of
    which gave a chunk, and the buffer at hand; a sentence longer than the
    size is a group of its own. *)
Definition grouped (chunkSize overlap : Z) (st : chunker)
  (done : list (list ascii)) (groups : list (list (list ascii))) : Prop :=
  concat groups = done
  ∧ Forall (λ group, group ≠ []) groups
  ∧ Forall (λ group, ∀ s, s ∈ group → (chunkSize < Z.of_nat (length s))%Z →
                          group = [s]) groups
  ∧ ∃ closed,
      buffers_of overlap [] groups = closed ++ [currentChunk st]
      ∧ chunks_out st = trim <$> closed
      ∧ Forall (λ buffer, trim buffer ≠ []) closed.

(** A string that is empty or begins with a character that is not white
    space. *)
Definition starts_solid (s : list ascii) : Prop :=
  s = [] ∨ ∃ x r, s = x :: r ∧ isWhiteSpace x = false.

(** The pieces of a split of which all but the last end a sentence. *)
Inductive closed_pieces : list (list ascii) → Prop :=
  | closed_last (p : list ascii) : closed_pieces [p]
  | closed_cons (p q : list ascii) (ps : list (list ascii)) :
      ends_sentence p → closed_pieces (q :: ps) → closed_pieces (p :: q :: ps).

(** The words kept from [c], without the white space in front of them. *)
Definition kept_words (overlap : Z) (c : list ascii) : list ascii :=
  trimStart (overlapText overlap c).

(** In an array of chunks every chunk starts with the words kept from the
    chunk before it. *)
Definition chained (overlap : Z) (cs : list (list ascii)) : Prop :=
  ∀ pre c1 c2 post, cs = pre ++ c1 :: c2 :: post →
    kept_words overlap c1 `prefix_of` c2.

(** The buffer goes on from the last chunk pushed: whatever is appended to
    it, its trimmed text starts with the words kept from that chunk. *)
Definition continues (overlap : Z) (st : chunker) : Prop :=
  ∀ c, last (chunks_out st) = Some c →
    ∀ more, kept_words overlap c `prefix_of` trim (currentChunk st ++ more).

(** The chunk of the phrase example of the design document: the phrase once,
    and each of its two words once more. *)
Definition annual_chunk : list ascii :=
  lit "The Annual Report is out. An annual summary follows the report.".

(** ** Vocabulary of the further properties *)

(** The chunks of every stored document are those of its content. *)
Definition chunks_derived (st : Store) : Prop :=
  ∀ chatId docs d, st !! chatId = Some docs → d ∈ docs →
    chunks d = chunkText (content d).

(** A string in lower case. *)
Definition lower_case (s : list ascii) : Prop := toLowerCase s = s.

(** A string without white space. *)
Definition solid (s : list ascii) : Prop := Forall (λ c, isWhiteSpace c = false) s.

(** A chunk as the chunker pushes it: not empty, and without white space at
    its ends. *)
Definition pushed_chunk (c : list ascii) : Prop := c ≠ [] ∧ tight c.

(** The room a sentence takes in a buffer: its characters and a separator. *)
Definition pieces_weight (pieces : list (list ascii)) : nat :=
  sum_list_with (λ p, S (length p)) pieces.

(** The else branch of the loop of [chunkText]:
    [currentChunk += (currentChunk ? ' ' : '') + sentence]. *)
Definition glue (cur sentence : list ascii) : list ascii :=
  cur ++ (if 0 <? length cur then space else []) ++ sentence.

(** ** Long messages: [escapeMarkdown] and [sendLongMessage] of [index.js] *)

(** The class [[_*\[\]()~`>#+=|{}.!-]]. *)
Definition isMarkdownSpecial (c : ascii) : bool :=
  existsb (ascii_eqb c) (lit "_*[]()~`>#+=|{}.!-").

Definition backslash : ascii := ascii_of_N 92.

(** [text.replace(/([_*\[\]()~`>#+=|{}.!-])/g, '\\$1')]: a backslash goes in
    front of every character of the class.  For the empty string the guard
    [if (!text) return ''] gives what the replacement gives. *)
Definition escapeMarkdown (text : list ascii) : list ascii :=
  flat_map (λ c, if isMarkdownSpecial c then [backslash; c] else [c]) text.

(** [text.match(/[\s\S]{1,n}/g)]: the class holds every code unit, and the
    quantifier is greedy, so each match takes the code units that are left,
    up to [n] of them, and the next match starts behind it.  [fuel] bounds
    the number of matches; a text has no more matches than code units. *)
Fixpoint match_blocks {A} (n fuel : nat) (text : list A) : list (list A) :=
  match fuel, text with
  | S fuel', _ :: _ => take n text :: match_blocks n fuel' (drop n text)
  | _, _ => []
  end.

(** The array of the matches, or [null] when there is none. *)
Definition match_1_4000 {A} (text : list A) : option (list (list A)) :=
  match match_blocks 4000 (length text) text with
  | [] => None
  | blocks => Some blocks
  end.

(** ** Promises and the network *)

Module Js.

(** What the code reads of a caught value: [message], [code], and of
    [response] the [status] and [data.error.message]. *)
Record Response := { status : Z; apiMessage : option (list ascii) }.

Record Error := {
  message : list ascii;
  code : option (list ascii);
  response : option Response
}.

(** [new Error(msg)]; also the shape of an error the engine throws. *)
Definition newError (msg : list ascii) : Error :=
  {| message := msg; code := None; response := None |}.

(** [error.response?.status]. *)
Definition statusOf (e : Error) : option Z := status <$> response e.

(** [error.response?.data?.error?.message] when it is truthy. *)
Definition apiMessageOf (e : Error) : option (list ascii) :=
  match response e with
  | Some r =>
      match apiMessage r with
      | Some (c :: msg) => Some (c :: msg)
      | _ => None
      end
  | None => None
  end.

(** [error.code === name]. *)
Definition hasCode (name : list ascii) (e : Error) : bool :=
  bool_decide (code e = Some name).

(** [status === n]. *)
Definition isStatus (n : Z) (status : option Z) : bool :=
  bool_decide (status = Some n).

(** How a promise settles. *)
Inductive settled (A : Type) : Type :=
  | Fulfilled (a : A)
  | Rejected (e : Error).
Arguments Fulfilled {A} a.
Arguments Rejected {A} e.

End Js.

Import Js (Fulfilled, Rejected).

(** What an asynchronous function leaves behind: the number of requests sent
    over the network so far, and the pauses taken, in milliseconds.  Output
    to the console is left out. *)
Record World := { requests : nat; pauses : list Z }.

(** An asynchronous function: from the world to the way its promise settles
    and the world then.  The requests have timeouts, so each of them settles;
    [None] stands for a chain of calls cut off by the fuel of its
    definition. *)
Definition Async (A : Type) : Type := World → option (Js.settled A * World).

#[global] Instance Async_ret : MRet Async := λ A a w, Some (Fulfilled a, w).
#[global] Instance Async_bind : MBind Async := λ A B k m w,
  match m w with
  | Some (Fulfilled a, w') => k a w'
  | Some (Rejected e, w') => Some (Rejected e, w')
  | None => None
  end.

Definition throw {A} (e : Js.Error) : Async A := λ w, Some (Rejected e, w).

(** A value or an error at hand, as a promise. *)
Definition settle {A} (r : Js.settled A) : Async A := λ w, Some (r, w).

Definition unsettled {A} : Async A := λ _, None.

(** [try { body } catch (error) { handler }] around awaited calls. *)
Definition try_catch {A} (body : Async A) (handler : Js.Error → Async A) : Async A :=
  λ w, match body w with
       | Some (Rejected e, w') => handler e w'
       | r => r
       end.

(** [await sleep(ms)]. *)
Definition sleep (ms : Z) : Async unit :=
  λ w, Some (Fulfilled tt, {| requests := requests w; pauses := pauses w ++ [ms] |}).

(** [await axios.get(...)], [await axios.post(...)]: the way the request
    settles is given by its number among the requests. *)
Definition request {R} (outcome : nat → Js.settled R) : Async R :=
  λ w, Some (outcome (requests w),
             {| requests := S (requests w); pauses := pauses w |}).

(** *** The reply of the model *)

Module Gemini.

(** The part of the reply the code reads; a field that is absent, or that
    holds no object, is [None]. *)
Record Part := { text : option (list ascii) }.
Record Content := { parts : option (list Part) }.
Record Candidate := { content : option Content }.
Record Data := { candidates : option (list Candidate) }.

(** [data.candidates && data.candidates[0]?.content?.parts[0]?.text]: the text
    when the expression is truthy, [None] when it is falsy.  Reading
    [candidates] of a missing body and element 0 of missing [parts] throw. *)
Definition firstText (typeError : list ascii → Js.Error) (data : option Data)
  : Js.settled (option (list ascii)) :=
  match data with
  | None => Rejected (typeError (lit "candidates"))
  | Some d =>
      match candidates d with
      | None => Fulfilled None
      | Some cs =>
          match head cs with
          | None => Fulfilled None
          | Some candidate =>
              match content candidate with
              | None => Fulfilled None
              | Some c =>
                  match parts c with
                  | None => Rejected (typeError (lit "0"))
                  | Some ps =>
                      match head ps with
                      | None => Fulfilled None
                      | Some part =>
                          match text part with
                          | Some (ch :: t) => Fulfilled (Some (ch :: t))
                          | _ => Fulfilled None
                          end
                      end
                  end
              end
          end
      end
  end.

End Gemini.

(** ** The call to the model: [callGemini] of [gemini-service.js] *)

Definition sorryMessage : list ascii :=
  lit "Sorry, I couldn't generate a response. Please try again.".
Definition rateLimitMessage : list ascii :=
  lit "⚠️ API rate limit reached. The free tier allows limited requests per minute. Please wait 1-2 minutes and try again.".
Definition overloadedMessage : list ascii :=
  lit "⚠️ The AI service is temporarily overloaded. Please try again in a few seconds.".
Definition apiErrorPrefix : list ascii := lit "❌ API Error: ".

Arguments sorryMessage : simpl never.
Arguments rateLimitMessage : simpl never.
Arguments overloadedMessage : simpl never.
Arguments apiErrorPrefix : simpl never.

Section CallGemini.

(** The request to the model, by its number: how [axios.post] settles for
    the body made of the context, the question and the source names. *)
Variable post :
  nat → list ascii → list ascii → list (list ascii) → Js.settled (option Gemini.Data).

(** The error of the engine for reading the named property of a value that
    has none: an error with a message of the engine's. *)
Variable engineMessage : list ascii → list ascii.

Definition typeError (property : list ascii) : Js.Error :=
  Js.newError (engineMessage property).

Variables (context question : list ascii) (sourceFiles : list (list ascii)).

Definition MAX_RETRIES : Z := 3.
Definition BASE_DELAY : Z := 3000.

(** The [try] block: the request, and the text of the reply. *)
Definition gemini_attempt : Async (list ascii) :=
  let* response := request (λ n, post n context question sourceFiles) in
  let* found := settle (Gemini.firstText typeError response) in
  mret (match found with
        | Some answerText => answerText
        | None => sorryMessage
        end).

(** The end of the [catch] block, when there is no further attempt. *)
Definition gemini_conclude (error : Js.Error) : Async (list ascii) :=
  let status := Js.statusOf error in
  if Js.isStatus 429 status then mret rateLimitMessage
  else if Js.isStatus 503 status then mret overloadedMessage
  else match Js.apiMessageOf error with
       | Some msg => mret (apiErrorPrefix ++ msg)
       | None => throw error
       end.

Fixpoint callGemini_from (fuel : nat) (retryCount : Z) : Async (list ascii) :=
  match fuel with
  | 0 => unsettled
  | S fuel' =>
      try_catch gemini_attempt (λ error,
        let status := Js.statusOf error in
        if (Js.isStatus 429 status || Js.isStatus 503 status)
           && (retryCount <? MAX_RETRIES)%Z
        then
          let delay := (BASE_DELAY * 2 ^ retryCount)%Z in
          let* _ := sleep delay in
          callGemini_from fuel' (retryCount + 1)%Z
        else gemini_conclude error)
  end.

(** [callGemini(context, question, sourceFiles)], [retryCount] being 0. *)
Definition callGemini : Async (list ascii) := callGemini_from 4 0.

End CallGemini.

(** ** Downloading and reading a PDF: [pdf-processor.js] *)

Module Pdf.

(** The bytes of a file. *)
Definition Buffer : Type := list Byte.byte.

(** What [pdf-parse] gives: the text and the number of pages. *)
Record PdfData := { parsed_text : list ascii; numpages : Z }.

(** The result of an extraction: [{ text, method, pages }]. *)
Record Extraction := { text : list ascii; method : list ascii; pages : option Z }.

(** The reply of [getFile]: [{ ok, result: { file_path } }]. *)
Record FileResult := { file_path : option (list ascii) }.
Record FileInfo := { ok : bool; result : option FileResult }.

(** The result of a download: [{ buffer, fileName }]. *)
Record Download := { buffer : Buffer; downloaded_fileName : list ascii }.

(** The result of [processPDF]: [{ fileName, content, size, method, pages }]. *)
Record Processed := {
  fileName : list ascii;
  content : list ascii;
  size : nat;
  processed_method : list ascii;
  processed_pages : option Z
}.

(** [s.split(sep)] for a separator of one character. *)
Fixpoint split_char (sep : ascii) (s : list ascii) : list (list ascii) :=
  match s with
  | [] => [[]]
  | c :: s' =>
      if ascii_eqb c sep then [] :: split_char sep s'
      else cons_head c (split_char sep s')
  end.

(** [pieces.pop()] of the pieces of a split, which are never none. *)
Definition pop (pieces : list (list ascii)) : list ascii := default [] (last pieces).

Section Processor.

(** The requests by their number: the reply of [getFile], the bytes of the
    download, the reply of the model to the request for the text. *)
Variable getFile : nat → list ascii → Js.settled (option FileInfo).
Variable download : nat → option (list ascii) → Js.settled Buffer.
Variable extract : nat → Buffer → list ascii → Js.settled (option Gemini.Data).

(** [pdfParse(pdfBuffer)], the import of the module included. *)
Variable pdfParse : Buffer → Js.settled PdfData.

Variable engineMessage : list ascii → list ascii.

(** *** [downloadTelegramFile] *)

(** The [try] block. *)
Definition download_attempt (fileId : list ascii) : Async Download :=
  let* data := request (λ n, getFile n fileId) in
  let* info := match data with
               | Some info => mret info
               | None => throw (typeError engineMessage (lit "ok"))
               end in
  if negb (ok info)
  then throw (Js.newError (lit "Could not get file info from Telegram"))
  else
    let* found := match result info with
                  | Some found => mret found
                  | None => throw (typeError engineMessage (lit "file_path"))
                  end in
    let filePath := file_path found in
    let* bytes := request (λ n, download n filePath) in
    match filePath with
    | Some path =>
        mret {| buffer := bytes; downloaded_fileName := pop (split_char "/" path) |}
    | None => throw (typeError engineMessage (lit "split"))
    end.

Fixpoint downloadTelegramFile_from (fuel : nat) (fileId : list ascii) (retryCount : Z)
  : Async Download :=
  match fuel with
  | 0 => unsettled
  | S fuel' =>
      try_catch (download_attempt fileId) (λ error,
        if (retryCount <? 3)%Z
           && (Js.hasCode (lit "ECONNRESET") error
               || Js.hasCode (lit "ETIMEDOUT") error
               || includes (Js.message error) (lit "aborted"))
        then
          let* _ := sleep ((retryCount + 1) * 2000)%Z in
          downloadTelegramFile_from fuel' fileId (retryCount + 1)%Z
        else throw error)
  end.

Definition downloadTelegramFile (fileId : list ascii) : Async Download :=
  downloadTelegramFile_from 4 fileId 0.

(** *** [extractWithGemini] *)

(** The [try] block. *)
Definition extract_attempt (pdfBuffer : Buffer) (name : list ascii)
  : Async Extraction :=
  let* response := request (λ n, extract n pdfBuffer name) in
  let* found := settle (Gemini.firstText (typeError engineMessage) response) in
  match found with
  | Some extracted =>
      mret {| text := extracted; method := lit "gemini"; pages := None |}
  | None => throw (Js.newError (lit "No text extracted from PDF"))
  end.

Fixpoint extractWithGemini_from (fuel : nat) (pdfBuffer : Buffer) (name : list ascii)
  (retryCount : Z) : Async Extraction :=
  match fuel with
  | 0 => unsettled
  | S fuel' =>
      try_catch (extract_attempt pdfBuffer name) (λ error,
        let status := Js.statusOf error in
        if (Js.isStatus 429 status || Js.isStatus 503 status) && (retryCount <? 2)%Z
        then
          let delay := ((retryCount + 1) * 5000)%Z in
          let* _ := sleep delay in
          extractWithGemini_from fuel' pdfBuffer name (retryCount + 1)%Z
        else throw error)
  end.

Definition extractWithGemini (pdfBuffer : Buffer) (name : list ascii)
  : Async Extraction :=
  extractWithGemini_from 3 pdfBuffer name 0.

(** *** [extractTextFromPDF] *)

(** The call to the model in the [try] block is awaited there, so its
    rejection is caught like one of [pdf-parse]. *)
Definition extractTextFromPDF (pdfBuffer : Buffer) (name : list ascii)
  : Async Extraction :=
  try_catch
    (let* pdfData := settle (pdfParse pdfBuffer) in
     if negb (bool_decide (parsed_text pdfData = []))
        && (100 <? length (trim (parsed_text pdfData)))
     then mret {| text := parsed_text pdfData; method := lit "pdf-parse";
                  pages := Some (numpages pdfData) |}
     else extractWithGemini pdfBuffer name)
    (λ error, extractWithGemini pdfBuffer name).

(** *** [processPDF] *)

(** [originalFileName || fileName]: the name of the message when it is a
    string that is not empty. *)
Definition orElse (first : option (list ascii)) (second : list ascii) : list ascii :=
  match first with
  | Some (c :: name) => c :: name
  | _ => second
  end.

Definition processPDF (fileId : list ascii) (originalFileName : option (list ascii))
  : Async Processed :=
  let* downloaded := downloadTelegramFile fileId in
  let finalFileName := orElse originalFileName (downloaded_fileName downloaded) in
  let* extraction := extractTextFromPDF (buffer downloaded) finalFileName in
  mret {| fileName := finalFileName;
          content := text extraction;
          size := length (buffer downloaded);
          processed_method := method extraction;
          processed_pages := pages extraction |}.

End Processor.

End Pdf.

(** ** The messages [sendLongMessage] sends *)

(** The bot's side of a chat: the calls to [sendMessage] so far, and the
    messages delivered, each with the chat it went to. *)
Record Outbox (A : Type) := { calls : nat; delivered : list (Z * list A) }.
Arguments calls {A} _.
Arguments delivered {A} _.

Section SendLongMessage.

(** The code units of a string. *)
Context {A : Type}.

(** [bot.sendMessage(chatId, text)], by the number of the call: the error
    when the call is rejected. *)
Variable sendMessage : nat → Z → list A → option Js.Error.

(** The error of [for (const chunk of null)]. *)
Variable notIterable : Js.Error.

Definition send (chatId : Z) (chunk : list A) (box : Outbox A)
  : Js.settled unit * Outbox A :=
  match sendMessage (calls box) chatId chunk with
  | None => (Fulfilled tt, {| calls := S (calls box);
                              delivered := delivered box ++ [(chatId, chunk)] |})
  | Some e => (Rejected e, {| calls := S (calls box); delivered := delivered box |})
  end.

(** The loop [for (const chunk of chunks) await bot.sendMessage(chatId, chunk)]. *)
Fixpoint send_each (chatId : Z) (chunks : list (list A)) (box : Outbox A)
  : Js.settled unit * Outbox A :=
  match chunks with
  | [] => (Fulfilled tt, box)
  | chunk :: rest =>
      match send chatId chunk box with
      | (Fulfilled _, box') => send_each chatId rest box'
      | (Rejected e, box') => (Rejected e, box')
      end
  end.

Definition sendLongMessage (chatId : Z) (text : list A) (box : Outbox A)
  : Js.settled unit * Outbox A :=
  match match_1_4000 text with
  | None => (Rejected notIterable, box)
  | Some chunks => send_each chatId chunks box
  end.

End SendLongMessage.

(** ** Vocabulary of the properties of the requests *)

(** An error of a request the model refused for now: status 429 or 503. *)
Definition transient (e : Js.Error) : bool :=
  Js.isStatus 429 (Js.statusOf e) || Js.isStatus 503 (Js.statusOf e).

(** The world after [n] further requests and the further pauses [ps]. *)
Definition later (w : World) (n : nat) (ps : list Z) : World :=
  {| requests := requests w + n; pauses := pauses w ++ ps |}.

(** The pauses of [k] retries in a row, the first of them at [retryCount]. *)
Fixpoint pauses_from (delay : Z → Z) (retryCount : Z) (k : nat) : list Z :=
  match k with
  | 0 => []
  | S k' => delay retryCount :: pauses_from delay (retryCount + 1)%Z k'
  end.

(** The shape the three functions that retry share: an attempt in a [try]
    block; in the [catch] block a pause and a call with [retryCount + 1] when
    [again] holds of the error and the count, and the rest of the block
    otherwise. *)
Fixpoint retry_loop {A} (attempt : Async A) (again : Js.Error → Z → bool)
  (delay : Z → Z) (conclude : Js.Error → Async A) (fuel : nat) (retryCount : Z)
  : Async A :=
  match fuel with
  | 0 => unsettled
  | S fuel' =>
      try_catch attempt (λ error,
        if again error retryCount
        then let* _ := sleep (delay retryCount) in
             retry_loop attempt again delay conclude fuel' (retryCount + 1)%Z
        else conclude error)
  end.

(** [k] attempts in a row from the world [w], each rejected with an error
    that calls for another attempt and followed by its pause; [w'] is the
    world after the last of the pauses, [w] itself when [k] is 0. *)
Fixpoint retried {A} (attempt : Async A) (again : Js.Error → Z → bool)
  (delay : Z → Z) (retryCount : Z) (k : nat) (w w' : World) : Prop :=
  match k with
  | 0 => w' = w
  | S k' =>
      ∃ e w1,
        attempt w = Some (Rejected e, w1)
        ∧ again e retryCount = true
        ∧ retried attempt again delay (retryCount + 1)%Z k'
            (later w1 0 [delay retryCount]) w'
  end.

(** What the [try] block of [callGemini] comes to when its request is the
    one of number [n]. *)
Definition gemini_reply
  (post : nat → list ascii → list ascii → list (list ascii)
          → Js.settled (option Gemini.Data))
  (engineMessage : list ascii → list ascii)
  (context question : list ascii) (sourceFiles : list (list ascii)) (n : nat)
  : Js.settled (list ascii) :=
  match post n context question sourceFiles with
  | Fulfilled data =>
      match Gemini.firstText (typeError engineMessage) data with
      | Fulfilled (Some answerText) => Fulfilled answerText
      | Fulfilled None => Fulfilled sorryMessage
      | Rejected e => Rejected e
      end
  | Rejected e => Rejected e
  end.

(** What the [try] block of [extractWithGemini] comes to when its request is
    the one of number [n]. *)
Definition extract_reply
  (extract : nat → Pdf.Buffer → list ascii → Js.settled (option Gemini.Data))
  (engineMessage : list ascii → list ascii)
  (pdfBuffer : Pdf.Buffer) (name : list ascii) (n : nat)
  : Js.settled Pdf.Extraction :=
  match extract n pdfBuffer name with
  | Fulfilled data =>
      match Gemini.firstText (typeError engineMessage) data with
      | Fulfilled (Some extracted) =>
          Fulfilled {| Pdf.text := extracted; Pdf.method := lit "gemini";
                       Pdf.pages := None |}
      | Fulfilled None => Rejected (Js.newError (lit "No text extracted from PDF"))
      | Rejected e => Rejected e
      end
  | Rejected e => Rejected e
  end.

(** A model that answers every request with status 429. *)
Definition rate_limited : Js.Error :=
  {| Js.message := lit "Request failed with status code 429";
     Js.code := Some (lit "ERR_BAD_REQUEST");
     Js.response := Some {| Js.status := 429; Js.apiMessage := None |} |}.

(** A reply of the model with one candidate of one part. *)
Definition reply_with (answerText : list ascii) : option Gemini.Data :=
  Some {| Gemini.candidates := Some [
    {| Gemini.content := Some {| Gemini.parts := Some [
         {| Gemini.text := Some answerText |}] |} |}] |}.

(** The world before anything is asked. *)
Definition quiet : World := {| requests := 0; pauses := [] |}.

(** A download is one of the file [getFile] names: the reply to a request
    gave the path, a later request for that path gave the bytes, and the
    name is what follows the last [/] of the path. *)
Definition download_of
  (getFile : nat → list ascii → Js.settled (option Pdf.FileInfo))
  (download : nat → option (list ascii) → Js.settled Pdf.Buffer)
  (fileId : list ascii) (d : Pdf.Download) : Prop :=
  ∃ n info found path,
    getFile n fileId = Fulfilled (Some info)
    ∧ Pdf.ok info = true
    ∧ Pdf.result info = Some found
    ∧ Pdf.file_path found = Some path
    ∧ download (S n) (Some path) = Fulfilled (Pdf.buffer d)
    ∧ Pdf.downloaded_fileName d = Pdf.pop (Pdf.split_char "/" path).

(** An error of the network that [downloadTelegramFile] answers with
    another attempt. *)
Definition network_error (e : Js.Error) : bool :=
  Js.hasCode (lit "ECONNRESET") e
  || Js.hasCode (lit "ETIMEDOUT") e
  || includes (Js.message e) (lit "aborted").

(** A scanned file: [pdf-parse] finds four characters on one page. *)
Definition scanned : Pdf.PdfData := {| Pdf.parsed_text := lit "scan"; Pdf.numpages := 1 |}.

(** A file of text: [pdf-parse] finds 120 characters, of which a space
    at either end is white space. *)
Definition typed : Pdf.PdfData :=
  {| Pdf.parsed_text := " "%char :: repeat "x"%char 118 ++ [" "%char];
     Pdf.numpages := 2 |}.

(** * Properties *)

(** ** The embedding at work *)

Example split_sentences_keeps_marks :
  split_sentences (lit " a. b!  c?d ") = [lit " a."; lit "b!"; lit "c?d "]
  ∧ split_sentences (lit "a. ") = [lit "a."; []]
  ∧ split_sentences (lit "3.14 is pi") = [lit "3.14 is pi"]
  ∧ split_sentences [] = [[]].
Proof. vm_compute. repeat split; reflexivity. Qed.

Example queryWordsOf_drops_short_words :
  queryWordsOf (lit " What is  the Annual  REPORT of a.c ")
  = [lit "what"; lit "the"; lit "annual"; lit "report"; lit "a.c"].
Proof. vm_compute. reflexivity. Qed.

Example split_space_keeps_empty_words :
  split_space (lit "a  b. c") = [lit "a"; []; lit "b."; lit "c"]
  ∧ split_space [] = [[]].
Proof. vm_compute. split; reflexivity. Qed.

Example slice_from_counts_from_the_end :
  slice_from (-2) [1; 2; 3] = [2; 3]
  ∧ slice_from (-5) [1; 2; 3] = [1; 2; 3]
  ∧ slice_from 0 [1; 2; 3] = [1; 2; 3]
  ∧ slice_from 1 [1; 2; 3] = [2; 3].
Proof. vm_compute. repeat split; reflexivity. Qed.

Example parse_of_sources :
  RegExp.parse (lit "a.c")
  = RegExp.Fragment [RegExp.Char "a"; RegExp.AnyChar; RegExp.Char "c"]
  ∧ RegExp.parse (lit "c++") = RegExp.Malformed
  ∧ RegExp.parse (lit "???") = RegExp.Malformed
  ∧ RegExp.parse (lit "c+?") = RegExp.Outside
  ∧ RegExp.parse (lit "(abc)") = RegExp.Outside
  ∧ RegExp.parse [] = RegExp.Fragment [].
Proof. vm_compute. repeat split; reflexivity. Qed.

Example match_count_without_overlap :
  RegExp.match_count (RegExp.Pattern (RegExp.Char <$> lit "aa")) (lit "aAaaa") = 2
  ∧ RegExp.match_count (RegExp.Pattern []) (lit "abc") = 4.
Proof. vm_compute. split; reflexivity. Qed.

Example chunkText_of_four_sentences :
  chunkText_with (lit "one two. three four. five six. seven.") 10 10
  = [lit "one two."; lit "two. three four."; lit "four. five six."; lit "six. seven."]
  ∧ chunkText (lit "  ") = [lit "  "].
Proof. vm_compute. split; reflexivity. Qed.


(** ** The methods in closed form *)

Lemma addDocument_store (chatId : Z) (name text now : list ascii) (st : Store) :
  snd (addDocument chatId name text now st)
  = <[chatId := put_document (mkDocument name text now) (orEmpty (st !! chatId))]> st.
Proof.
  unfold addDocument. run_method.
  destruct (st !! chatId) as [docs|] eqn:Hget; simpl.
  - rewrite Hget. reflexivity.
  - rewrite lookup_insert_eq. simpl. rewrite insert_insert_eq. reflexivity.
Qed.

Lemma addDocument_result (chatId : Z) (name text now : list ascii) (st : Store) :
  fst (addDocument chatId name text now st)
  = {| success := true; added_fileName := name;
       chunksCount := length (chunkText text);
       totalDocuments :=
         length (put_document (mkDocument name text now) (orEmpty (st !! chatId))) |}.
Proof.
  unfold addDocument. run_method.
  destruct (st !! chatId) as [docs|] eqn:Hget; simpl.
  - rewrite Hget. reflexivity.
  - rewrite lookup_insert_eq. reflexivity.
Qed.

(** *** [findIndex] *)

Section FindIndex.
Context {A : Type} (p : A → bool).

Lemma findIndex_from_range (i : Z) (l : list A) :
  findIndex_from p i l = (-1)%Z
  ∨ (i <= findIndex_from p i l < i + Z.of_nat (length l))%Z.
Proof.
  revert i. induction l as [|x l IH]; intros i; simpl; [by left|].
  destruct (p x); [right; lia|].
  destruct (IH (i + 1)%Z) as [->|?]; [by left | right; lia].
Qed.

Lemma findIndex_from_found (i : Z) (l : list A) (k : nat) (x : A) :
  (0 <= i)%Z →
  l !! k = Some x → p x = true →
  (∀ j y, j < k → l !! j = Some y → p y = false) →
  findIndex_from p i l = (i + Z.of_nat k)%Z.
Proof.
  revert i k. induction l as [|y l IH]; intros i k Hi Hk Hp Hfirst; [done|].
  destruct k as [|k]; simpl in *.
  - inversion Hk; subst. rewrite Hp. lia.
  - assert (p y = false) as -> by (apply (Hfirst 0 y); [lia | done]).
    rewrite (IH (i + 1)%Z k); [lia | lia | done | done |].
    intros j z Hj Hz. apply (Hfirst (S j) z); [lia | done].
Qed.

Lemma findIndex_from_first (i : Z) (l : list A) :
  (0 <= i)%Z → (0 <= findIndex_from p i l)%Z →
  ∃ (k : nat) (x : A),
    findIndex_from p i l = (i + Z.of_nat k)%Z ∧ l !! k = Some x ∧ p x = true
    ∧ ∀ j y, j < k → l !! j = Some y → p y = false.
Proof.
  revert i. induction l as [|y l IH]; intros i Hi Hfound; simpl in *; [lia|].
  destruct (p y) eqn:Hy.
  - exists 0, y. repeat split; [lia | done | intros; lia].
  - destruct (IH (i + 1)%Z) as (k & x & Hk & Hx & Hp & Hfirst); [lia | done |].
    exists (S k), x. repeat split; [lia | done | done |].
    intros [|j] z Hj Hz; simpl in Hz; [by inversion Hz; subst|].
    apply (Hfirst j z); [lia | done].
Qed.

Lemma findIndex_from_none (i : Z) (l : list A) :
  (0 <= i)%Z →
  findIndex_from p i l = (-1)%Z ↔ ∀ x, x ∈ l → p x = false.
Proof.
  revert i. induction l as [|y l IH]; intros i Hi; simpl.
  - split; [intros _ x Hx; by apply elem_of_nil in Hx | done].
  - destruct (p y) eqn:Hy.
    + split; [lia|]. intros H. rewrite (H y) in Hy by (by left). done.
    + rewrite IH by lia. split.
      * intros H x Hx. apply elem_of_cons in Hx as [->|Hx]; auto.
      * intros H x Hx. apply H. by right.
Qed.

End FindIndex.

Lemma hasName_true (name : list ascii) (d : Document) :
  hasName name d = true ↔ fileName d = name.
Proof. unfold hasName. apply bool_decide_eq_true. Qed.

Lemma hasName_false (name : list ascii) (d : Document) :
  hasName name d = false ↔ fileName d ≠ name.
Proof. unfold hasName. apply bool_decide_eq_false. Qed.

Lemma findIndex_first_named (name : list ascii) (docs : list Document) (i : nat) :
  first_named name docs i → findIndex (hasName name) docs = Z.of_nat i.
Proof.
  intros [(d & Hd & Hname) Hfirst]. unfold findIndex.
  rewrite (findIndex_from_found _ 0%Z docs i d); try done.
  - by apply hasName_true.
  - intros j y Hj Hy. apply hasName_false. eauto.
Qed.

Lemma findIndex_found_first_named (name : list ascii) (docs : list Document) :
  (0 <= findIndex (hasName name) docs)%Z →
  first_named name docs (Z.to_nat (findIndex (hasName name) docs)).
Proof.
  intros Hfound. unfold findIndex in *.
  destruct (findIndex_from_first (hasName name) 0%Z docs) as (k & x & -> & Hx & Hp & Hfirst);
    [lia | done |].
  replace (Z.to_nat (0 + Z.of_nat k)) with k by lia.
  split; [exists x; split; [done | by apply hasName_true]|].
  intros j y Hj Hy. apply hasName_false. eauto.
Qed.

Lemma findIndex_absent (name : list ascii) (docs : list Document) :
  findIndex (hasName name) docs = (-1)%Z ↔ name ∉ fileName <$> docs.
Proof.
  unfold findIndex. rewrite findIndex_from_none by lia. split.
  - intros H Hin. apply list_elem_of_fmap in Hin as (d & -> & Hd).
    apply H in Hd. by apply hasName_false in Hd.
  - intros H d Hd. apply hasName_false. intros <-. apply H.
    apply list_elem_of_fmap. eauto.
Qed.

Lemma findIndex_cases (name : list ascii) (docs : list Document) :
  (findIndex (hasName name) docs = (-1)%Z ∧ name ∉ fileName <$> docs)
  ∨ (∃ i, findIndex (hasName name) docs = Z.of_nat i ∧ first_named name docs i).
Proof.
  unfold findIndex at 1 2.
  destruct (findIndex_from_range (hasName name) 0%Z docs) as [H|H].
  - left. split; [done|]. by apply findIndex_absent.
  - right. exists (Z.to_nat (findIndex (hasName name) docs)). split.
    + unfold findIndex. lia.
    + apply findIndex_found_first_named. unfold findIndex. lia.
Qed.

Lemma deleteDocument_run (chatId : Z) (name : list ascii) (st : Store) :
  deleteDocument chatId name st
  = match st !! chatId with
    | None => (false, st)
    | Some userDocs =>
        let index := findIndex (hasName name) userDocs in
        if (0 <=? index)%Z
        then (true, <[chatId := delete (Z.to_nat index) userDocs]> st)
        else (false, st)
    end.
Proof.
  unfold deleteDocument. run_method.
  destruct (st !! chatId) as [docs|]; [|done].
  simpl. by destruct (0 <=? _)%Z.
Qed.

(** *** Unique file names *)

Lemma put_document_names (doc : Document) (docs : list Document) :
  fileName <$> put_document doc docs
  = if bool_decide (fileName doc ∈ fileName <$> docs)
    then fileName <$> docs
    else (fileName <$> docs) ++ [fileName doc].
Proof.
  unfold put_document.
  destruct (findIndex_cases (fileName doc) docs) as [[-> Hnot] | (i & -> & Hfirst)].
  - simpl. rewrite bool_decide_eq_false_2 by done. by rewrite fmap_app.
  - destruct (Z.leb_spec 0 (Z.of_nat i)); [|lia].
    rewrite Nat2Z.id. destruct Hfirst as [(d & Hd & Hname) _].
    rewrite bool_decide_eq_true_2.
    + rewrite list_fmap_insert. apply list_insert_id.
      rewrite list_lookup_fmap, Hd. simpl. by rewrite Hname.
    + apply list_elem_of_fmap. exists d. split; [done|].
      by apply list_elem_of_lookup_2 in Hd.
Qed.

Lemma put_document_unique (doc : Document) (docs : list Document) :
  NoDup (fileName <$> docs) → NoDup (fileName <$> put_document doc docs).
Proof.
  intros Hnodup. rewrite put_document_names. case_bool_decide as Hin; [done|].
  apply NoDup_app. split; [done|]. split; [|apply NoDup_singleton].
  intros x Hx Hx'. apply list_elem_of_singleton in Hx' as ->. done.
Qed.

Lemma delete_unique (i : nat) (docs : list Document) :
  NoDup (fileName <$> docs) → NoDup (fileName <$> delete i docs).
Proof.
  intros Hnodup. rewrite list_fmap_delete.
  eapply sublist_NoDup; [done | apply sublist_delete].
Qed.

Lemma perform_unique (o : operation) (st : Store) :
  unique_names st → unique_names (perform o st).
Proof.
  intros Huniq chatId docs. destruct o as [u name text now | u name | u]; simpl.
  - rewrite addDocument_store. destruct (decide (u = chatId)) as [->|Hne].
    + rewrite lookup_insert_eq. intros [= <-]. apply put_document_unique.
      destruct (st !! chatId) as [ds|] eqn:Hds; simpl; [by eapply Huniq | constructor].
    + rewrite lookup_insert_ne by done. apply Huniq.
  - rewrite deleteDocument_run. destruct (st !! u) as [ds|] eqn:Hds; [|apply Huniq].
    simpl. destruct (0 <=? _)%Z; [|apply Huniq]. simpl.
    destruct (decide (u = chatId)) as [->|Hne].
    + rewrite lookup_insert_eq. intros [= <-]. apply delete_unique. by eapply Huniq.
    + rewrite lookup_insert_ne by done. apply Huniq.
  - unfold clearDocuments. run_method. destruct (decide (u = chatId)) as [->|Hne].
    + by rewrite lookup_delete_eq.
    + rewrite lookup_delete_ne by done. apply Huniq.
Qed.

(** C9.  Unique file names are an invariant of the store: it holds in every
    state that [addDocument], [deleteDocument] and [clearDocuments] reach from
    the new store, and each of the three keeps it. *)
Theorem unique_names_invariant (st : Store) :
  reachable st →
  unique_names st ∧ ∀ o : operation, unique_names (perform o st).
Proof.
  intros Hreach.
  assert (unique_names st) as Huniq.
  { induction Hreach as [|st o _ IH].
    - intros chatId docs Hget. unfold newStore in Hget.
      by rewrite lookup_empty in Hget.
    - by apply perform_unique. }
  split; [done|]. intros o. by apply perform_unique.
Qed.

Lemma sample_store_reachable : reachable sample_store.
Proof.
  unfold sample_store, sample_operations. cbn [foldl]. repeat apply reachable_step.
  apply reachable_new.
Defined.

Lemma unique_names_invariant_witness :
  unique_names sample_store ∧ ∀ o : operation, unique_names (perform o sample_store).
Proof. exact (unique_names_invariant sample_store sample_store_reachable). Defined.

(** ** Reading and deleting *)

Lemma getDocumentCount_run (chatId : Z) (st : Store) :
  getDocumentCount chatId st = (length (orEmpty (st !! chatId)), st).
Proof. unfold getDocumentCount. run_method. by destruct (st !! chatId). Qed.

Lemma getDocuments_run (chatId : Z) (st : Store) :
  getDocuments chatId st = (orEmpty (st !! chatId), st).
Proof. reflexivity. Qed.

(** [deleteDocument] answers [true] exactly when the name is in the user's
    collection. *)
Lemma deleteDocument_true_iff (chatId : Z) (name : list ascii) (st : Store) :
  fst (deleteDocument chatId name st) = true
  ↔ name ∈ fileName <$> orEmpty (st !! chatId).
Proof.
  rewrite deleteDocument_run. destruct (st !! chatId) as [docs|]; simpl.
  - destruct (findIndex_cases name docs) as [[-> Hnot] | (i & -> & Hfirst)]; simpl.
    + split; [done | by intros ?].
    + destruct (Z.leb_spec 0 (Z.of_nat i)); [|lia]. simpl. split; [|done].
      intros _. destruct Hfirst as [(d & Hd & <-) _].
      apply list_elem_of_fmap. exists d. split; [done|].
      by apply list_elem_of_lookup_2 in Hd.
  - split; [done|]. intros H. by apply elem_of_nil in H.
Qed.

(** C8.  Unknown users and unknown file names are answered, not refused:
    [getDocuments] gives the empty array for an unknown user;
    [deleteDocument] gives [true] exactly when a document of that name was in
    the user's collection, and then the collection has lost the first
    document of that name and nothing else; it gives [false] otherwise, also
    for an unknown user, and then the store is as before; [clearDocuments]
    always gives [true], and the user's count is 0 afterwards. *)
Theorem unknown_user_or_file_is_answered (st : Store) (chatId : Z) (name : list ascii) :
  (st !! chatId = None → getDocuments chatId st = ([], st))
  ∧ (fst (deleteDocument chatId name st) = true
     ↔ ∃ d, d ∈ fst (getDocuments chatId st) ∧ fileName d = name)
  ∧ (fst (deleteDocument chatId name st) = true →
     ∃ docs i, st !! chatId = Some docs ∧ first_named name docs i
       ∧ snd (deleteDocument chatId name st) = <[chatId := delete i docs]> st)
  ∧ (fst (deleteDocument chatId name st) = false →
     snd (deleteDocument chatId name st) = st)
  ∧ (st !! chatId = None → deleteDocument chatId name st = (false, st))
  ∧ fst (clearDocuments chatId st) = true
  ∧ fst (getDocumentCount chatId (snd (clearDocuments chatId st))) = 0.
Proof.
  repeat split.
  - intros Hnone. rewrite getDocuments_run, Hnone. reflexivity.
  - rewrite deleteDocument_true_iff, getDocuments_run. simpl.
    intros Hin. apply list_elem_of_fmap in Hin as (d & -> & Hd). eauto.
  - rewrite deleteDocument_true_iff, getDocuments_run. simpl.
    intros (d & Hd & <-). apply list_elem_of_fmap. eauto.
  - rewrite deleteDocument_run. destruct (st !! chatId) as [docs|]; [|done].
    simpl. destruct (0 <=? _)%Z eqn:Hfound; [|done]. simpl. intros _.
    exists docs, (Z.to_nat (findIndex (hasName name) docs)).
    split; [done|]. split; [|done].
    apply findIndex_found_first_named. lia.
  - rewrite deleteDocument_run. destruct (st !! chatId) as [docs|]; [|done].
    simpl. by destruct (0 <=? _)%Z.
  - intros Hnone. by rewrite deleteDocument_run, Hnone.
  - rewrite getDocumentCount_run. unfold clearDocuments. run_method.
    by rewrite lookup_delete_eq.
Qed.

(** ** Overwriting a document *)

Lemma put_document_existing (doc : Document) (docs : list Document) (i : nat) :
  first_named (fileName doc) docs i → put_document doc docs = <[i := doc]> docs.
Proof.
  intros Hfirst. unfold put_document.
  rewrite (findIndex_first_named _ _ _ Hfirst).
  destruct (Z.leb_spec 0 (Z.of_nat i)); [|lia]. by rewrite Nat2Z.id.
Qed.

Lemma put_document_fresh (doc : Document) (docs : list Document) :
  fileName doc ∉ fileName <$> docs → put_document doc docs = docs ++ [doc].
Proof.
  intros Hnot. unfold put_document.
  by rewrite (proj2 (findIndex_absent _ _) Hnot).
Qed.

(** C6.  [addDocument] under a name the user already has overwrites the slot
    of that document and leaves every other slot and the count as they were;
    after two calls under the same name on a user without documents the
    count is 1 and the one document holds the second content. *)
Theorem addDocument_overwrites_in_place
  (st : Store) (chatId : Z) (name X Y t1 t2 : list ascii) :
  (∀ docs i, st !! chatId = Some docs → first_named name docs i →
     let st' := snd (addDocument chatId name Y t2 st) in
     fst (getDocuments chatId st') = <[i := mkDocument name Y t2]> docs
     ∧ fst (getDocuments chatId st') !! i = Some (mkDocument name Y t2)
     ∧ content (mkDocument name Y t2) = Y
     ∧ fst (getDocumentCount chatId st') = fst (getDocumentCount chatId st)
     ∧ totalDocuments (fst (addDocument chatId name Y t2 st)) = length docs)
  ∧ (fst (getDocumentCount chatId st) = 0 →
     let st1 := snd (addDocument chatId name X t1 st) in
     let st2 := snd (addDocument chatId name Y t2 st1) in
     fst (getDocumentCount chatId st1) = 1
     ∧ fst (getDocumentCount chatId st2) = 1
     ∧ fst (getDocuments chatId st2) = [mkDocument name Y t2]).
Proof.
  split.
  - intros docs i Hget Hfirst st'. subst st'.
    rewrite addDocument_result, addDocument_store, !getDocuments_run,
      !getDocumentCount_run. simpl.
    rewrite lookup_insert_eq, Hget. simpl.
    rewrite (put_document_existing (mkDocument name Y t2) docs i) by done.
    destruct Hfirst as [(d & Hd & _) _].
    rewrite list_lookup_insert_eq by (by eapply lookup_lt_Some).
    by rewrite length_insert.
  - intros Hempty st1 st2. subst st1 st2.
    rewrite getDocumentCount_run in Hempty. simpl in Hempty.
    apply nil_length_inv in Hempty.
    rewrite !addDocument_store, !getDocuments_run, !getDocumentCount_run. simpl.
    rewrite !lookup_insert_eq, Hempty. simpl.
    rewrite (put_document_fresh (mkDocument name X t1) [])
      by (simpl; apply not_elem_of_nil). simpl.
    rewrite (put_document_existing (mkDocument name Y t2) [mkDocument name X t1] 0).
    + done.
    + split; [by eexists | intros; lia].
Qed.

Lemma addDocument_overwrites_in_place_witness :
  let st := snd (addDocument 7 (lit "a.pdf") (lit "X") (lit "t1") newStore) in
  let st' := snd (addDocument 7 (lit "a.pdf") (lit "Y") (lit "t2") st) in
  fst (getDocuments 7 st') !! 0 = Some (mkDocument (lit "a.pdf") (lit "Y") (lit "t2"))
  ∧ fst (getDocumentCount 7 st') = 1.
Proof.
  intros st st'.
  destruct (addDocument_overwrites_in_place st 7 (lit "a.pdf") (lit "X") (lit "Y")
              (lit "t1") (lit "t2")) as [Hgeneral _].
  destruct (Hgeneral [mkDocument (lit "a.pdf") (lit "X") (lit "t1")] 0)
    as (_ & Hslot & _ & Hcount & _).
  - reflexivity.
  - split; [by eexists | intros; lia].
  - split; [exact Hslot | exact Hcount].
Defined.

(** ** Isolation of the collections *)

Lemma searchDocuments_store (engine : RegExp.engine) (chatId : Z) (query : list ascii)
  (st : Store) :
  snd (searchDocuments engine chatId query st) = st.
Proof.
  unfold searchDocuments. run_method.
  by destruct (length (orEmpty (st !! chatId)) =? 0).
Qed.

(** C10.  An operation for user [u] leaves the collection of every other user
    [v] as it was, and the methods that only read leave the whole store as it
    was. *)
Theorem collections_are_isolated (engine : RegExp.engine) (st : Store) (u v : Z) :
  u ≠ v →
  (∀ name text now, snd (addDocument u name text now st) !! v = st !! v)
  ∧ (∀ name, snd (deleteDocument u name st) !! v = st !! v)
  ∧ snd (clearDocuments u st) !! v = st !! v
  ∧ snd (getDocuments u st) = st
  ∧ snd (getDocumentCount u st) = st
  ∧ snd (getDocumentNames u st) = st
  ∧ (∀ query, snd (searchDocuments engine u query st) = st)
  ∧ snd (getAllContent u st) = st.
Proof.
  intros Hne. repeat split.
  - intros name text now. rewrite addDocument_store. by apply lookup_insert_ne.
  - intros name. rewrite deleteDocument_run.
    destruct (st !! u) as [docs|]; [|done]. simpl.
    destruct (0 <=? _)%Z; [|done]. by apply lookup_insert_ne.
  - unfold clearDocuments. run_method. by apply lookup_delete_ne.
  - intros query. apply searchDocuments_store.
Qed.

Lemma collections_are_isolated_witness :
  snd (addDocument 7 (lit "c.pdf") (lit "New text.") (lit "t5") sample_store) !! 8%Z
  = sample_store !! 8%Z
  ∧ snd (clearDocuments 7 sample_store) !! 8%Z = sample_store !! 8%Z.
Proof.
  destruct (collections_are_isolated fragment_only sample_store 7 8)
    as (Hadd & _ & Hclear & _).
  - lia.
  - split; [apply Hadd | exact Hclear].
Defined.

(** ** Never an empty array of chunks *)

(** C4.  [chunkText] never returns an empty array: for the empty text it
    returns the array of the empty string, whatever the two parameters, and
    for every text it returns at least one chunk. *)
Theorem chunkText_never_empty (text : list ascii) (chunkSize overlap : Z) :
  chunkText [] = [[]]
  ∧ chunkText_with [] chunkSize overlap = [[]]
  ∧ chunkText text ≠ []
  ∧ 1 ≤ length (chunkText_with text chunkSize overlap).
Proof.
  repeat split.
  - unfold chunkText_with, chunk_loop, chunk_step. simpl.
    by rewrite andb_false_r.
  - unfold chunkText, chunkText_with. by destruct (chunk_flush _).
  - unfold chunkText_with. destruct (chunk_flush _); simpl; lia.
Qed.

(** ** The ranking of the search results *)

Lemma sort_insert_perm (x : SearchResult) (l : list SearchResult) :
  sort_insert x l ≡ₚ x :: l.
Proof.
  induction l as [|y l IH]; simpl; [done|].
  destruct (0 <? _)%Z; [|done].
  rewrite IH. apply Permutation_swap.
Qed.

Lemma sort_by_score_perm (l : list SearchResult) : sort_by_score l ≡ₚ l.
Proof.
  induction l as [|x l IH]; simpl; [done|].
  rewrite sort_insert_perm. by rewrite IH.
Qed.

Lemma sort_insert_sorted (x : SearchResult) (l : list SearchResult) :
  StronglySorted score_ge l → StronglySorted score_ge (sort_insert x l).
Proof.
  induction 1 as [|y l Hsorted IH Hall]; simpl.
  - repeat constructor.
  - unfold byScoreDescending.
    destruct (Z.ltb_spec 0 (Z.of_nat (score y) - Z.of_nat (score x))) as [Hlt|Hge].
    + constructor; [done|].
      rewrite sort_insert_perm. constructor; [unfold score_ge; lia | done].
    + constructor; [by constructor|].
      constructor; [unfold score_ge; lia|].
      eapply Forall_impl; [exact Hall|]. unfold score_ge. intros z Hz. lia.
Qed.

Lemma sort_by_score_sorted (l : list SearchResult) :
  StronglySorted score_ge (sort_by_score l).
Proof.
  induction l as [|x l IH]; simpl; [constructor | by apply sort_insert_sorted].
Qed.

(** The sort is stable: results of equal score keep their order. *)
Lemma sort_insert_stable (n : nat) (x : SearchResult) (l : list SearchResult) :
  with_score n (sort_insert x l) = with_score n (x :: l).
Proof.
  unfold with_score. induction l as [|y l IH]; simpl; [done|].
  unfold byScoreDescending.
  destruct (Z.ltb_spec 0 (Z.of_nat (score y) - Z.of_nat (score x))) as [Hlt|Hge];
    [|done].
  rewrite filter_cons, IH, !filter_cons.
  repeat case_decide; try done; lia.
Qed.

Lemma sort_by_score_stable (n : nat) (l : list SearchResult) :
  with_score n (sort_by_score l) = with_score n l.
Proof.
  induction l as [|x l IH]; simpl; [done|].
  rewrite sort_insert_stable. unfold with_score in *.
  by rewrite !filter_cons, IH.
Qed.

Lemma search_chunk_returns (engine : RegExp.engine) (queryWords : list (list ascii))
  (doc : Document) (acc results : list SearchResult) (chunk : list ascii) :
  search_chunk engine queryWords doc acc chunk = Returns results →
  results = acc ++ hit engine queryWords doc chunk.
Proof.
  unfold search_chunk, hit. run_completion.
  destruct (calculateRelevance _ _ _) as [n|]; [|done].
  intros [= <-]. destruct (0 <? n); [done | by rewrite app_nil_r].
Qed.

Lemma search_doc_returns (engine : RegExp.engine) (queryWords : list (list ascii))
  (doc : Document) (acc results : list SearchResult) :
  search_doc engine queryWords acc doc = Returns results →
  results = acc ++ concat (hit engine queryWords doc <$> chunks doc).
Proof.
  unfold search_doc. generalize (chunks doc) as cs. intros cs. revert acc.
  induction cs as [|c cs IH]; intros acc; simpl.
  - intros [= <-]. by rewrite app_nil_r.
  - run_completion.
    destruct (search_chunk engine queryWords doc acc c) as [acc'|] eqn:Hc; [|done].
    intros Hrest. apply IH in Hrest as ->.
    apply search_chunk_returns in Hc as ->. by rewrite <- app_assoc.
Qed.

Lemma search_loop_returns (engine : RegExp.engine) (queryWords : list (list ascii))
  (docs : list Document) (acc results : list SearchResult) :
  for_of (search_doc engine queryWords) docs acc = Returns results →
  results = acc ++ encounter_order engine queryWords docs.
Proof.
  unfold encounter_order. revert acc.
  induction docs as [|d docs IH]; intros acc; simpl.
  - intros [= <-]. by rewrite app_nil_r.
  - run_completion.
    destruct (search_doc engine queryWords acc d) as [acc'|] eqn:Hd; [|done].
    intros Hrest. apply IH in Hrest as ->.
    apply search_doc_returns in Hd as ->. by rewrite <- app_assoc.
Qed.

(** The score of a text is returned when every query word compiles. *)
Lemma count_words_compiles (engine : RegExp.engine) (text : list ascii)
  (queryWords : list (list ascii)) (n : nat) :
  Forall (compiles engine) queryWords →
  ∃ m, count_words engine text queryWords n = Returns m.
Proof.
  intros Hall. revert n. induction Hall as [|w ws [p Hp] _ IH]; intros n; simpl.
  - eauto.
  - rewrite Hp. run_completion. apply IH.
Qed.

Lemma calculateRelevance_compiles (engine : RegExp.engine) (text : list ascii)
  (queryWords : list (list ascii)) :
  Forall (compiles engine) queryWords →
  ∃ m, calculateRelevance engine text queryWords = Returns m.
Proof.
  intros Hall. unfold calculateRelevance.
  destruct (count_words_compiles engine text queryWords 0 Hall) as [m ->].
  run_completion. eauto.
Qed.

Lemma search_loop_compiles (engine : RegExp.engine) (queryWords : list (list ascii))
  (docs : list Document) (acc : list SearchResult) :
  Forall (compiles engine) queryWords →
  ∃ results, for_of (search_doc engine queryWords) docs acc = Returns results.
Proof.
  intros Hall. revert acc. induction docs as [|d docs IH]; intros acc; simpl; [eauto|].
  assert (∃ acc', search_doc engine queryWords acc d = Returns acc') as [acc' ->].
  { unfold search_doc. generalize (chunks d) as cs. intros cs. revert acc.
    induction cs as [|c cs IHc]; intros acc; simpl; [eauto|].
    unfold search_chunk at 1.
    destruct (calculateRelevance_compiles engine (toLowerCase c) queryWords Hall)
      as [m ->].
    run_completion. apply IHc. }
  run_completion. apply IH.
Qed.

Lemma elem_of_concat {A} (x : A) (ls : list (list A)) :
  x ∈ concat ls ↔ ∃ l, x ∈ l ∧ l ∈ ls.
Proof.
  rewrite list_elem_of_In, in_concat. split.
  - intros (l & Hl & Hx). exists l. by rewrite !list_elem_of_In.
  - intros (l & Hx & Hl). exists l. by rewrite <- !list_elem_of_In.
Qed.

Lemma hit_sound (engine : RegExp.engine) (queryWords : list (list ascii))
  (doc : Document) (chunk : list ascii) (r : SearchResult) :
  r ∈ hit engine queryWords doc chunk →
  0 < score r ∧ result_fileName r = fileName doc ∧ result_chunk r = chunk
  ∧ calculateRelevance engine (toLowerCase chunk) queryWords = Returns (score r).
Proof.
  unfold hit. destruct (calculateRelevance _ _ _) as [n|] eqn:Hn;
    [|intros Hr; by apply elem_of_nil in Hr].
  destruct (Nat.ltb_spec 0 n) as [Hpos|Hzero];
    [|intros Hr; by apply elem_of_nil in Hr].
  intros ->%list_elem_of_singleton. by simpl.
Qed.

Lemma encounter_order_sound (engine : RegExp.engine) (queryWords : list (list ascii))
  (docs : list Document) (r : SearchResult) :
  r ∈ encounter_order engine queryWords docs →
  0 < score r
  ∧ ∃ doc, doc ∈ docs ∧ result_chunk r ∈ chunks doc
      ∧ result_fileName r = fileName doc
      ∧ calculateRelevance engine (toLowerCase (result_chunk r)) queryWords
        = Returns (score r).
Proof.
  unfold encounter_order. intros Hr.
  apply elem_of_concat in Hr as (per_doc & Hr & Hdoc).
  apply list_elem_of_fmap in Hdoc as (doc & -> & Hdoc).
  apply elem_of_concat in Hr as (per_chunk & Hr & Hchunk).
  apply list_elem_of_fmap in Hchunk as (chunk & -> & Hchunk).
  apply hit_sound in Hr as (Hpos & Hname & Hc & Hscore).
  split; [done|]. exists doc. rewrite Hc. by repeat split.
Qed.

(** C1.  When [searchDocuments] returns, its results are the first 10 of the
    chunks that score above 0, ranked by descending score with equal scores
    in the order of the documents of the collection and of the chunks of a
    document; so every result is a chunk of a document of the user with its
    score, which is above 0, and there are never more than 10.  It returns
    whenever every word of the query compiles. *)
Theorem searchDocuments_ranking (engine : RegExp.engine) (st : Store) (chatId : Z)
  (query : list ascii) :
  let docs := fst (getDocuments chatId st) in
  let found := encounter_order engine (queryWordsOf query) docs in
  (∀ results, fst (searchDocuments engine chatId query st) = Returns results →
     (∃ ranked, results = take 10 ranked
        ∧ ranked ≡ₚ found
        ∧ StronglySorted score_ge ranked
        ∧ ∀ n, with_score n ranked = with_score n found)
     ∧ length results = length found `min` 10
     ∧ StronglySorted score_ge results
     ∧ Forall (λ r, 0 < score r
                 ∧ ∃ doc, doc ∈ docs ∧ result_chunk r ∈ chunks doc
                     ∧ result_fileName r = fileName doc
                     ∧ calculateRelevance engine (toLowerCase (result_chunk r))
                         (queryWordsOf query) = Returns (score r)) results)
  ∧ (Forall (compiles engine) (queryWordsOf query) →
     ∃ results, fst (searchDocuments engine chatId query st) = Returns results).
Proof.
  intros docs found. subst docs found. rewrite getDocuments_run. simpl.
  unfold searchDocuments. run_method.
  set (docs := orEmpty (st !! chatId)). set (words := queryWordsOf query).
  set (found := encounter_order engine words docs).
  assert (∀ results,
    (let* results := for_of (search_doc engine words) docs [] in
     mret (substring0 10 (sort_by_score results))) = Returns results →
    results = take 10 (sort_by_score found)) as Hloop.
  { intros results. run_completion.
    destruct (for_of _ _ _) as [rs|] eqn:Hrs; [|done].
    apply search_loop_returns in Hrs as ->. by intros [= <-]. }
  pose proof (sort_by_score_perm found) as Hperm.
  pose proof (sort_by_score_sorted found) as Hsorted.
  assert (∀ r, r ∈ take 10 (sort_by_score found) → r ∈ found) as Hfound.
  { intros r Hr. rewrite <- Hperm. apply elem_of_take in Hr as (i & Hi & _).
    by apply list_elem_of_lookup_2 in Hi. }
  split.
  - intros results Hresults.
    assert (results = take 10 (sort_by_score found)) as ->.
    { destruct (length docs =? 0) eqn:Hlen; simpl in Hresults.
      - inversion Hresults. subst found.
        apply Nat.eqb_eq, nil_length_inv in Hlen. by rewrite Hlen.
      - by apply Hloop. }
    split; [|split; [|split]].
    + exists (sort_by_score found).
      repeat split; try done. intros n. apply sort_by_score_stable.
    + rewrite length_take, (Permutation_length Hperm). lia.
    + rewrite <- (take_drop 10 (sort_by_score found)) in Hsorted.
      by apply StronglySorted_app_1_l in Hsorted.
    + apply Forall_forall. intros r Hr. apply Hfound in Hr.
      by apply encounter_order_sound in Hr.
  - intros Hall. destruct (length docs =? 0); simpl; [eauto|].
    destruct (search_loop_compiles engine words docs [] Hall) as [rs ->].
    run_completion. eauto.
Qed.

(** The ordering example of the design document: scores 5, 5, 2, 0, 8 in the
    order of the collection come back as 8, 5, 5, 2. *)
Example ranking_of_5_5_2_0_8 :
  fst (searchDocuments fragment_only 1 (lit "ABC def") ranking_store)
  = Returns ranking_results.
Proof. vm_compute. reflexivity. Qed.

Lemma searchDocuments_ranking_witness :
  length ranking_results = 4
  ∧ StronglySorted score_ge ranking_results
  ∧ Forall (λ r, 0 < score r) ranking_results.
Proof.
  destruct (searchDocuments_ranking fragment_only ranking_store 1 (lit "ABC def"))
    as [Hresults _].
  destruct (Hresults ranking_results) as (_ & _ & Hsorted & Hpositive).
  - vm_compute. reflexivity.
  - split; [reflexivity|]. split; [exact Hsorted|].
    eapply Forall_impl; [exact Hpositive|]. by intros r [? _].
Defined.

(** ** The budget of the context *)

Lemma assemble_loop (maxPerDoc : N) (allDocs : list DocContent) (acc : assembly) :
  fold_left (assemble_step maxPerDoc) allDocs acc
  = {| context := context acc
         ++ concat ((λ d, documentHeader (dc_fileName d) ++ docContent maxPerDoc d)
                    <$> allDocs);
       sources := sources acc ++ (dc_fileName <$> allDocs) |}.
Proof.
  revert acc. induction allDocs as [|d ds IH]; intros acc.
  - destruct acc. cbn. by rewrite !app_nil_r.
  - cbn [fold_left]. rewrite IH, !fmap_cons. cbn [concat assemble_step context sources].
    by rewrite <- !app_assoc.
Qed.

Lemma getAllContent_run (chatId : Z) (st : Store) :
  getAllContent chatId st
  = ((λ d, {| dc_fileName := fileName d; dc_content := content d |})
       <$> orEmpty (st !! chatId), st).
Proof. reflexivity. Qed.

Section ContextBudget.

Variable callGemini :
  list ascii → list ascii → list (list ascii) → completion (list ascii).

(** C7.  For a user with at least one document [generateAnswer] gives every
    document the budget [floor(100000 / documentCount)]: the context it hands
    to the model is, in the order of the collection, each document's header
    followed by its content, cut to the budget and followed by the truncation
    marker when it is longer; the marker is two line feeds and
    ["[... document truncated for length ...]"], 41 characters.  The sources
    are all the file names, truncated or not.  With 3 documents of 50000
    characters each body is the first 33333 characters and the marker, 33374
    characters, and the sources are the 3 names. *)
Theorem context_budget (st : Store) (chatId : Z) (question : list ascii) :
  let docs := fst (getDocuments chatId st) in
  1 ≤ length docs →
  let maxPerDoc := (100000 / N.of_nat (length docs))%N in
  let marker := LF :: LF :: lit "[... document truncated for length ...]" in
  let body := λ d : Document,
    if (maxPerDoc <? N.of_nat (length (content d)))%N
    then take (N.to_nat maxPerDoc) (content d) ++ marker
    else content d in
  let ctx := concat ((λ d, documentHeader (fileName d) ++ body d) <$> docs) in
  let names := fileName <$> docs in
  maxTotalContext = 100000%N
  ∧ generateAnswer callGemini chatId question st
    = (let* text := callGemini ctx question names in
       mret {| answer := text; answer_sources := names |}, st)
  ∧ (∀ a, fst (generateAnswer callGemini chatId question st) = Returns a →
       answer_sources a = names)
  ∧ (∀ d1 d2 d3, docs = [d1; d2; d3] →
       Forall (λ d, N.of_nat (length (content d)) = 50000%N) docs →
       maxPerDoc = 33333%N
       ∧ Forall (λ d, body d = take (N.to_nat 33333) (content d) ++ marker
                      ∧ N.of_nat (length (take (N.to_nat 33333) (content d))) = 33333%N
                      ∧ N.of_nat (length (body d)) = 33374%N)
                docs
       ∧ names = [fileName d1; fileName d2; fileName d3]).
Proof.
  intros docs Hcount maxPerDoc marker body ctx names.
  assert (generateAnswer callGemini chatId question st
    = (let* text := callGemini ctx question names in
       mret {| answer := text; answer_sources := names |}, st)) as Hrun.
  { subst ctx names body maxPerDoc. revert Hcount. subst docs.
    rewrite getDocuments_run. cbn [fst]. unfold generateAnswer. run_method.
    generalize (orEmpty (st !! chatId)) as docs.
    intros docs Hcount. rewrite length_fmap.
    destruct (Nat.eqb_spec (length docs) 0) as [Hzero|_]; [lia|].
    unfold assembleContext. rewrite assemble_loop, length_fmap. cbn [context sources].
    rewrite <- !list_fmap_compose. reflexivity. }
  split; [reflexivity|]. split; [exact Hrun|]. split.
  - intros a. rewrite Hrun. cbn [fst]. run_completion.
    destruct (callGemini ctx question names); [|done..]. by intros [= <-].
  - intros d1 d2 d3 Hdocs Hsizes.
    assert (maxPerDoc = 33333%N) as Hbudget by (subst maxPerDoc; by rewrite Hdocs).
    split; [done|]. split; [|subst names; by rewrite Hdocs].
    eapply Forall_impl; [exact Hsizes|]. intros d Hd. subst body.
    cbv beta in Hd |- *.
    rewrite Hbudget, Hd.
    assert (N.of_nat (length (take (N.to_nat 33333) (content d))) = 33333%N) as Htake
      by (rewrite length_take; lia).
    split; [reflexivity|]. split; [exact Htake|].
    change ((33333 <? 50000)%N) with true. cbv iota.
    rewrite length_app, Nat2N.inj_add, Htake. reflexivity.
Qed.

End ContextBudget.

Lemma context_budget_witness :
  fst (generateAnswer (λ context _ _, Returns (drop (length context - 45) context))
         7 (lit "What is it?") long_documents)
  = Returns {| answer := lit "xxxx" ++ LF :: LF
                           :: lit "[... document truncated for length ...]";
               answer_sources := [lit "a.pdf"; lit "b.pdf"; lit "c.pdf"] |}.
Proof.
  destruct (context_budget (λ context _ _, Returns (drop (length context - 45) context))
              long_documents 7 (lit "What is it?")) as (_ & Hrun & _).
  - vm_compute. lia.
  - rewrite Hrun. vm_compute. reflexivity.
Defined.

(** ** The relevance score *)

Lemma toLowerCase_canonicalize (c : ascii) :
  toLowerCaseChar (canonicalize c) = toLowerCaseChar c.
Proof. destruct c as [[] [] [] [] [] [] [] []]; reflexivity. Qed.

Lemma canonicalize_toLowerCase (c : ascii) :
  canonicalize (toLowerCaseChar c) = canonicalize c.
Proof. destruct c as [[] [] [] [] [] [] [] []]; reflexivity. Qed.

(** Under the [i] flag a pattern character matches the lower-cased character
    exactly when the two differ at most in case. *)
Lemma atom_matches_Char (a b : ascii) :
  RegExp.atom_matches (RegExp.Char a) (toLowerCaseChar b) = same_letter a b.
Proof.
  unfold same_letter, ascii_eqb. simpl. unfold ascii_eqb.
  rewrite canonicalize_toLowerCase.
  destruct (Ascii.eqb_spec (canonicalize a) (canonicalize b)) as [Heq|Hne];
    destruct (Ascii.eqb_spec (toLowerCaseChar a) (toLowerCaseChar b)) as [Heq'|Hne'];
    try reflexivity; exfalso.
  - apply Hne'. by rewrite <- (toLowerCase_canonicalize a), Heq, toLowerCase_canonicalize.
  - apply Hne. by rewrite <- (canonicalize_toLowerCase a), Heq', canonicalize_toLowerCase.
Qed.

Lemma quantifier_is_syntax (c : ascii) :
  RegExp.isSyntaxCharacter c = false → RegExp.isQuantifierPrefix c = false.
Proof. destruct c as [[] [] [] [] [] [] [] []]; vm_compute; congruence. Qed.

Lemma atom_of_plain (c : ascii) :
  RegExp.isSyntaxCharacter c = false → RegExp.atom_of c = Some (RegExp.Char c).
Proof.
  unfold RegExp.atom_of. intros Hc. rewrite Hc.
  destruct (ascii_eqb c ".") eqn:Hdot; [|done].
  apply Ascii.eqb_eq in Hdot. subst c. discriminate Hc.
Qed.

(** A plain word is read as the pattern of its characters. *)
Lemma parse_plain (word : list ascii) :
  plain_word word → RegExp.parse word = RegExp.Fragment (RegExp.Char <$> word).
Proof.
  induction 1 as [|c rest Hc Hrest IH]; [done|].
  cbn [RegExp.parse]. rewrite (quantifier_is_syntax c Hc), (atom_of_plain c Hc).
  destruct rest as [|q rest']; [done|].
  inversion Hrest as [|? ? Hq _]; subst.
  rewrite (quantifier_is_syntax q Hq), IH. reflexivity.
Qed.

(** A plain word compiles to the pattern of its characters, whatever lies
    outside the fragment. *)
Lemma compile_plain (engine : RegExp.engine) (word : list ascii) :
  plain_word word →
  RegExp.compile engine word = Returns (RegExp.Pattern (RegExp.Char <$> word)).
Proof. intros Hplain. unfold RegExp.compile. by rewrite parse_plain. Qed.

Lemma match_here_plain (word text : list ascii) :
  RegExp.match_here (RegExp.Char <$> word) (toLowerCase text)
  = if occurs_here word text then Some (length word) else None.
Proof.
  revert text. induction word as [|a word IH]; intros text; [done|].
  destruct text as [|b text]; [done|].
  cbn [fmap list_fmap toLowerCase map RegExp.match_here occurs_here length].
  rewrite atom_matches_Char. destruct (same_letter a b); [|done].
  change (map toLowerCaseChar text) with (toLowerCase text).
  rewrite IH. simpl. by destruct (occurs_here word text).
Qed.

Lemma match_count_plain (word : list ascii) (skip : nat) (text : list ascii) :
  word ≠ [] →
  RegExp.match_count_from (RegExp.Char <$> word) skip (toLowerCase text)
  = occurrences_from word skip text.
Proof.
  intros Hword. revert skip. induction text as [|b text IH]; intros skip.
  - destruct word; [done|]. by destruct skip.
  - cbn [toLowerCase map RegExp.match_count_from occurrences_from].
    change (map toLowerCaseChar text) with (toLowerCase text).
    destruct skip as [|k]; [|apply IH].
    change (toLowerCaseChar b :: toLowerCase text) with (toLowerCase (b :: text)).
    rewrite match_here_plain.
    destruct (occurs_here word (b :: text)).
    + rewrite IH. by rewrite Nat.sub_1_r.
    + apply IH.
Qed.

Lemma count_words_plain (engine : RegExp.engine) (chunk : list ascii)
  (queryWords : list (list ascii)) (n : nat) :
  Forall (λ word, plain_word word ∧ 2 < length word) queryWords →
  count_words engine (toLowerCase chunk) queryWords n
  = Returns (n + sum_list_with (λ word, occurrences word chunk) queryWords).
Proof.
  intros Hwords. revert n.
  induction Hwords as [|word rest [Hplain Hlong] _ IH]; intros n; simpl.
  - by rewrite Nat.add_0_r.
  - rewrite (compile_plain engine word Hplain). run_completion.
    rewrite IH. unfold RegExp.match_count, occurrences.
    rewrite match_count_plain by (intros ->; simpl in Hlong; lia).
    by rewrite Nat.add_assoc.
Qed.

(** For words without a syntax character the score is the one the design
    document states: the occurrences of each word, case ignored, and the
    bonus for the phrase. *)
Lemma relevance_of_plain_words (engine : RegExp.engine) (chunk : list ascii)
  (queryWords : list (list ascii)) :
  Forall (λ word, plain_word word ∧ 2 < length word) queryWords →
  calculateRelevance engine (toLowerCase chunk) queryWords
  = Returns (stated_score chunk queryWords).
Proof.
  intros Hwords. unfold calculateRelevance, stated_score, phrase_bonus.
  rewrite (count_words_plain engine chunk queryWords 0 Hwords). run_completion. simpl.
  destruct (includes _ _); [done | by rewrite Nat.add_0_r].
Qed.

(** ** Strings: searching, trimming, splitting *)

Lemma startsWith_prefix (s p : list ascii) :
  startsWith s p = true ↔ p `prefix_of` s.
Proof.
  revert s. induction p as [|a p IH]; intros s; simpl.
  - split; [intros _; apply prefix_nil | done].
  - destruct s as [|b s].
    + split; [done|]. intros [k Hk]. discriminate Hk.
    + unfold ascii_eqb. rewrite andb_true_iff, IH, Ascii.eqb_eq. split.
      * intros [-> Hp]. by apply prefix_cons.
      * intros Hp. split; [by apply prefix_cons_inv_1 in Hp | by apply prefix_cons_inv_2 in Hp].
Qed.

Lemma includes_infix (s p : list ascii) : includes s p = true ↔ infix p s.
Proof.
  induction s as [|c s IH]; simpl.
  - rewrite orb_false_r, startsWith_prefix. split.
    + intros [k Hk]. exists [], k. done.
    + intros (a & b & Hs). symmetry in Hs.
      apply app_eq_nil in Hs as [-> Hs]. apply app_eq_nil in Hs as [-> ->].
      apply prefix_nil.
  - rewrite orb_true_iff, startsWith_prefix, IH. split.
    + intros [[k Hk] | (a & b & Hs)].
      * exists [], k. done.
      * exists (c :: a), b. by rewrite Hs.
    + intros ([|x a] & b & Hs); simpl in Hs.
      * left. by exists b.
      * right. inversion Hs; subst. by exists a, b.
Qed.

Lemma infix_refl (s : list ascii) : infix s s.
Proof. exists [], []. by rewrite app_nil_r. Qed.

Lemma infix_nil (s : list ascii) : infix [] s.
Proof. by exists [], s. Qed.

Lemma infix_app (u s a b : list ascii) : infix u s → infix u (a ++ s ++ b).
Proof.
  intros (x & y & ->). exists (a ++ x), (y ++ b). by rewrite <- !app_assoc.
Qed.

Lemma infix_app_l (u s b : list ascii) : infix u s → infix u (s ++ b).
Proof. intros H. by apply (infix_app u s [] b). Qed.

Lemma infix_app_r (u s a : list ascii) : infix u s → infix u (a ++ s).
Proof. intros H. apply (infix_app u s a []) in H. by rewrite app_nil_r in H. Qed.

(** *** [trim] *)

Lemma trimStart_blank (s : list ascii) : blank s → trimStart s = [].
Proof. induction 1 as [|c s Hc _ IH]; simpl; [done | by rewrite Hc]. Qed.

Lemma trimStart_nil_blank (s : list ascii) : trimStart s = [] → blank s.
Proof.
  induction s as [|c s IH]; simpl; [constructor|].
  destruct (isWhiteSpace c) eqn:Hc; [|done]. intros H. constructor; [done | by apply IH].
Qed.

Lemma trimStart_app_solid (a : list ascii) (x : ascii) (r : list ascii) :
  isWhiteSpace x = false → trimStart (a ++ x :: r) = trimStart a ++ x :: r.
Proof.
  intros Hx. induction a as [|c a IH]; simpl; [by rewrite Hx|].
  by destruct (isWhiteSpace c).
Qed.

Lemma trimStart_app_blank (a b : list ascii) :
  blank a → trimStart (a ++ b) = trimStart b.
Proof. induction 1 as [|c a Hc _ IH]; simpl; [done | by rewrite Hc]. Qed.

Lemma trimStart_head (s : list ascii) :
  trimStart s = [] ∨ ∃ x r, trimStart s = x :: r ∧ isWhiteSpace x = false.
Proof.
  induction s as [|c s IH]; simpl; [by left|].
  destruct (isWhiteSpace c) eqn:Hc; [done|]. right. eauto.
Qed.

Lemma trimStart_split (s : list ascii) :
  ∃ ws, blank ws ∧ s = ws ++ trimStart s.
Proof.
  induction s as [|c s (ws & Hws & IH)]; simpl.
  - exists []. split; [constructor | done].
  - destruct (isWhiteSpace c) eqn:Hc.
    + exists (c :: ws). split; [by constructor | simpl; by rewrite <- IH].
    + exists []. split; [constructor | done].
Qed.

Lemma trimEnd_app_solid (a : list ascii) (y : ascii) (z : list ascii) :
  isWhiteSpace y = false → trimEnd (a ++ y :: z) = a ++ y :: trimEnd z.
Proof.
  intros Hy. unfold trimEnd.
  rewrite rev_app_distr. simpl. rewrite <- app_assoc. simpl.
  rewrite trimStart_app_solid by done.
  rewrite rev_app_distr. simpl. rewrite rev_involutive, <- app_assoc. done.
Qed.

Lemma trimEnd_cons_solid (x : ascii) (r : list ascii) :
  isWhiteSpace x = false → trimEnd (x :: r) = x :: trimEnd r.
Proof. intros Hx. by apply (trimEnd_app_solid [] x r). Qed.

Lemma trimEnd_blank (s : list ascii) : blank s → trimEnd s = [].
Proof.
  intros Hs. unfold trimEnd. rewrite trimStart_blank; [done|].
  unfold blank in *. rewrite Forall_forall in *. intros c Hc.
  apply Hs. by apply list_elem_of_In, in_rev, list_elem_of_In.
Qed.

Lemma trimEnd_last (s : list ascii) : trimEnd s = [] ∨ ends_solid (trimEnd s).
Proof.
  unfold trimEnd.
  destruct (trimStart_head (rev s)) as [-> | (x & r & -> & Hx)]; [by left|].
  right. exists x. simpl. by rewrite last_snoc.
Qed.

Lemma ends_solid_snoc (s : list ascii) :
  ends_solid s ↔ ∃ r y, s = r ++ [y] ∧ isWhiteSpace y = false.
Proof.
  split.
  - intros (y & Hlast & Hy). apply last_Some in Hlast as [r ->]. eauto.
  - intros (r & y & -> & Hy). exists y. by rewrite last_snoc.
Qed.

(** A string that ends with a solid character is trimmed at its start only,
    also when more text follows it. *)
Lemma trim_app_solid (j z : list ascii) :
  ends_solid j → trim (j ++ z) = trimStart j ++ trimEnd z.
Proof.
  intros (r & y & -> & Hy)%ends_solid_snoc. unfold trim.
  rewrite <- app_assoc. simpl.
  rewrite !trimStart_app_solid by done.
  by rewrite trimEnd_app_solid, <- app_assoc.
Qed.

Lemma trim_solid (s : list ascii) : ends_solid s → trim s = trimStart s.
Proof.
  intros Hs. rewrite <- (app_nil_r s) at 1.
  rewrite trim_app_solid by done. by rewrite app_nil_r.
Qed.

Lemma trim_tight (s : list ascii) : tight (trim s).
Proof.
  unfold trim.
  destruct (trimStart_head s) as [-> | (x & r & -> & Hx)]; [by left|].
  right. split; [rewrite trimEnd_cons_solid by done; eauto|].
  destruct (trimEnd_last (x :: r)) as [Hnil | Hsolid]; [|done].
  by rewrite trimEnd_cons_solid in Hnil.
Qed.

Lemma trim_nil_blank (s : list ascii) : trim s = [] → blank s.
Proof.
  unfold trim. intros Hs. apply trimStart_nil_blank.
  destruct (trimStart_head s) as [-> | (x & r & Hxr & Hx)]; [done|].
  rewrite Hxr in Hs. by rewrite trimEnd_cons_solid in Hs.
Qed.

(** A tight string that stands in [s] stands in [trim s]. *)
Lemma infix_trim (u s : list ascii) : tight u → infix u s → infix u (trim s).
Proof.
  intros [-> | [(x & r & Hhead & Hx) Hend]] (a & b & ->); [apply infix_nil|].
  apply ends_solid_snoc in Hend as (r' & y & Hlast & Hy).
  exists (trimStart a), (trimEnd b). unfold trim.
  assert (trimStart (a ++ u ++ b) = trimStart a ++ u ++ b) as ->.
  { rewrite Hhead. simpl. by apply trimStart_app_solid. }
  rewrite Hlast, <- !app_assoc. simpl. rewrite !app_assoc.
  by apply trimEnd_app_solid.
Qed.

Lemma tight_blank_nil (u : list ascii) : tight u → blank u → u = [].
Proof.
  intros [-> | [(x & r & -> & Hx) _]] Hblank; [done|].
  inversion Hblank as [|? ? Hx' _]; subst. congruence.
Qed.

Lemma blank_infix (u s : list ascii) : blank s → infix u s → blank u.
Proof.
  intros Hs (a & b & ->). unfold blank in *.
  apply Forall_app in Hs as [_ Hs]. by apply Forall_app in Hs as [Hs _].
Qed.

(** ** The chunker *)

Section Chunker.

Context (chunkSize overlap : Z).

Lemma chunk_step_cases (st : chunker) (s : list ascii) :
  let cur := currentChunk st in
  (currentChunk st ≠ [] ∧ (chunkSize < Z.of_nat (length (cur ++ s)))%Z
   ∧ chunk_step chunkSize overlap st s
     = {| chunks_out := chunks_out st ++ [trim cur];
          currentChunk := overlapText overlap cur ++ space ++ s |})
  ∨ ((cur = [] ∨ (Z.of_nat (length (cur ++ s)) <= chunkSize)%Z)
     ∧ chunk_step chunkSize overlap st s
       = {| chunks_out := chunks_out st;
            currentChunk := cur ++ (if 0 <? length cur then space else []) ++ s |}).
Proof.
  intros cur. unfold chunk_step. fold cur.
  destruct (Z.ltb_spec chunkSize (Z.of_nat (length (cur ++ s)))) as [Hbig|Hsmall];
    destruct (Nat.ltb_spec 0 (length cur)) as [Hcur|Hcur]; simpl.
  - left. split; [|done]. subst cur. intros Hnil. rewrite Hnil in Hcur. simpl in Hcur. lia.
  - right. split; [|done]. left. apply nil_length_inv. lia.
  - right. split; [|done]. by right.
  - right. split; [|done]. by right.
Qed.

Lemma chunk_loop_app (st : chunker) (l1 l2 : list (list ascii)) :
  chunk_loop chunkSize overlap st (l1 ++ l2)
  = chunk_loop chunkSize overlap (chunk_loop chunkSize overlap st l1) l2.
Proof. unfold chunk_loop. apply fold_left_app. Qed.

(** *** Every sentence is in a chunk *)

Lemma covered_step (st : chunker) (s s0 : list ascii) :
  covered st s0 → covered (chunk_step chunkSize overlap st s) s0.
Proof.
  intros Hcov.
  destruct (chunk_step_cases st s) as [(_ & _ & ->) | (_ & ->)].
  - left. destruct Hcov as [(c & Hc & Hin) | Hin].
    + exists c. split; [|done]. simpl. apply elem_of_app. by left.
    + exists (trim (currentChunk st)). split.
      * simpl. apply elem_of_app. right. by apply list_elem_of_singleton.
      * apply infix_trim; [apply trim_tight | done].
  - destruct Hcov as [Hold | Hin]; [by left|].
    right. cbn [currentChunk]. by apply infix_app_l.
Qed.

Lemma covered_new (st : chunker) (s : list ascii) :
  covered (chunk_step chunkSize overlap st s) s.
Proof.
  assert (infix (trim s) s) as Hs.
  { unfold trim. destruct (trimStart_split s) as (ws & _ & Hws).
    unfold trimEnd.
    destruct (trimStart_split (rev (trimStart s))) as (ws' & _ & Hws').
    exists ws, (rev ws'). rewrite Hws at 1. f_equal.
    rewrite <- rev_app_distr, <- Hws'. by rewrite rev_involutive. }
  right.
  destruct (chunk_step_cases st s) as [(_ & _ & ->) | (_ & ->)];
    cbn [currentChunk]; by do 2 apply infix_app_r.
Qed.

Lemma covered_loop (st : chunker) (l : list (list ascii)) (s : list ascii) :
  covered st s ∨ s ∈ l → covered (chunk_loop chunkSize overlap st l) s.
Proof.
  revert st. induction l as [|s' l IH]; intros st [Hcov | Hin]; simpl.
  - done.
  - by apply elem_of_nil in Hin.
  - apply IH. left. by apply covered_step.
  - apply IH. apply elem_of_cons in Hin as [-> | Hin]; [|by right].
    left. apply covered_new.
Qed.

Lemma covered_flush (st : chunker) (s : list ascii) :
  covered st s →
  (∃ c, c ∈ chunk_flush st ∧ infix (trim s) c) ∨ trim s = [].
Proof.
  unfold chunk_flush. intros [(c & Hc & Hin) | Hin].
  - left. exists c. split; [|done].
    destruct (trim (currentChunk st)); [done|]. apply elem_of_app. by left.
  - destruct (trim (currentChunk st)) as [|x r] eqn:Hcur.
    + right. apply tight_blank_nil; [apply trim_tight|].
      eapply blank_infix; [|exact Hin]. by apply trim_nil_blank.
    + left. exists (x :: r). split.
      * apply elem_of_app. right. by apply list_elem_of_singleton.
      * rewrite <- Hcur. apply infix_trim; [apply trim_tight | done].
Qed.

(** The sentences of a text, trimmed, all stand in chunks of the text. *)
Lemma chunkText_covers (text s : list ascii) :
  s ∈ split_sentences text →
  ∃ c, c ∈ chunkText_with text chunkSize overlap ∧ infix (trim s) c.
Proof.
  intros Hs. unfold chunkText_with.
  set (st := chunk_loop _ _ _ _).
  assert (covered st s) as Hcov by (apply covered_loop; by right).
  apply covered_flush in Hcov as [(c & Hc & Hin) | Hnil].
  - exists c. split; [|done].
    destruct (chunk_flush st); [by apply elem_of_nil in Hc | done].
  - rewrite Hnil. destruct (chunk_flush st) as [|c cs].
    + exists text. split; [by apply list_elem_of_singleton | apply infix_nil].
    + exists c. split; [by left | apply infix_nil].
Qed.

(** *** A sentence behind other text *)

Lemma trim_suffix (p s : list ascii) :
  trim s ≠ [] → trim s `suffix_of` trim (p ++ s).
Proof.
  unfold trim. intros Hs.
  destruct (trimStart_split s) as (ws & Hws & Hsplit).
  destruct (trimStart_head s) as [Hnil | (x & r & Hxr & Hx)].
  { rewrite Hnil in Hs. by rewrite trimEnd_blank in Hs by constructor. }
  rewrite Hxr in *. rewrite Hsplit, app_assoc.
  rewrite trimStart_app_solid by done.
  rewrite trimEnd_app_solid, trimEnd_cons_solid by done.
  by apply suffix_app_r.
Qed.

End Chunker.

(** *** Words: [split(' ')], [slice(-k)], [join(' ')] *)

Lemma slice_from_negative {A} (k : Z) (l : list A) :
  (1 <= k)%Z → slice_from (- k) l = lastn (Z.to_nat k) l.
Proof.
  intros Hk. unfold slice_from, lastn.
  destruct (Z.ltb_spec (- k) 0); [|lia]. f_equal. lia.
Qed.

Lemma lastn_cons {A} (k : nat) (x : A) (l : list A) :
  lastn k (x :: l) = if k <=? length l then lastn k l else x :: l.
Proof.
  unfold lastn. destruct (Nat.leb_spec k (length l)) as [Hle|Hgt]; simpl.
  - by replace (S (length l) - k) with (S (length l - k)) by lia.
  - by replace (S (length l) - k) with 0 by lia.
Qed.

Lemma lastn_all {A} (k : nat) (l : list A) : length l ≤ k → lastn k l = l.
Proof. intros Hk. unfold lastn. by replace (length l - k) with 0 by lia. Qed.

Lemma split_space_cons (s : list ascii) : ∃ w ws, split_space s = w :: ws.
Proof.
  induction s as [|c s (w & ws & IH)]; simpl; [eauto|].
  destruct (ascii_eqb c " "); [eauto|]. rewrite IH. simpl. eauto.
Qed.

Lemma join_cons_head (c : ascii) (w : list ascii) (ws : list (list ascii)) :
  join space ((c :: w) :: ws) = c :: join space (w :: ws).
Proof. by destruct ws. Qed.

Lemma join_cons_nil (w : list ascii) (ws : list (list ascii)) :
  join space ([] :: w :: ws) = " "%char :: join space (w :: ws).
Proof. reflexivity. Qed.

Lemma space_is_white (c : ascii) : ascii_eqb c " " = true → isWhiteSpace c = true.
Proof. intros Hc. apply Ascii.eqb_eq in Hc. by subst c. Qed.

(** The words kept from a buffer end with the last character of the buffer,
    when that is not a space. *)
Lemma overlap_last (k : nat) (buffer : list ascii) (y : ascii) :
  1 ≤ k → last buffer = Some y → ascii_eqb y " " = false →
  last (join space (lastn k (split_space buffer))) = Some y.
Proof.
  intros Hk Hlast Hy. revert k Hk.
  induction buffer as [|c rest IH]; intros k Hk; [done|].
  rewrite last_cons in Hlast.
  destruct (split_space_cons rest) as (w & ws & Hsplit).
  cbn [split_space]. rewrite Hsplit.
  destruct (last rest) as [y'|] eqn:Hrest.
  - inversion Hlast; subst y'. specialize (IH eq_refl). rewrite Hsplit in IH.
    assert (last (join space (w :: ws)) = Some y) as Hwhole.
    { rewrite <- (lastn_all (length (w :: ws)) (w :: ws)) by done.
      apply IH. simpl. lia. }
    destruct (ascii_eqb c " ").
    + rewrite lastn_cons. destruct (k <=? length (w :: ws)); [by apply IH|].
      by rewrite join_cons_nil, last_cons, Hwhole.
    + cbn [cons_head]. rewrite lastn_cons.
      destruct (Nat.leb_spec k (length ws)) as [Hle|Hgt].
      * specialize (IH k Hk). rewrite lastn_cons in IH.
        by destruct (Nat.leb_spec k (length ws)); [|lia].
      * by rewrite join_cons_head, last_cons, Hwhole.
  - apply last_None in Hrest. subst rest. inversion Hlast; subst c.
    simpl in Hsplit. inversion Hsplit; subst. rewrite Hy. cbn [cons_head].
    by rewrite lastn_all by (simpl; lia).
Qed.

(** White space in front of a buffer changes the words kept from it at most
    by white space in front of them. *)
Lemma overlap_skips_white (k : nat) (c : ascii) (buffer : list ascii) :
  1 ≤ k → isWhiteSpace c = true →
  trimStart (join space (lastn k (split_space (c :: buffer))))
  = trimStart (join space (lastn k (split_space buffer))).
Proof.
  intros Hk Hc. cbn [split_space].
  destruct (split_space_cons buffer) as (w & ws & ->).
  destruct (ascii_eqb c " ") eqn:Hspace.
  - rewrite lastn_cons. destruct (Nat.leb_spec k (length (w :: ws))) as [Hle|Hgt]; [done|].
    rewrite join_cons_nil, lastn_all by lia. done.
  - cbn [cons_head]. rewrite !lastn_cons.
    destruct (Nat.leb_spec k (length ws)) as [Hle|Hgt]; [done|].
    rewrite join_cons_head. simpl. by rewrite Hc.
Qed.

Lemma overlap_skips_blank (k : nat) (ws buffer : list ascii) :
  1 ≤ k → blank ws →
  trimStart (join space (lastn k (split_space (ws ++ buffer))))
  = trimStart (join space (lastn k (split_space buffer))).
Proof.
  intros Hk. induction 1 as [|c ws Hc _ IH]; [done|].
  rewrite <- IH. by apply overlap_skips_white.
Qed.

(** *** The sentences of a text *)

Lemma sentence_end_solid (c : ascii) : isSentenceEnd c = true → isWhiteSpace c = false.
Proof. destruct c as [[] [] [] [] [] [] [] []]; vm_compute; congruence. Qed.

Lemma ends_sentence_solid (s : list ascii) : ends_sentence s → ends_solid s.
Proof. intros (y & Hlast & Hy). exists y. split; [done | by apply sentence_end_solid]. Qed.

Lemma ends_sentence_cons (c : ascii) (s : list ascii) :
  ends_sentence s → ends_sentence (c :: s).
Proof.
  intros (y & Hlast & Hy). exists y. split; [|done].
  by rewrite last_cons, Hlast.
Qed.

Lemma ends_sentence_app (a s : list ascii) : ends_sentence s → ends_sentence (a ++ s).
Proof.
  intros Hs. induction a as [|c a IH]; [done|]. simpl. by apply ends_sentence_cons.
Qed.

(** All pieces of a split into sentences but the last end a sentence.  For
    the split in progress the piece in front is the rest of a piece whose
    last character [afterEnd] describes. *)
Lemma split_sentences_from_closed (afterEnd gap : bool) (s : list ascii) :
  ∃ p ps, split_sentences_from afterEnd gap s = p :: ps
    ∧ (ps = []
       ∨ (ends_sentence p ∨ p = [] ∧ afterEnd = true) ∧ closed_pieces ps).
Proof.
  revert afterEnd gap. induction s as [|c s IH]; intros afterEnd gap; simpl.
  { exists [], []. split; [done | by left]. }
  destruct (isWhiteSpace c) eqn:Hc.
  - destruct gap.
    + destruct (IH false true) as (p & ps & -> & Hps).
      exists p, ps. split; [done|].
      destruct Hps as [-> | [[Hp | [_ ?]] Hclosed]]; [by left | | done].
      right. split; [by left | done].
    + destruct afterEnd.
      * destruct (IH false true) as (p & ps & -> & Hps).
        exists [], (p :: ps). split; [done|]. right. split; [by right|].
        destruct Hps as [-> | [[Hp | [_ ?]] Hclosed]]; [constructor | | done].
        destruct ps as [|q ps]; [constructor | by constructor].
      * destruct (IH false false) as (p & ps & -> & Hps).
        exists (c :: p), ps. split; [done|].
        destruct Hps as [-> | [[Hp | [_ ?]] Hclosed]]; [by left | | done].
        right. split; [left; by apply ends_sentence_cons | done].
  - destruct (IH (isSentenceEnd c) false) as (p & ps & -> & Hps).
    exists (c :: p), ps. split; [done|].
    destruct Hps as [-> | [[Hp | [-> Hend]] Hclosed]]; [by left | |].
    + right. split; [left; by apply ends_sentence_cons | done].
    + right. split; [|done]. left. by exists c.
Qed.

Lemma split_sentences_closed (text : list ascii) :
  closed_pieces (split_sentences text).
Proof.
  unfold split_sentences.
  destruct (split_sentences_from_closed false false text) as (p & ps & -> & Hps).
  destruct Hps as [-> | [[Hp | [_ ?]] Hclosed]]; [constructor | | done].
  destruct ps as [|q ps]; [constructor | by constructor].
Qed.

(** Every piece of a split into sentences but the first begins with a solid
    character, or is the empty last piece; so does the first piece of a split
    in progress within a separator. *)
Lemma split_sentences_from_heads (afterEnd gap : bool) (s : list ascii) :
  ∃ p ps, split_sentences_from afterEnd gap s = p :: ps
    ∧ Forall starts_solid ps ∧ (gap = true → starts_solid p).
Proof.
  revert afterEnd gap. induction s as [|c s IH]; intros afterEnd gap; simpl.
  { exists [], []. split; [done|]. split; [constructor | by left]. }
  destruct (isWhiteSpace c) eqn:Hc.
  - destruct gap.
    + destruct (IH false true) as (p & ps & -> & Hps & Hp). eauto.
    + destruct afterEnd.
      * destruct (IH false true) as (p & ps & -> & Hps & Hp).
        exists [], (p :: ps). split; [done|]. split; [|done].
        constructor; [by apply Hp | done].
      * destruct (IH false false) as (p & ps & -> & Hps & _).
        exists (c :: p), ps. by repeat split.
  - destruct (IH (isSentenceEnd c) false) as (p & ps & -> & Hps & _).
    exists (c :: p), ps. split; [done|]. split; [done|].
    intros _. right. eauto.
Qed.

Lemma closed_pieces_inner (l1 l2 : list (list ascii)) (s : list ascii) :
  closed_pieces (l1 ++ s :: l2) → l2 ≠ [] → ends_sentence s.
Proof.
  intros Hclosed Hl2. induction l1 as [|p l1 IH]; simpl in Hclosed.
  - inversion Hclosed; subst; done.
  - apply IH. inversion Hclosed as [q Heq | q r rs _ Hrest Heq].
    + by destruct l1.
    + done.
Qed.

Lemma trim_tight_id (s : list ascii) : tight s → trim s = s.
Proof.
  intros [-> | [(x & r & -> & Hx) Hend]]; [done|].
  rewrite trim_solid by done. simpl. by rewrite Hx.
Qed.

(** A sentence that is neither the first nor the last of its text has no
    white space at its ends. *)
Lemma inner_sentence_tight (text : list ascii) (l1 l2 : list (list ascii))
  (s : list ascii) :
  split_sentences text = l1 ++ s :: l2 → l1 ≠ [] → l2 ≠ [] → tight s.
Proof.
  intros Hsplit Hl1 Hl2.
  assert (ends_sentence s) as Hend.
  { eapply closed_pieces_inner; [|exact Hl2].
    rewrite <- Hsplit. apply split_sentences_closed. }
  assert (starts_solid s) as Hstart.
  { unfold split_sentences in Hsplit.
    destruct (split_sentences_from_heads false false text) as (p & ps & Heq & Hps & _).
    rewrite Heq in Hsplit. destruct l1 as [|q l1]; [done|].
    simpl in Hsplit. inversion Hsplit; subst.
    rewrite Forall_forall in Hps. apply Hps, elem_of_app. right. by left. }
  right. split; [|by apply ends_sentence_solid].
  destruct Hstart as [-> | Hstart]; [|done].
  destruct Hend as (y & Hlast & _). done.
Qed.

(** *** The overlap between adjacent chunks *)

Section Overlap.

Context (chunkSize overlap : Z) (Hoverlap : (1 <= overlap / 10)%Z).

Lemma overlapText_lastn (buffer : list ascii) :
  overlapText overlap buffer
  = join space (lastn (Z.to_nat (overlap / 10)) (split_space buffer)).
Proof. unfold overlapText. by rewrite slice_from_negative. Qed.

Lemma overlapText_solid (buffer : list ascii) :
  ends_solid buffer → ends_solid (overlapText overlap buffer).
Proof.
  intros (y & Hlast & Hy). exists y. split; [|done].
  rewrite overlapText_lastn. apply overlap_last; [lia | done |].
  destruct (ascii_eqb y " ") eqn:Hspace; [|done].
  apply space_is_white in Hspace. congruence.
Qed.

(** The words kept from a closed buffer and from the chunk pushed for it are
    the same up to white space in front. *)
Lemma kept_words_trim (buffer : list ascii) :
  ends_solid buffer → kept_words overlap (trim buffer) = kept_words overlap buffer.
Proof.
  intros Hsolid. unfold kept_words. rewrite trim_solid by done.
  destruct (trimStart_split buffer) as (ws & Hws & Hsplit).
  rewrite Hsplit at 2. rewrite !overlapText_lastn.
  symmetry. apply overlap_skips_blank; [lia | done].
Qed.

Lemma continues_close (st : chunker) (s : list ascii) :
  ends_solid (currentChunk st) →
  continues overlap
    {| chunks_out := chunks_out st ++ [trim (currentChunk st)];
       currentChunk := overlapText overlap (currentChunk st) ++ space ++ s |}.
Proof.
  intros Hsolid c Hc more. cbn [chunks_out currentChunk] in *.
  rewrite last_snoc in Hc. inversion Hc; subst c.
  rewrite kept_words_trim by done. unfold kept_words.
  rewrite <- app_assoc, trim_app_solid by (by apply overlapText_solid).
  by apply prefix_app_r.
Qed.

Lemma chained_snoc (cs : list (list ascii)) (c : list ascii) :
  chained overlap cs →
  (∀ c0, last cs = Some c0 → kept_words overlap c0 `prefix_of` c) →
  chained overlap (cs ++ [c]).
Proof.
  intros Hcs Hlast pre c1 c2 post Heq.
  destruct (decide (post = [])) as [-> | Hpost].
  - replace (pre ++ [c1; c2]) with ((pre ++ [c1]) ++ [c2]) in Heq
      by (by rewrite <- app_assoc).
    apply app_inj_tail in Heq as [-> ->].
    apply Hlast. by rewrite last_snoc.
  - destruct (exists_last Hpost) as (post' & x & ->).
    replace (pre ++ c1 :: c2 :: post' ++ [x]) with ((pre ++ c1 :: c2 :: post') ++ [x])
      in Heq by (by rewrite <- app_assoc).
    apply app_inj_tail in Heq as [-> _]. by eapply Hcs.
Qed.

(** One turn of the loop keeps the chain, whatever the sentence. *)
Lemma chunk_step_chained (st : chunker) (s : list ascii) :
  chained overlap (chunks_out st) → continues overlap st →
  currentChunk st = [] ∨ ends_solid (currentChunk st) →
  chained overlap (chunks_out (chunk_step chunkSize overlap st s))
  ∧ continues overlap (chunk_step chunkSize overlap st s).
Proof.
  intros Hchain Hcont Hcur.
  destruct (chunk_step_cases chunkSize overlap st s) as [(Hne & _ & ->) | (_ & ->)].
  - destruct Hcur as [Hnil | Hsolid]; [done|]. split.
    + cbn [chunks_out]. apply chained_snoc; [done|].
      intros c0 Hc0. specialize (Hcont c0 Hc0 []). by rewrite app_nil_r in Hcont.
    + by apply continues_close.
  - split; [done|]. intros c Hc more. cbn [chunks_out currentChunk] in *.
    rewrite <- !app_assoc. by apply Hcont.
Qed.

Lemma chunk_step_solid (st : chunker) (s : list ascii) :
  ends_sentence s →
  ends_solid (currentChunk (chunk_step chunkSize overlap st s)).
Proof.
  intros Hs. apply ends_sentence_solid.
  destruct (chunk_step_cases chunkSize overlap st s) as [(_ & _ & ->) | (_ & ->)];
    cbn [currentChunk]; by do 2 apply ends_sentence_app.
Qed.

Lemma chunk_loop_chained (st : chunker) (sentences : list (list ascii)) :
  closed_pieces sentences →
  chained overlap (chunks_out st) → continues overlap st →
  currentChunk st = [] ∨ ends_solid (currentChunk st) →
  chained overlap (chunks_out (chunk_loop chunkSize overlap st sentences))
  ∧ continues overlap (chunk_loop chunkSize overlap st sentences).
Proof.
  intros Hclosed. revert st.
  induction Hclosed as [s | s q ps Hs _ IH]; intros st Hchain Hcont Hcur.
  - simpl. by apply chunk_step_chained.
  - change (chunk_loop chunkSize overlap st (s :: q :: ps))
      with (chunk_loop chunkSize overlap (chunk_step chunkSize overlap st s) (q :: ps)).
    destruct (chunk_step_chained st s Hchain Hcont Hcur) as [Hchain' Hcont'].
    apply IH; [done | done |]. right. by apply chunk_step_solid.
Qed.

Lemma chunk_flush_chained (st : chunker) :
  chained overlap (chunks_out st) → continues overlap st →
  chained overlap (chunk_flush st).
Proof.
  intros Hchain Hcont. unfold chunk_flush.
  destruct (trim (currentChunk st)) as [|x r] eqn:Hcur; [done|].
  apply chained_snoc; [done|]. intros c0 Hc0.
  specialize (Hcont c0 Hc0 []). by rewrite app_nil_r, Hcur in Hcont.
Qed.

(** Adjacent chunks of a text: the later one starts with the words kept from
    the earlier one. *)
Lemma chunkText_chained (text : list ascii) :
  chained overlap (chunkText_with text chunkSize overlap).
Proof.
  unfold chunkText_with.
  set (start := {| chunks_out := []; currentChunk := [] |}).
  destruct (chunk_loop_chained start (split_sentences text)) as [Hchain Hcont].
  - apply split_sentences_closed.
  - intros pre c1 c2 post Heq. by destruct pre.
  - intros c Hc. done.
  - by left.
  - pose proof (chunk_flush_chained _ Hchain Hcont) as Hflush.
    destruct (chunk_flush _) as [|c cs]; [|done].
    intros pre c1 c2 post Heq. by destruct pre as [|? [|? ?]].
Qed.

End Overlap.

Lemma trim_solid_nonempty (s : list ascii) : ends_solid s → trim s ≠ [].
Proof.
  intros Hs. rewrite trim_solid by done.
  apply ends_solid_snoc in Hs as (r & y & -> & Hy).
  rewrite trimStart_app_solid by done. by destruct (trimStart r).
Qed.

(** *** The sentences behind the chunks *)

Lemma join_snoc (group : list (list ascii)) (s : list ascii) :
  group ≠ [] → join space (group ++ [s]) = join space group ++ space ++ s.
Proof.
  induction group as [|w group IH]; [done|]. intros _.
  destruct group as [|w' group]; [done|].
  change (join space ((w :: w' :: group) ++ [s]))
    with (w ++ space ++ join space ((w' :: group) ++ [s])).
  rewrite IH by done.
  change (join space (w :: w' :: group)) with (w ++ space ++ join space (w' :: group)).
  by rewrite <- !app_assoc.
Qed.

Lemma join_length_elem (group : list (list ascii)) (s : list ascii) :
  s ∈ group → length s ≤ length (join space group).
Proof.
  induction group as [|w group IH]; intros Hs; [by apply elem_of_nil in Hs|].
  apply elem_of_cons in Hs as [-> | Hs].
  - destruct group; [done|]. cbn [join]. rewrite length_app. lia.
  - specialize (IH Hs). destruct group as [|w' group]; [by apply elem_of_nil in Hs|].
    change (join space (w :: w' :: group)) with (w ++ space ++ join space (w' :: group)).
    rewrite !length_app. lia.
Qed.

Lemma filter_all {A} (P : A → Prop) `{∀ x, Decision (P x)} (l : list A) :
  Forall P l → filter P l = l.
Proof.
  induction 1 as [|x l Hx _ IH]; [done|]. by rewrite filter_cons_True, IH.
Qed.

Section Grouping.

Context (chunkSize overlap : Z).

(** The buffers of a grouping that goes on: the seed of the buffer behind is
    made of the last buffer in front. *)
Lemma buffers_of_app (seed : list ascii) (front behind : list (list (list ascii))) :
  buffers_of overlap seed (front ++ behind)
  = buffers_of overlap seed front
    ++ buffers_of overlap
         (match last (buffers_of overlap seed front) with
          | None => seed
          | Some buffer => overlapText overlap buffer ++ space
          end) behind.
Proof.
  revert seed. induction front as [|group front IH]; intros seed; [done|].
  cbn [app buffers_of]. rewrite IH. f_equal. rewrite last_cons.
  by destruct (last (buffers_of _ _ front)).
Qed.

Lemma buffers_of_middle (earlier later : list (list (list ascii)))
  (group : list (list ascii)) :
  seed_after overlap (buffers_of overlap [] earlier) ++ join space group
  ∈ buffers_of overlap [] (earlier ++ group :: later).
Proof.
  rewrite buffers_of_app. apply elem_of_app. right. cbn [buffers_of]. left.
Qed.

Lemma grouped_first (p : list ascii) :
  grouped chunkSize overlap
    (chunk_step chunkSize overlap {| chunks_out := []; currentChunk := [] |} p)
    [p] [[p]].
Proof.
  unfold chunk_step. cbn [currentChunk chunks_out length app Nat.ltb Nat.leb].
  rewrite andb_false_r. cbn [currentChunk chunks_out app].
  split; [done|]. split; [by repeat constructor|]. split.
  - constructor; [|constructor]. intros s Hs _.
    by apply list_elem_of_singleton in Hs as ->.
  - exists []. split; [done|]. split; [done | constructor].
Qed.

(** One turn of the loop: the sentence opens a group of its own when the
    buffer is closed, and joins the last group otherwise. *)
Lemma grouped_step (st : chunker) (done : list (list ascii))
  (groups : list (list (list ascii))) (s : list ascii) :
  grouped chunkSize overlap st done groups →
  ends_solid (currentChunk st) →
  ∃ groups',
    grouped chunkSize overlap (chunk_step chunkSize overlap st s) (done ++ [s]) groups'
    ∧ s `suffix_of` currentChunk (chunk_step chunkSize overlap st s).
Proof.
  intros (Hdone & Hfull & Hsizes & closed & Hbuffers & Hout & Hclosed) Hsolid.
  assert (currentChunk st ≠ []) as Hcur.
  { destruct Hsolid as (y & Hy & _). intros Hnil. by rewrite Hnil in Hy. }
  destruct (chunk_step_cases chunkSize overlap st s)
    as [(_ & _ & ->) | ([Hnil | Hsmall] & ->)]; [| done |]; cbn [currentChunk].
  - exists (groups ++ [[s]]). split.
    + split; [by rewrite concat_app, Hdone|].
      split; [apply Forall_app; by repeat constructor|]. split.
      * apply Forall_app. split; [done|]. constructor; [|constructor].
        intros s' Hs' _. by apply list_elem_of_singleton in Hs' as ->.
      * exists (closed ++ [currentChunk st]). cbn [chunks_out currentChunk]. split.
        -- rewrite buffers_of_app, Hbuffers, last_snoc. cbn [buffers_of join].
           by rewrite <- !app_assoc.
        -- split; [by rewrite fmap_app, Hout|].
           apply Forall_app. split; [done|]. constructor; [|constructor].
           by apply trim_solid_nonempty.
    + rewrite app_assoc. by apply suffix_app_r.
  - destruct groups as [|group groups _] using rev_ind.
    { by destruct closed. }
    rewrite buffers_of_app in Hbuffers. cbn [buffers_of] in Hbuffers.
    apply app_inj_tail in Hbuffers as [Hfront Hlast].
    apply Forall_app in Hfull as [Hfull Hgroup].
    apply Forall_app in Hsizes as [Hsizes _].
    pose proof (Forall_inv Hgroup) as Hne. cbv beta in Hne.
    destruct (0 <? length (currentChunk st)) eqn:Hlen;
      [|apply Nat.ltb_ge in Hlen; destruct (currentChunk st); [done | simpl in Hlen; lia]].
    exists (groups ++ [group ++ [s]]). split.
    + split.
      { rewrite <- Hdone, !concat_app. cbn [concat]. by rewrite !app_nil_r, app_assoc. }
      split; [apply Forall_app; split; [done|]; constructor; [by destruct group | constructor]|].
      split.
      * apply Forall_app. split; [done|]. constructor; [|constructor].
        intros s' Hs' Hbig. exfalso.
        rewrite length_app in Hsmall.
        apply elem_of_app in Hs' as [Hs' | Hs'].
        -- apply join_length_elem in Hs'. rewrite <- Hlast in Hsmall.
           rewrite length_app in Hsmall. lia.
        -- apply list_elem_of_singleton in Hs' as ->. lia.
      * exists closed. cbn [chunks_out currentChunk]. split; [|done].
        rewrite buffers_of_app, Hfront. cbn [buffers_of]. rewrite Hfront in Hlast.
        rewrite join_snoc by done. rewrite <- Hlast. by rewrite <- !app_assoc.
    + rewrite app_assoc. by apply suffix_app_r.
Qed.

Lemma grouped_loop (l : list (list ascii)) (p : list ascii) (st : chunker)
  (done : list (list ascii)) (groups : list (list (list ascii))) :
  closed_pieces (p :: l) →
  p `suffix_of` currentChunk st →
  grouped chunkSize overlap st done groups →
  ∃ groups', grouped chunkSize overlap (chunk_loop chunkSize overlap st l)
               (done ++ l) groups'.
Proof.
  revert p st done groups.
  induction l as [|s l IH]; intros p st done groups Hpieces Hp Hgrouped.
  - exists groups. by rewrite app_nil_r.
  - inversion Hpieces as [|? ? ? Hends Hrest]; subst.
    assert (ends_solid (currentChunk st)) as Hsolid.
    { destruct Hp as [front ->]. by apply ends_sentence_solid, ends_sentence_app. }
    destruct (grouped_step st done groups s Hgrouped Hsolid) as (groups1 & Hstep & Hs).
    destruct (IH s _ _ _ Hrest Hs Hstep) as (groups' & Hloop).
    exists groups'. by rewrite <- app_assoc in Hloop.
Qed.

(** The chunks of a text are the buffers of a grouping of its sentences. *)
Lemma chunkText_grouped (text : list ascii) :
  ∃ groups,
    concat groups = split_sentences text
    ∧ Forall (λ group, group ≠ []) groups
    ∧ Forall (λ group, ∀ s, s ∈ group → (chunkSize < Z.of_nat (length s))%Z →
                            group = [s]) groups
    ∧ chunkText_with text chunkSize overlap
      = chunks_from text (buffers_of overlap [] groups).
Proof.
  pose proof (split_sentences_closed text) as Hpieces.
  unfold chunkText_with.
  destruct (split_sentences text) as [|p l] eqn:Hsplit; [inversion Hpieces|].
  change (chunk_loop chunkSize overlap {| chunks_out := []; currentChunk := [] |} (p :: l))
    with (chunk_loop chunkSize overlap
            (chunk_step chunkSize overlap {| chunks_out := []; currentChunk := [] |} p) l).
  destruct (grouped_loop l p
              (chunk_step chunkSize overlap {| chunks_out := []; currentChunk := [] |} p)
              [p] [[p]] Hpieces) as (groups & Hgrouped).
  { unfold chunk_step. cbn [currentChunk chunks_out length app Nat.ltb Nat.leb].
    by rewrite andb_false_r. }
  { apply grouped_first. }
  set (st := chunk_loop _ _ _ l) in *.
  destruct Hgrouped as (Hdone & Hfull & Hsizes & closed & Hbuffers & Hout & Hclosed).
  exists groups. split; [done|]. split; [done|]. split; [done|].
  unfold chunks_from, chunk_flush. rewrite Hbuffers, Hout, fmap_app, filter_app.
  rewrite (filter_all (λ chunk, chunk ≠ [])) by (by apply Forall_fmap).
  cbn [fmap list_fmap]. destruct (trim (currentChunk st)) as [|x r].
  - rewrite filter_cons_False by (intros Hne; by apply Hne).
    by rewrite filter_nil, app_nil_r.
  - rewrite filter_cons_True by done. rewrite filter_nil.
    by destruct (trim <$> closed).
Qed.

End Grouping.

(** ** The claims on the scorer and the chunker *)

(** C2.  The score at three inputs.  For the query of the design document
    the code gives the stated 8.  A query word with a syntax character of
    regular expressions is not counted as the word it is: ["a.c"] matches
    the chunk ["abc"], which does not contain it, and scores 1 where the
    stated score is 0; for ["c++"] against a chunk that contains it the
    constructor of the pattern throws, where the stated score is 3. *)
Theorem relevance_reads_words_as_patterns (engine : RegExp.engine) :
  (calculateRelevance engine (toLowerCase annual_chunk)
     (queryWordsOf (lit "annual report"))
     = Returns 8
   ∧ stated_score annual_chunk (queryWordsOf (lit "annual report")) = 8)
  ∧ (calculateRelevance engine (toLowerCase (lit "abc")) (queryWordsOf (lit "a.c"))
       = Returns 1
     ∧ stated_score (lit "abc") (queryWordsOf (lit "a.c")) = 0)
  ∧ (calculateRelevance engine (toLowerCase (lit "Learn C++ today"))
       (queryWordsOf (lit "c++"))
       = Throws SyntaxError
     ∧ stated_score (lit "Learn C++ today") (queryWordsOf (lit "c++")) = 3).
Proof. vm_compute. repeat split; reflexivity. Qed.

(** With two spaces in a row the last two words of the chunk ["a  b."] are
    the empty word and ["b."]; joined they begin with a space, and the next
    chunk is ["b. c."]. *)
Example chunks_of_double_space :
  chunkText_with (lit "a  b. c.") 3 20 = [lit "a  b."; lit "b. c."]
  ∧ join space (slice_from (- (20 / 10)) (split_space (lit "a  b."))) = lit " b.".
Proof. vm_compute. split; reflexivity. Qed.

(** As stated, C3 fails: the later chunk need not start with the last words
    of the earlier one as they are. *)
Lemma overlap_not_verbatim :
  ¬ (∀ (text : list ascii) (chunkSize overlap : Z) (pre post : list (list ascii))
       (c1 c2 : list ascii),
       (1 <= overlap / 10)%Z →
       chunkText_with text chunkSize overlap = pre ++ c1 :: c2 :: post →
       startsWith c2 (join space (slice_from (- (overlap / 10)) (split_space c1)))
       = true).
Proof.
  intros Hclaim.
  assert (startsWith (lit "b. c.")
            (join space (slice_from (- (20 / 10)) (split_space (lit "a  b."))))
          = true) as Hhead.
  { apply (Hclaim (lit "a  b. c.") 3%Z 20%Z [] []).
    - vm_compute. discriminate.
    - vm_compute. reflexivity. }
  vm_compute in Hhead. discriminate Hhead.
Qed.

(** C3, amended.  Of two adjacent chunks the later one starts with the last
    [floor(overlap / 10)] words of the earlier one, joined by single spaces
    and without the white space in front of them; the words are the pieces of
    the chunk between single spaces. *)
Theorem overlap_at_head_of_next_chunk
  (text : list ascii) (chunkSize overlap : Z) (pre post : list (list ascii))
  (c1 c2 : list ascii) :
  (1 <= overlap / 10)%Z →
  chunkText_with text chunkSize overlap = pre ++ c1 :: c2 :: post →
  startsWith c2
    (trimStart (join space (slice_from (- (overlap / 10)) (split_space c1))))
  = true.
Proof.
  intros Hoverlap Hchunks. apply startsWith_prefix.
  by apply (chunkText_chained chunkSize overlap Hoverlap text pre c1 c2 post).
Qed.

Lemma overlap_at_head_of_next_chunk_witness :
  startsWith (lit "b. c.")
    (trimStart (join space (slice_from (- (20 / 10)) (split_space (lit "a  b.")))))
  = true.
Proof.
  apply (overlap_at_head_of_next_chunk (lit "a  b. c.") 3 20 [] []).
  - vm_compute. discriminate.
  - vm_compute. reflexivity.
Defined.

(** The one sentence of the text [" a"] begins with a space, and the one
    chunk of the text is ["a"]. *)
Example chunks_of_leading_space :
  split_sentences (lit " a") = [lit " a"] ∧ chunkText (lit " a") = [lit "a"].
Proof. vm_compute. split; reflexivity. Qed.

(** As stated, C5 fails: a sentence need not stand in a chunk as it is. *)
Lemma sentence_not_verbatim :
  ¬ (∀ text sentence : list ascii,
       sentence ∈ split_sentences text →
       ∃ chunk, chunk ∈ chunkText text ∧ includes chunk sentence = true).
Proof.
  intros Hclaim.
  destruct (Hclaim (lit " a") (lit " a")) as (chunk & Hchunk & Hin).
  - vm_compute. left.
  - vm_compute in Hchunk. apply list_elem_of_singleton in Hchunk. subst chunk.
    vm_compute in Hin. discriminate Hin.
Qed.

(** C5, amended.  Every sentence of the split, without the white space at
    its two ends, stands as one piece in a chunk, so none is left out and
    none is cut; a sentence that is neither the first nor the last has no
    such white space and stands there as it is.  The sentences fall, in their
    order, into groups, one for each buffer of the chunker: a buffer is the
    sentences of its group joined by single spaces, behind the words kept
    from the buffer before it and a space, and the chunks are the buffers
    in their order without the white space at their ends, a buffer of white
    space only giving none (and the text being the one chunk when there is
    no other).  A sentence longer than the size is a group of its own: its
    chunk is the sentence behind at most the words kept from the buffer
    before it. *)
Theorem sentences_stand_in_chunks
  (text : list ascii) (chunkSize overlap : Z) (sentence : list ascii) :
  sentence ∈ split_sentences text →
  (∃ chunk, chunk ∈ chunkText_with text chunkSize overlap
            ∧ includes chunk (trim sentence) = true)
  ∧ (∀ before after, split_sentences text = before ++ sentence :: after →
       before ≠ [] → after ≠ [] → trim sentence = sentence)
  ∧ ∃ groups,
      concat groups = split_sentences text
      ∧ Forall (λ group, group ≠ []) groups
      ∧ chunkText_with text chunkSize overlap
        = chunks_from text (buffers_of overlap [] groups)
      ∧ ((chunkSize < Z.of_nat (length sentence))%Z → trim sentence ≠ [] →
         ∀ earlier group later,
           groups = earlier ++ group :: later → sentence ∈ group →
           let seed := seed_after overlap (buffers_of overlap [] earlier) in
           group = [sentence]
           ∧ trim (seed ++ sentence) ∈ chunkText_with text chunkSize overlap
           ∧ trim sentence `suffix_of` trim (seed ++ sentence)).
Proof.
  intros Hsentence. split; [|split].
  - destruct (chunkText_covers chunkSize overlap text sentence Hsentence)
      as (chunk & Hchunk & Hin).
    exists chunk. split; [done | by apply includes_infix].
  - intros before after Hsplit Hbefore Hafter. apply trim_tight_id.
    by apply (inner_sentence_tight text before after).
  - destruct (chunkText_grouped chunkSize overlap text)
      as (groups & Hconcat & Hfull & Hsizes & Hchunks).
    exists groups. split; [done|]. split; [done|]. split; [done|].
    intros Hbig Hsolid earlier group later Hgroups Hin seed.
    assert (group = [sentence]) as ->.
    { rewrite Forall_forall in Hsizes. apply (Hsizes group); [|done..].
      rewrite Hgroups. apply elem_of_app. right. left. }
    pose proof (trim_suffix seed sentence Hsolid) as Hsuffix.
    split; [done|]. split; [|done].
    pose proof (buffers_of_middle overlap earlier later [sentence]) as Hbuffer.
    rewrite <- Hgroups in Hbuffer. cbn [join] in Hbuffer. fold seed in Hbuffer.
    assert (trim (seed ++ sentence)
            ∈ filter (λ chunk, chunk ≠ []) (trim <$> buffers_of overlap [] groups))
      as Hchunk.
    { apply list_elem_of_filter. split.
      - intros Hnil. rewrite Hnil in Hsuffix. apply suffix_nil_inv in Hsuffix. done.
      - apply list_elem_of_fmap. eauto. }
    rewrite Hchunks. unfold chunks_from.
    destruct (filter _ _); [by apply elem_of_nil in Hchunk | done].
Qed.

Example chunks_of_three_sentences :
  let text := lit " One two.  Three four five. Six." in
  split_sentences text = [lit " One two."; lit "Three four five."; lit "Six."]
  ∧ buffers_of 10 [] [[lit " One two."]; [lit "Three four five."]; [lit "Six."]]
    = [lit " One two."; lit "two. Three four five."; lit "five. Six."]
  ∧ chunkText_with text 12 10
    = [lit "One two."; lit "two. Three four five."; lit "five. Six."].
Proof. vm_compute. repeat split; reflexivity. Qed.

Lemma sentences_stand_in_chunks_witness :
  ∃ chunk, chunk ∈ chunkText_with (lit " One two.  Three four five. Six.") 12 10
           ∧ includes chunk (trim (lit "Three four five.")) = true.
Proof.
  apply (sentences_stand_in_chunks (lit " One two.  Three four five. Six.") 12 10
           (lit "Three four five.")).
  vm_compute. right. left.
Defined.

(** * Further properties *)

(** ** The words carried into the next buffer *)

Lemma join_split_space (s : list ascii) : join space (split_space s) = s.
Proof.
  induction s as [|c s IH]; [done|]. cbn [split_space].
  destruct (split_space_cons s) as (w & ws & Hsplit). rewrite Hsplit in *.
  destruct (ascii_eqb c " ") eqn:Hc.
  - apply Ascii.eqb_eq in Hc. subst c. by rewrite join_cons_nil, IH.
  - cbn [cons_head]. by rewrite join_cons_head, IH.
Qed.

Lemma join_drop_suffix (n : nat) (ws : list (list ascii)) :
  join space (drop n ws) `suffix_of` join space ws.
Proof.
  revert n. induction ws as [|w ws IH]; intros n; [by destruct n|].
  destruct n as [|n]; [done|]. cbn [drop].
  etrans; [apply IH|]. destruct ws as [|w' ws]; [apply suffix_nil|].
  change (join space (w :: w' :: ws)) with (w ++ space ++ join space (w' :: ws)).
  rewrite app_assoc. apply suffix_app_r. done.
Qed.

(** When [floor(overlap / 10)] is 0, [slice(-0)] keeps all the words. *)
Lemma overlapText_all (overlap : Z) (buffer : list ascii) :
  (overlap / 10 = 0)%Z → overlapText overlap buffer = buffer.
Proof.
  intros Hzero. unfold overlapText, slice_from. rewrite Hzero.
  change (- 0 <? 0)%Z with false. cbv iota.
  replace (Z.to_nat ((- 0) `min` Z.of_nat (length (split_space buffer)))) with 0
    by lia.
  apply join_split_space.
Qed.

(** X1.  The words [chunkText] carries from a closed buffer into the next one
    are an end piece of that buffer, for every value of [overlap]; when
    [floor(overlap / 10)] is 0, [slice(-0)] keeps all the words and the
    whole buffer is carried over. *)
Theorem overlap_is_end_of_buffer (overlap : Z) (buffer : list ascii) :
  overlapText overlap buffer `suffix_of` buffer
  ∧ ((overlap / 10 = 0)%Z → overlapText overlap buffer = buffer).
Proof.
  split.
  - assert (∀ n, join space (drop n (split_space buffer)) `suffix_of` buffer) as Hdrop.
    { intros n. pose proof (join_drop_suffix n (split_space buffer)) as Hn.
      by rewrite join_split_space in Hn. }
    unfold overlapText, slice_from. destruct (_ <? 0)%Z; apply Hdrop.
  - apply overlapText_all.
Qed.

(** ** The shape of the chunks *)

Lemma split_sentences_from_blank (afterEnd gap : bool) (s : list ascii) :
  Forall blank (split_sentences_from afterEnd gap s) → blank s.
Proof.
  revert afterEnd gap. induction s as [|c s IH]; intros afterEnd gap; [constructor|].
  simpl. destruct (isWhiteSpace c) eqn:Hc.
  - destruct gap; [|destruct afterEnd].
    + intros Hall. constructor; [done | by eapply IH].
    + intros Hall. inversion Hall; subst. constructor; [done | by eapply IH].
    + destruct (split_sentences_from false false s) as [|p ps] eqn:Hrec; simpl.
      * intros _. constructor; [done|]. apply (IH false false). by rewrite Hrec.
      * intros Hall. inversion Hall as [|? ? Hp Hps]; subst.
        inversion Hp; subst. constructor; [done|].
        apply (IH false false). rewrite Hrec. by constructor.
  - destruct (split_sentences_from (isSentenceEnd c) false s) as [|p ps]; simpl;
      intros Hall; inversion Hall as [|? ? Hp Hps]; subst;
      inversion Hp; congruence.
Qed.

Lemma split_sentences_of_blank (s : list ascii) :
  blank s → split_sentences_from false false s = [s].
Proof.
  induction 1 as [|c s Hc _ IH]; [done|]. simpl. by rewrite Hc, IH.
Qed.

Section ChunkShape.

Context (chunkSize overlap : Z).

Lemma chunk_step_pushed (st : chunker) (s : list ascii) :
  Forall pushed_chunk (chunks_out st) →
  currentChunk st = [] ∨ ends_solid (currentChunk st) →
  Forall pushed_chunk (chunks_out (chunk_step chunkSize overlap st s)).
Proof.
  intros Hall Hcur.
  destruct (chunk_step_cases chunkSize overlap st s) as [(Hne & _ & ->) | (_ & ->)];
    [|done].
  cbn [chunks_out]. apply Forall_app. split; [done|].
  destruct Hcur as [Hnil | Hsolid]; [done|].
  constructor; [|constructor].
  split; [by apply trim_solid_nonempty | apply trim_tight].
Qed.

Lemma chunk_loop_pushed (st : chunker) (sentences : list (list ascii)) :
  closed_pieces sentences →
  Forall pushed_chunk (chunks_out st) →
  currentChunk st = [] ∨ ends_solid (currentChunk st) →
  Forall pushed_chunk (chunks_out (chunk_loop chunkSize overlap st sentences)).
Proof.
  intros Hclosed. revert st.
  induction Hclosed as [s | s q ps Hs _ IH]; intros st Hall Hcur.
  - simpl. by apply chunk_step_pushed.
  - change (chunk_loop chunkSize overlap st (s :: q :: ps))
      with (chunk_loop chunkSize overlap (chunk_step chunkSize overlap st s) (q :: ps)).
    apply IH; [by apply chunk_step_pushed|]. right. by apply chunk_step_solid.
Qed.

Lemma chunk_flush_pushed (st : chunker) :
  Forall pushed_chunk (chunks_out st) → Forall pushed_chunk (chunk_flush st).
Proof.
  intros Hall. unfold chunk_flush.
  destruct (trim (currentChunk st)) as [|x r] eqn:Hcur; [done|].
  apply Forall_app. split; [done|]. constructor; [|constructor].
  split; [done|]. rewrite <- Hcur. apply trim_tight.
Qed.

Lemma chunkText_flush_pushed (text : list ascii) :
  Forall pushed_chunk
    (chunk_flush (chunk_loop chunkSize overlap
                    {| chunks_out := []; currentChunk := [] |} (split_sentences text))).
Proof.
  apply chunk_flush_pushed, chunk_loop_pushed.
  - apply split_sentences_closed.
  - constructor.
  - by left.
Qed.

(** When nothing is pushed at all, the text is blank. *)
Lemma chunkText_nothing_pushed (text : list ascii) :
  chunk_flush (chunk_loop chunkSize overlap
                 {| chunks_out := []; currentChunk := [] |} (split_sentences text)) = [] →
  blank text.
Proof.
  intros Hflush. apply (split_sentences_from_blank false false).
  apply Forall_forall. intros s Hs. apply trim_nil_blank.
  assert (covered (chunk_loop chunkSize overlap
                     {| chunks_out := []; currentChunk := [] |} (split_sentences text)) s)
    as Hcov by (apply covered_loop; by right).
  apply covered_flush in Hcov as [(c & Hc & _) | Hnil]; [|done].
  rewrite Hflush in Hc. by apply elem_of_nil in Hc.
Qed.

End ChunkShape.

(** X2.  The chunks of a text that is not blank are not empty and have no
    white space at their ends; a blank text, the empty one too, is returned
    as its own single chunk. *)
Theorem chunks_are_trimmed (text : list ascii) (chunkSize overlap : Z) :
  (blank text → chunkText_with text chunkSize overlap = [text])
  ∧ (¬ blank text →
     Forall pushed_chunk (chunkText_with text chunkSize overlap)).
Proof.
  split.
  - intros Hblank. unfold chunkText_with, split_sentences.
    rewrite split_sentences_of_blank by done. simpl.
    unfold chunk_step. simpl. rewrite andb_false_r. simpl.
    unfold chunk_flush. cbn [currentChunk chunks_out].
    unfold trim. by rewrite trimStart_blank.
  - intros Hsolid. unfold chunkText_with.
    pose proof (chunkText_flush_pushed chunkSize overlap text) as Hall.
    pose proof (chunkText_nothing_pushed chunkSize overlap text) as Hnone.
    destruct (chunk_flush _) as [|c cs]; [|done].
    exfalso. by apply Hsolid, Hnone.
Qed.

(** ** Chunks when no number of words is kept *)

Section Carry.

(** The two facts about the words kept that make the chunks a chain. *)
Context (chunkSize overlap : Z).
Context (Hkeeps_end : ∀ buffer, ends_solid buffer →
                        ends_solid (overlapText overlap buffer)).
Context (Hkeeps_trim : ∀ buffer, ends_solid buffer →
                         kept_words overlap (trim buffer) = kept_words overlap buffer).

Lemma carry_close (st : chunker) (s : list ascii) :
  ends_solid (currentChunk st) →
  continues overlap
    {| chunks_out := chunks_out st ++ [trim (currentChunk st)];
       currentChunk := overlapText overlap (currentChunk st) ++ space ++ s |}.
Proof.
  intros Hsolid c Hc more. cbn [chunks_out currentChunk] in *.
  rewrite last_snoc in Hc. inversion Hc; subst c.
  rewrite Hkeeps_trim by done. unfold kept_words.
  rewrite <- app_assoc, trim_app_solid by (by apply Hkeeps_end).
  by apply prefix_app_r.
Qed.

Lemma carry_step (st : chunker) (s : list ascii) :
  chained overlap (chunks_out st) → continues overlap st →
  currentChunk st = [] ∨ ends_solid (currentChunk st) →
  chained overlap (chunks_out (chunk_step chunkSize overlap st s))
  ∧ continues overlap (chunk_step chunkSize overlap st s).
Proof.
  intros Hchain Hcont Hcur.
  destruct (chunk_step_cases chunkSize overlap st s) as [(Hne & _ & ->) | (_ & ->)].
  - destruct Hcur as [Hnil | Hsolid]; [done|]. split.
    + cbn [chunks_out]. apply chained_snoc; [done|].
      intros c0 Hc0. specialize (Hcont c0 Hc0 []). by rewrite app_nil_r in Hcont.
    + by apply carry_close.
  - split; [done|]. intros c Hc more. cbn [chunks_out currentChunk] in *.
    rewrite <- !app_assoc. by apply Hcont.
Qed.

Lemma carry_loop (st : chunker) (sentences : list (list ascii)) :
  closed_pieces sentences →
  chained overlap (chunks_out st) → continues overlap st →
  currentChunk st = [] ∨ ends_solid (currentChunk st) →
  chained overlap (chunks_out (chunk_loop chunkSize overlap st sentences))
  ∧ continues overlap (chunk_loop chunkSize overlap st sentences).
Proof.
  intros Hclosed. revert st.
  induction Hclosed as [s | s q ps Hs _ IH]; intros st Hchain Hcont Hcur.
  - simpl. by apply carry_step.
  - change (chunk_loop chunkSize overlap st (s :: q :: ps))
      with (chunk_loop chunkSize overlap (chunk_step chunkSize overlap st s) (q :: ps)).
    destruct (carry_step st s Hchain Hcont Hcur) as [Hchain' Hcont'].
    apply IH; [done | done |]. right. by apply chunk_step_solid.
Qed.

Lemma carry_chained (text : list ascii) :
  chained overlap
    (chunk_flush (chunk_loop chunkSize overlap
                    {| chunks_out := []; currentChunk := [] |} (split_sentences text))).
Proof.
  set (start := {| chunks_out := []; currentChunk := [] |}).
  destruct (carry_loop start (split_sentences text)) as [Hchain Hcont].
  - apply split_sentences_closed.
  - intros pre c1 c2 post Heq. by destruct pre.
  - intros c Hc. done.
  - by left.
  - by apply chunk_flush_chained.
Qed.

End Carry.

Lemma trimStart_tight (s : list ascii) : tight s → trimStart s = s.
Proof.
  intros [-> | [(x & r & -> & Hx) _]]; [done|]. simpl. by rewrite Hx.
Qed.

(** X3.  When [floor(overlap / 10)] is 0 (an overlap of 0 to 9), the whole
    closed buffer is carried over, so of two adjacent chunks the earlier one
    is the beginning of the later one: the chunks grow and none starts
    afresh. *)
Theorem chunks_nest_without_overlap
  (text : list ascii) (chunkSize overlap : Z) (pre post : list (list ascii))
  (c1 c2 : list ascii) :
  (overlap / 10 = 0)%Z →
  chunkText_with text chunkSize overlap = pre ++ c1 :: c2 :: post →
  c1 `prefix_of` c2.
Proof.
  intros Hzero Hchunks.
  assert (∀ buffer, overlapText overlap buffer = buffer) as Hall.
  { intros buffer. by apply overlapText_all. }
  assert (chained overlap
            (chunk_flush (chunk_loop chunkSize overlap
               {| chunks_out := []; currentChunk := [] |} (split_sentences text))))
    as Hchain.
  { apply carry_chained.
    - intros buffer Hsolid. by rewrite Hall.
    - intros buffer Hsolid. unfold kept_words. rewrite !Hall.
      rewrite trim_solid by done.
      destruct (trimStart_head buffer) as [-> | (x & r & -> & Hx)]; [done|].
      simpl. by rewrite Hx. }
  unfold chunkText_with in Hchunks.
  pose proof (chunkText_flush_pushed chunkSize overlap text) as Hpushed.
  destruct (chunk_flush _) as [|c cs].
  { by destruct pre as [|? [|? ?]]. }
  assert (pushed_chunk c1) as [_ Htight].
  { rewrite Forall_forall in Hpushed. apply Hpushed. rewrite Hchunks.
    apply elem_of_app. right. by left. }
  assert (kept_words overlap c1 = c1) as <-.
  { unfold kept_words. rewrite Hall. by apply trimStart_tight. }
  by apply (Hchain pre c1 c2 post).
Qed.

Lemma chunks_nest_without_overlap_witness :
  lit "one two." `prefix_of` lit "one two. three four.".
Proof.
  apply (chunks_nest_without_overlap (lit "one two. three four. five six.") 10 0
           [] [lit "one two. three four. five six."]).
  - reflexivity.
  - vm_compute. reflexivity.
Defined.

(** ** A text within the size *)

Lemma pieces_weight_cons_head (c : ascii) (p : list ascii) (ps : list (list ascii)) :
  pieces_weight (cons_head c (p :: ps)) = S (pieces_weight (p :: ps)).
Proof. reflexivity. Qed.

(** The sentences of a text and one separator each take no more room than
    the text and one separator. *)
Lemma split_sentences_weight (afterEnd gap : bool) (s : list ascii) :
  pieces_weight (split_sentences_from afterEnd gap s) ≤ S (length s).
Proof.
  revert afterEnd gap. induction s as [|c s IH]; intros afterEnd gap; simpl; [done|].
  assert (∀ a g, pieces_weight (cons_head c (split_sentences_from a g s))
                 ≤ S (S (length s))) as Hcons.
  { intros a g. specialize (IH a g).
    destruct (split_sentences_from_heads a g s) as (p & ps & Heq & _).
    rewrite Heq in *. rewrite pieces_weight_cons_head. lia. }
  destruct (isWhiteSpace c); [|apply Hcons].
  destruct gap; [specialize (IH false true); lia|].
  destruct afterEnd; [|apply Hcons].
  specialize (IH false true). unfold pieces_weight in *. simpl. lia.
Qed.

Section WithinSize.

Context (chunkSize overlap : Z).

Lemma chunk_loop_within (st : chunker) (rest : list (list ascii)) :
  chunks_out st = [] →
  (Z.of_nat (length (currentChunk st) + pieces_weight rest) <= chunkSize + 1)%Z →
  chunk_loop chunkSize overlap st rest
  = {| chunks_out := []; currentChunk := fold_left glue rest (currentChunk st) |}.
Proof.
  revert st. induction rest as [|s rest IH]; intros st Hout Hroom.
  - simpl. destruct st. simpl in Hout. by rewrite Hout.
  - simpl. unfold pieces_weight in Hroom. simpl in Hroom.
    fold (pieces_weight rest) in Hroom.
    destruct (chunk_step_cases chunkSize overlap st s) as [(_ & Hbig & _) | (_ & ->)].
    + rewrite length_app in Hbig. lia.
    + rewrite IH; [done | done |]. cbn [currentChunk].
      rewrite !length_app. destruct (0 <? length (currentChunk st)); simpl; lia.
Qed.

Lemma fold_glue_from (cur : list ascii) (rest : list (list ascii)) :
  cur ≠ [] → fold_left glue rest cur = join space (cur :: rest).
Proof.
  revert cur. induction rest as [|s rest IH]; intros cur Hcur; [done|].
  simpl. rewrite IH.
  - unfold glue. destruct cur as [|x cur]; [done|]. simpl.
    destruct rest; simpl; by rewrite <- ?app_assoc.
  - unfold glue. by destruct cur.
Qed.

Lemma fold_glue_sentences (text : list ascii) :
  fold_left glue (split_sentences text) [] = join space (split_sentences text).
Proof.
  pose proof (split_sentences_closed text) as Hclosed.
  destruct Hclosed as [p | p q ps Hp _]; [done|].
  assert (p ≠ []) as Hne by (destruct Hp as (y & Hy & _); by intros ->).
  change (fold_left glue (p :: q :: ps) []) with (fold_left glue (q :: ps) p).
  by apply fold_glue_from.
Qed.

End WithinSize.

(** X4.  A text no longer than [chunkSize] is not split: [chunkText] returns
    one chunk, its sentences joined by single spaces and trimmed (the text
    itself when that is empty). *)
Theorem text_within_size_is_one_chunk (text : list ascii) (chunkSize overlap : Z) :
  (Z.of_nat (length text) <= chunkSize)%Z →
  chunkText_with text chunkSize overlap
  = [match trim (join space (split_sentences text)) with
     | [] => text
     | joined => joined
     end].
Proof.
  intros Hsize. unfold chunkText_with.
  rewrite (chunk_loop_within chunkSize overlap); [|done|].
  - rewrite fold_glue_sentences. unfold chunk_flush. cbn [currentChunk chunks_out].
    by destruct (trim _).
  - pose proof (split_sentences_weight false false text) as Hweight.
    cbn [currentChunk length]. unfold split_sentences. lia.
Qed.

Lemma text_within_size_is_one_chunk_witness :
  chunkText_with (lit " First one.   Second one!  Third?  ") 3000 500
  = [lit "First one. Second one! Third?"].
Proof.
  rewrite text_within_size_is_one_chunk by (vm_compute; discriminate).
  vm_compute. reflexivity.
Defined.

(** ** The store between its methods *)

Lemma put_document_elem (doc d : Document) (docs : list Document) :
  d ∈ put_document doc docs → d = doc ∨ d ∈ docs.
Proof.
  unfold put_document. destruct (0 <=? _)%Z.
  - intros Hd. apply list_elem_of_lookup in Hd as [j Hj].
    apply list_lookup_insert_Some in Hj as [(_ & <- & _) | (_ & Hj)]; [by left|].
    right. by eapply list_elem_of_lookup_2.
  - rewrite elem_of_app, list_elem_of_singleton. tauto.
Qed.

Lemma perform_chunks_derived (o : operation) (st : Store) :
  chunks_derived st → chunks_derived (perform o st).
Proof.
  intros Hder chatId docs d. destruct o as [u name text now | u name | u]; simpl.
  - rewrite addDocument_store. destruct (decide (u = chatId)) as [->|Hne].
    + rewrite lookup_insert_eq. intros [= <-] Hd.
      apply put_document_elem in Hd as [-> | Hd]; [done|].
      destruct (st !! chatId) as [ds|] eqn:Hds; simpl in Hd; [by eapply Hder|].
      by apply elem_of_nil in Hd.
    + rewrite lookup_insert_ne by done. apply Hder.
  - rewrite deleteDocument_run. destruct (st !! u) as [ds|] eqn:Hds; [|apply Hder].
    simpl. destruct (0 <=? _)%Z; [|apply Hder]. simpl.
    destruct (decide (u = chatId)) as [->|Hne].
    + rewrite lookup_insert_eq. intros [= <-] Hd.
      apply list_elem_of_delete_inv in Hd. by eapply Hder.
    + rewrite lookup_insert_ne by done. apply Hder.
  - unfold clearDocuments. run_method. destruct (decide (u = chatId)) as [->|Hne].
    + by rewrite lookup_delete_eq.
    + rewrite lookup_delete_ne by done. apply Hder.
Qed.

(** X5.  In every state of the store the chunks of a stored document are
    those [chunkText] cuts from its content: no method stores a document
    whose chunks and content have come apart. *)
Theorem chunks_follow_content (st : Store) :
  reachable st → chunks_derived st.
Proof.
  induction 1 as [|st o _ IH].
  - intros chatId docs d Hget. unfold newStore in Hget.
    by rewrite lookup_empty in Hget.
  - by apply perform_chunks_derived.
Qed.

Lemma chunks_follow_content_witness : chunks_derived sample_store.
Proof. exact (chunks_follow_content sample_store sample_store_reachable). Defined.

Lemma findIndex_appended (name : list ascii) (docs : list Document) (doc : Document) :
  name ∉ fileName <$> docs → fileName doc = name →
  findIndex (hasName name) (docs ++ [doc]) = Z.of_nat (length docs).
Proof.
  intros Hnot Hname. apply findIndex_first_named. split.
  - exists doc. split; [|done]. by rewrite lookup_app_r, Nat.sub_diag.
  - intros j d' Hj Hd' Heq. apply Hnot. rewrite lookup_app_l in Hd' by done.
    apply list_elem_of_fmap. exists d'. split; [done|].
    by eapply list_elem_of_lookup_2.
Qed.

(** X6.  Adding a document under a name the user does not have and deleting
    that name again gives [true] and leaves the user with the documents from
    before; every other user is as before.  A user the store did not know is
    known afterwards, with an empty array; when the user was known the store
    is the one from before. *)
Theorem add_then_delete (st : Store) (chatId : Z) (name text now : list ascii) :
  name ∉ fst (getDocumentNames chatId st) →
  let st' := snd (addDocument chatId name text now st) in
  deleteDocument chatId name st' = (true, <[chatId := fst (getDocuments chatId st)]> st)
  ∧ (is_Some (st !! chatId) → snd (deleteDocument chatId name st') = st)
  ∧ (st !! chatId = None →
       snd (deleteDocument chatId name st') !! chatId = Some []).
Proof.
  intros Hfresh st'. subst st'. rewrite getDocuments_run. cbn [fst].
  unfold getDocumentNames in Hfresh. revert Hfresh. run_method. intros Hfresh.
  assert (deleteDocument chatId name (snd (addDocument chatId name text now st))
          = (true, <[chatId := orEmpty (st !! chatId)]> st)) as Hrun.
  { rewrite addDocument_store, put_document_fresh by done.
    rewrite deleteDocument_run, lookup_insert_eq. cbn zeta.
    rewrite findIndex_appended by done.
    destruct (Z.leb_spec 0 (Z.of_nat (length (orEmpty (st !! chatId))))); [|lia].
    rewrite Nat2Z.id, insert_insert_eq.
    rewrite delete_middle, app_nil_r. reflexivity. }
  split; [exact Hrun|]. rewrite Hrun. cbn [snd]. split.
  - intros [docs Hdocs]. rewrite Hdocs. simpl. by apply insert_id.
  - intros Hnone. by rewrite Hnone, lookup_insert_eq.
Qed.

Lemma add_then_delete_witness :
  deleteDocument 7 (lit "c.pdf")
    (snd (addDocument 7 (lit "c.pdf") (lit "Some text.") (lit "t5") sample_store))
  = (true, sample_store).
Proof.
  destruct (add_then_delete sample_store 7 (lit "c.pdf") (lit "Some text.") (lit "t5"))
    as (Hrun & _ & _).
  - vm_compute. intros Hin. repeat (apply elem_of_cons in Hin as [Hin|Hin]; [discriminate Hin|]).
    by apply elem_of_nil in Hin.
  - rewrite Hrun. vm_compute. reflexivity.
Defined.

Lemma reachable_unique (st : Store) : reachable st → unique_names st.
Proof.
  induction 1 as [|st o _ IH]; [|by apply perform_unique].
  intros chatId docs Hget. unfold newStore in Hget. by rewrite lookup_empty in Hget.
Qed.

Lemma filter_other_names (name : list ascii) (names : list (list ascii)) :
  name ∉ names → filter (λ n, n ≠ name) names = names.
Proof.
  induction names as [|n names IH]; [done|]. intros Hnot.
  apply not_elem_of_cons in Hnot as [Hne Hnot].
  rewrite filter_cons_True by done. by rewrite IH.
Qed.

Lemma delete_first_named (name : list ascii) (docs : list Document) (i : nat) :
  NoDup (fileName <$> docs) → first_named name docs i →
  fileName <$> delete i docs = filter (λ n, n ≠ name) (fileName <$> docs).
Proof.
  intros Hnodup [(d & Hd & Hname) _].
  rewrite <- (take_drop_middle docs i d Hd) in Hnodup |- * at 2.
  rewrite <- (take_drop_middle docs i d Hd) at 1.
  assert (length (take i docs) = i) as Hlen.
  { rewrite length_take. apply lookup_lt_Some in Hd. lia. }
  rewrite <- Hlen at 1. rewrite delete_middle.
  rewrite !fmap_app, fmap_cons in *. rewrite Hname in *.
  apply NoDup_app in Hnodup as (_ & Hleft & Hright).
  apply NoDup_cons in Hright as [Hright _].
  rewrite filter_app, filter_cons_False by (by intros H; apply H).
  rewrite !filter_other_names; [done | done |].
  intros Hin. by apply (Hleft name); [|left].
Qed.

(** X7.  In a store without two documents of one name in a collection,
    [deleteDocument] leaves the user the names from before without the
    deleted one, in their order, and a second call for that name gives
    [false]. *)
Theorem delete_removes_the_name (st : Store) (chatId : Z) (name : list ascii) :
  unique_names st →
  let st' := snd (deleteDocument chatId name st) in
  fst (getDocumentNames chatId st')
  = filter (λ n, n ≠ name) (fst (getDocumentNames chatId st))
  ∧ fst (deleteDocument chatId name st') = false.
Proof.
  intros Huniq st'.
  assert (fst (getDocumentNames chatId st')
          = filter (λ n, n ≠ name) (fst (getDocumentNames chatId st))) as Hnames.
  { subst st'. rewrite deleteDocument_run. unfold getDocumentNames. run_method.
    destruct (st !! chatId) as [docs|] eqn:Hdocs; simpl; [|by rewrite Hdocs].
    destruct (findIndex_cases name docs) as [[-> Hnot] | (i & -> & Hfirst)]; simpl.
    - rewrite Hdocs. simpl. by rewrite filter_other_names.
    - destruct (Z.leb_spec 0 (Z.of_nat i)); [|lia]. simpl.
      rewrite lookup_insert_eq, Nat2Z.id. simpl.
      apply delete_first_named; [by eapply Huniq | done]. }
  split; [exact Hnames|].
  destruct (fst (deleteDocument chatId name st')) eqn:Hagain; [|done].
  apply deleteDocument_true_iff in Hagain.
  change (fileName <$> orEmpty (st' !! chatId))
    with (fst (getDocumentNames chatId st')) in Hagain.
  rewrite Hnames in Hagain. apply list_elem_of_filter in Hagain as [Hne _]. done.
Qed.

Lemma delete_removes_the_name_witness :
  fst (getDocumentNames 7 (snd (deleteDocument 7 (lit "a.pdf") sample_store))) = []
  ∧ fst (deleteDocument 7 (lit "a.pdf")
           (snd (deleteDocument 7 (lit "a.pdf") sample_store))) = false.
Proof.
  destruct (delete_removes_the_name sample_store 7 (lit "a.pdf")
              (reachable_unique _ sample_store_reachable)) as [Hnames Hagain].
  split; [|exact Hagain]. rewrite Hnames. vm_compute. reflexivity.
Defined.

(** X8.  After [addDocument] the names of the user are the names from before
    when the name was among them, and the names from before followed by the
    new name when it was not; the total the call reports is the count the
    store gives afterwards. *)
Theorem addDocument_names (st : Store) (chatId : Z) (name text now : list ascii) :
  let names := fst (getDocumentNames chatId st) in
  let st' := snd (addDocument chatId name text now st) in
  fst (getDocumentNames chatId st')
  = (if bool_decide (name ∈ names) then names else names ++ [name])
  ∧ totalDocuments (fst (addDocument chatId name text now st))
    = fst (getDocumentCount chatId st').
Proof.
  intros names st'. subst names st'.
  rewrite addDocument_store, addDocument_result, getDocumentCount_run.
  unfold getDocumentNames. run_method. rewrite lookup_insert_eq. simpl.
  split; [|done]. apply (put_document_names (mkDocument name text now)).
Qed.

Section WithoutDocuments.

Variable engine : RegExp.engine.
Variable callGemini :
  list ascii → list ascii → list (list ascii) → completion (list ascii).

(** X9.  For a user whose count is 0, unknown to the store or left with an
    empty array, [searchDocuments] returns the empty array whatever the
    query, also one whose words are no patterns, and [generateAnswer]
    returns the fixed answer with no sources without a call to the model;
    neither changes the store. *)
Theorem without_documents (st : Store) (chatId : Z) (query : list ascii) :
  fst (getDocumentCount chatId st) = 0 →
  searchDocuments engine chatId query st = (Returns [], st)
  ∧ generateAnswer callGemini chatId query st
    = (Returns {| answer := noDocumentsAnswer; answer_sources := [] |}, st).
Proof.
  rewrite getDocumentCount_run. cbn [fst]. intros Hcount.
  apply length_zero_iff_nil in Hcount.
  unfold searchDocuments, generateAnswer, getAllContent. run_method.
  by rewrite Hcount.
Qed.

End WithoutDocuments.

Lemma without_documents_witness :
  searchDocuments fragment_only 7 (lit "what (is")
    (snd (deleteDocument 7 (lit "a.pdf") sample_store))
  = (Returns [], snd (deleteDocument 7 (lit "a.pdf") sample_store))
  ∧ generateAnswer (λ _ _ _, Throws RequestFailed) 7 (lit "what (is")
      (snd (deleteDocument 7 (lit "a.pdf") sample_store))
    = (Returns {| answer := noDocumentsAnswer; answer_sources := [] |},
       snd (deleteDocument 7 (lit "a.pdf") sample_store)).
Proof.
  apply (without_documents fragment_only (λ _ _ _, Throws RequestFailed)).
  vm_compute. reflexivity.
Defined.

(** ** The words of a query *)

Lemma toLowerCaseChar_idemp (c : ascii) :
  toLowerCaseChar (toLowerCaseChar c) = toLowerCaseChar c.
Proof. destruct c as [[] [] [] [] [] [] [] []]; reflexivity. Qed.

Lemma toLowerCase_idemp (s : list ascii) : toLowerCase (toLowerCase s) = toLowerCase s.
Proof.
  unfold toLowerCase. rewrite map_map. apply map_ext. apply toLowerCaseChar_idemp.
Qed.

Lemma split_ws_from_heads (gap : bool) (s : list ascii) :
  ∃ p ps, split_ws_from gap s = p :: ps.
Proof.
  revert gap. induction s as [|c s IH]; intros gap; simpl; [by eexists _, _|].
  destruct (isWhiteSpace c).
  - destruct gap; [apply IH | by eexists _, _].
  - destruct (IH false) as (p & ps & ->). by eexists _, _.
Qed.

(** The pieces of a split at white space hold no white space, and a property
    of all the characters of the string is one of the characters of each. *)
Lemma split_ws_from_pieces (P : ascii → Prop) (gap : bool) (s : list ascii) :
  Forall P s →
  Forall (λ w, Forall (λ c, isWhiteSpace c = false ∧ P c) w) (split_ws_from gap s).
Proof.
  intros Hs. revert gap. induction Hs as [|c s Hc _ IH]; intros gap; simpl.
  - by repeat constructor.
  - destruct (isWhiteSpace c) eqn:Hwhite.
    + destruct gap; [apply IH|]. constructor; [constructor | apply IH].
    + specialize (IH false).
      destruct (split_ws_from_heads false s) as (p & ps & Heq).
      rewrite Heq in *. simpl. inversion IH; subst.
      constructor; [|done]. by constructor.
Qed.

(** X10.  The words [searchDocuments] scores with are longer than 2
    characters, hold no white space and are in lower case. *)
Theorem query_words_shape (query : list ascii) :
  Forall (λ w, 2 < length w ∧ solid w ∧ lower_case w) (queryWordsOf query).
Proof.
  apply Forall_forall. intros w Hw. unfold queryWordsOf in Hw.
  apply list_elem_of_filter in Hw as [Hlong Hw]. split; [done|].
  assert (Forall (λ c, toLowerCaseChar c = c) (toLowerCase query)) as Hlower.
  { apply Forall_forall. intros c Hc. unfold toLowerCase in Hc.
    apply list_elem_of_fmap in Hc as (c' & -> & _). apply toLowerCaseChar_idemp. }
  pose proof (split_ws_from_pieces _ false _ Hlower) as Hpieces.
  rewrite Forall_forall in Hpieces. specialize (Hpieces w Hw).
  split.
  - unfold solid. eapply Forall_impl; [exact Hpieces|]. by intros c [Hc _].
  - unfold lower_case, toLowerCase. rewrite <- (map_id w) at 2.
    apply map_ext_Forall. eapply Forall_impl; [exact Hpieces|]. by intros c [_ Hc].
Qed.

Lemma calculateRelevance_no_words (engine : RegExp.engine) (text : list ascii) :
  calculateRelevance engine text [] = Returns 0.
Proof. unfold calculateRelevance. simpl. run_completion. by destruct (includes _ _). Qed.

Lemma search_no_words (engine : RegExp.engine) (docs : list Document)
  (results : list SearchResult) :
  for_of (search_doc engine []) docs results = Returns results.
Proof.
  revert results. induction docs as [|d docs IH]; intros results; [done|].
  simpl. unfold search_doc at 1.
  assert (∀ cs, for_of (search_chunk engine [] d) cs results = Returns results) as ->.
  { induction cs as [|c cs IHc]; [done|]. simpl. unfold search_chunk at 1.
    rewrite calculateRelevance_no_words. run_completion. simpl. exact IHc. }
  run_completion. apply IH.
Qed.

(** X11.  A query without a word longer than 2 characters finds nothing:
    with no word to score with no chunk scores above 0, the phrase of no
    words being worth no bonus. *)
Theorem short_words_find_nothing (engine : RegExp.engine) (st : Store) (chatId : Z)
  (query : list ascii) :
  queryWordsOf query = [] →
  searchDocuments engine chatId query st = (Returns [], st).
Proof.
  intros Hwords. unfold searchDocuments. run_method.
  destruct (length (orEmpty (st !! chatId)) =? 0); [done|].
  rewrite Hwords, search_no_words. reflexivity.
Qed.

Lemma short_words_find_nothing_witness :
  searchDocuments fragment_only 7 (lit "Is it a TV or PC") sample_store
  = (Returns [], sample_store).
Proof.
  apply (short_words_find_nothing fragment_only sample_store 7 (lit "Is it a TV or PC")).
  vm_compute. reflexivity.
Defined.

(** ** Which chunks a search finds *)

Lemma occurs_here_startsWith (word text : list ascii) :
  occurs_here word text = startsWith (toLowerCase text) (toLowerCase word).
Proof.
  revert text. induction word as [|a word IH]; intros text; [done|].
  destruct text as [|b text]; [done|]. simpl. by rewrite IH.
Qed.

(** A word occurs in a text, case ignored, when the lower-cased text
    contains the lower-cased word. *)
Lemma occurrences_positive (word text : list ascii) :
  word ≠ [] →
  0 < occurrences word text ↔ includes (toLowerCase text) (toLowerCase word) = true.
Proof.
  intros Hword. unfold occurrences. induction text as [|b text IH].
  - destruct word; [done|]. simpl. split; [lia | done].
  - cbn [occurrences_from]. rewrite occurs_here_startsWith.
    cbn [toLowerCase map includes].
    change (map toLowerCaseChar text) with (toLowerCase text).
    change (toLowerCaseChar b :: toLowerCase text) with (toLowerCase (b :: text)).
    destruct (startsWith (toLowerCase (b :: text)) (toLowerCase word)); simpl.
    + split; [done | lia].
    + exact IH.
Qed.

Lemma sum_occurrences_positive (chunk : list ascii) (queryWords : list (list ascii)) :
  0 < sum_list_with (λ word, occurrences word chunk) queryWords
  ↔ ∃ word, word ∈ queryWords ∧ 0 < occurrences word chunk.
Proof.
  induction queryWords as [|w ws IH]; simpl.
  - split; [lia|]. intros (word & Hin & _). by apply elem_of_nil in Hin.
  - split.
    + intros Hsum. destruct (decide (0 < occurrences w chunk)) as [Hw|Hw].
      * exists w. split; [left | done].
      * destruct (proj1 IH ltac:(lia)) as (word & Hin & Hword).
        exists word. split; [by right | done].
    + intros (word & Hin & Hword). apply elem_of_cons in Hin as [-> | Hin]; [lia|].
      assert (0 < sum_list_with (λ word, occurrences word chunk) ws); [|lia].
      apply IH. eauto.
Qed.

Lemma infix_trans (u s t : list ascii) : infix u s → infix s t → infix u t.
Proof. intros Hus (a & b & ->). by apply infix_app. Qed.

Lemma first_word_in_phrase (w : list ascii) (ws : list (list ascii)) :
  infix w (join space (w :: ws)).
Proof. destruct ws; [apply infix_refl|]. apply infix_app_l, infix_refl. Qed.

(** X12.  On strings of Latin-1 characters, which are the strings of this
    development: for query words as [searchDocuments] makes them and without
    a syntax character of regular expressions, a chunk scores above 0, and
    so is among the candidates of the search, exactly when its lower-cased
    text contains one of the words.  (Beyond Latin-1 the [i] flag also
    takes characters for the same that [toLowerCase] keeps apart, the two
    small sigmas for one.) *)
Theorem scores_iff_contains_a_word (engine : RegExp.engine) (chunk : list ascii)
  (queryWords : list (list ascii)) :
  Forall (λ word, plain_word word ∧ 2 < length word ∧ lower_case word) queryWords →
  ∃ n, calculateRelevance engine (toLowerCase chunk) queryWords = Returns n
       ∧ (0 < n ↔ ∃ word, word ∈ queryWords
                          ∧ includes (toLowerCase chunk) word = true).
Proof.
  intros Hwords. exists (stated_score chunk queryWords). split.
  { apply relevance_of_plain_words. eapply Forall_impl; [exact Hwords|].
    by intros w (? & ? & ?). }
  rewrite Forall_forall in Hwords.
  assert (∀ word, word ∈ queryWords →
            (0 < occurrences word chunk ↔ includes (toLowerCase chunk) word = true))
    as Hocc.
  { intros word Hin. destruct (Hwords word Hin) as (_ & Hlong & Hlower).
    rewrite occurrences_positive by (intros ->; simpl in Hlong; lia).
    by rewrite Hlower. }
  unfold stated_score, phrase_bonus. split.
  - intros Hscore.
    destruct (decide (0 < sum_list_with (λ word, occurrences word chunk) queryWords))
      as [Hsum|Hsum].
    + apply sum_occurrences_positive in Hsum as (word & Hin & Hword).
      exists word. split; [done | by apply Hocc].
    + destruct (includes (toLowerCase chunk) (join space queryWords)) eqn:Hphrase;
        [|lia].
      destruct queryWords as [|w ws]; [simpl in Hscore; lia|].
      exists w. split; [left|]. apply includes_infix.
      apply includes_infix in Hphrase.
      eapply infix_trans; [apply first_word_in_phrase | exact Hphrase].
  - intros (word & Hin & Hword).
    assert (0 < sum_list_with (λ word, occurrences word chunk) queryWords); [|lia].
    apply sum_occurrences_positive. exists word. split; [done | by apply Hocc].
Qed.

Lemma scores_iff_contains_a_word_witness :
  ∃ n, calculateRelevance fragment_only (toLowerCase (lit "The Annual Report"))
         [lit "budget"; lit "annual"] = Returns n
       ∧ (0 < n ↔ ∃ word, word ∈ [lit "budget"; lit "annual"]
                          ∧ includes (toLowerCase (lit "The Annual Report")) word = true).
Proof.
  apply (scores_iff_contains_a_word fragment_only (lit "The Annual Report")
           [lit "budget"; lit "annual"]).
  repeat (constructor; [split; [repeat constructor | split; [simpl; lia | reflexivity]]|]).
  constructor.
Defined.

(** ** The size of the context *)

Lemma docContent_length (maxPerDoc : N) (doc : DocContent) :
  (N.of_nat (length (docContent maxPerDoc doc))
   <= maxPerDoc + N.of_nat (length truncationMarker))%N.
Proof.
  unfold docContent. destruct (N.ltb_spec maxPerDoc (N.of_nat (length (dc_content doc)))).
  - unfold substring0. rewrite length_app, length_take. lia.
  - lia.
Qed.

Lemma bodies_length (maxPerDoc : N) (allDocs : list DocContent) :
  (N.of_nat (sum_list_with (λ d, length (docContent maxPerDoc d)) allDocs)
   <= N.of_nat (length allDocs) * maxPerDoc
      + N.of_nat (length allDocs * length truncationMarker))%N.
Proof.
  induction allDocs as [|d ds IH]; [simpl; lia|].
  pose proof (docContent_length maxPerDoc d). cbn [sum_list_with length]. lia.
Qed.

Lemma context_length (maxPerDoc : N) (allDocs : list DocContent) :
  length (concat ((λ d, documentHeader (dc_fileName d) ++ docContent maxPerDoc d)
                    <$> allDocs))
  = sum_list_with (λ d, length (documentHeader (dc_fileName d))) allDocs
    + sum_list_with (λ d, length (docContent maxPerDoc d)) allDocs.
Proof.
  induction allDocs as [|d ds IH]; [done|].
  cbn [fmap list_fmap concat sum_list_with]. rewrite !length_app. 
  change (list_fmap _ _ ?f ds) with (f <$> ds). rewrite IH. lia.
Qed.

(** X13.  Whatever the number and the sizes of the documents, the context
    [generateAnswer] builds holds at most 100000 characters of their
    contents: its length is at most 100000 and, for every document, the
    length of its header and of one truncation marker. *)
Theorem context_is_bounded (allDocs : list DocContent) :
  (N.of_nat (length (context (assembleContext allDocs)))
   <= maxTotalContext
      + N.of_nat (sum_list_with (λ d, length (documentHeader (dc_fileName d))) allDocs)
      + N.of_nat (length allDocs * length truncationMarker))%N.
Proof.
  unfold assembleContext. rewrite assemble_loop. cbn [context app].
  rewrite context_length.
  pose proof (bodies_length (maxTotalContext / N.of_nat (length allDocs)) allDocs)
    as Hbodies.
  assert (N.of_nat (length allDocs) * (maxTotalContext / N.of_nat (length allDocs))
          <= maxTotalContext)%N as Hbudget.
  { apply N.Div0.mul_div_le. }
  lia.
Qed.

(** ** Functions that retry *)

Lemma later_later (w : World) (n m : nat) (ps qs : list Z) :
  later (later w n ps) m qs = later w (n + m) (ps ++ qs).
Proof. unfold later. simpl. f_equal; [lia | by rewrite app_assoc]. Qed.

Lemma later_none (w : World) : later w 0 [] = w.
Proof. destruct w. unfold later. simpl. by rewrite Nat.add_0_r, app_nil_r. Qed.

Lemma sleep_later (ms : Z) (w : World) :
  sleep ms w = Some (Fulfilled tt, later w 0 [ms]).
Proof. unfold sleep, later. by rewrite Nat.add_0_r. Qed.

Section RetryLoop.

Context {A : Type} (attempt : Async A) (again : Js.Error → Z → bool)
  (delay : Z → Z) (conclude : Js.Error → Async A) (max : Z).

Hypothesis again_bound : ∀ e retryCount, again e retryCount = true → (retryCount < max)%Z.

(** *** An attempt of one request *)

Section OneRequest.

Variable reply : nat → Js.settled A.

Hypothesis attempt_reply : ∀ w, attempt w = Some (reply (requests w), later w 1 []).

(** The loop goes on while the attempts are rejected with errors that call
    for another one; it ends with the first other attempt. *)
Lemma retry_loop_one_request (fuel : nat) (retryCount : Z) (w : World) :
  (retryCount <= max)%Z → Z.to_nat (max - retryCount) < fuel →
  ∃ k, k ≤ Z.to_nat (max - retryCount)
    ∧ (∀ i, i < k → ∃ e, reply (requests w + i) = Rejected e
                         ∧ again e (retryCount + Z.of_nat i)%Z = true)
    ∧ match reply (requests w + k) with
      | Fulfilled a =>
          retry_loop attempt again delay conclude fuel retryCount w
          = Some (Fulfilled a, later w (S k) (pauses_from delay retryCount k))
      | Rejected e =>
          again e (retryCount + Z.of_nat k)%Z = false
          ∧ retry_loop attempt again delay conclude fuel retryCount w
            = conclude e (later w (S k) (pauses_from delay retryCount k))
      end.
Proof.
  revert retryCount w. induction fuel as [|fuel IH]; intros retryCount w Hle Hfuel; [lia|].
  cbn [retry_loop]. unfold try_catch. rewrite attempt_reply.
  destruct (reply (requests w)) as [a|e] eqn:Hreply.
  - exists 0. split; [lia|]. split; [intros i Hi; lia|].
    rewrite Nat.add_0_r, Hreply. reflexivity.
  - destruct (again e retryCount) eqn:Hagain.
    + pose proof (again_bound _ _ Hagain) as Hlt.
      unfold and_then, mbind, Async_bind. rewrite sleep_later, later_later.
      change (1 + 0) with 1. change ([] ++ [delay retryCount]) with [delay retryCount].
      set (w1 := later w 1 [delay retryCount]).
      destruct (IH (retryCount + 1)%Z w1) as (k & Hk & Hbefore & Hlast); [lia | lia |].
      assert (∀ i, requests w1 + i = requests w + S i) as Hnext
        by (intros i; subst w1; simpl; lia).
      assert (later w1 (S k) (pauses_from delay (retryCount + 1) k)
              = later w (S (S k)) (pauses_from delay retryCount (S k))) as Hworld.
      { subst w1. rewrite later_later. reflexivity. }
      exists (S k). split; [lia|]. split.
      * intros [|i] Hi.
        -- exists e. by rewrite Nat.add_0_r, Z.add_0_r.
        -- destruct (Hbefore i ltac:(lia)) as (e' & He' & Hagain').
           exists e'. rewrite <- Hnext. split; [done|].
           rewrite <- Hagain'. f_equal. lia.
      * rewrite <- Hnext, <- Hworld.
        destruct (reply (requests w1 + k)) as [a|e']; [exact Hlast|].
        destruct Hlast as [Hstop Hrun]. split; [|exact Hrun].
        rewrite <- Hstop. f_equal. lia.
    + exists 0. split; [lia|]. split; [intros i Hi; lia|].
      rewrite Nat.add_0_r, Hreply, Z.add_0_r. done.
Qed.

End OneRequest.

End RetryLoop.

(** ** [callGemini] *)

Lemma later_one (w : World) :
  later w 1 [] = {| requests := S (requests w); pauses := pauses w |}.
Proof. unfold later. by rewrite Nat.add_1_r, app_nil_r. Qed.

Lemma transient_status (e : Js.Error) :
  transient e = false →
  Js.isStatus 429 (Js.statusOf e) = false ∧ Js.isStatus 503 (Js.statusOf e) = false.
Proof. unfold transient. apply orb_false_elim. Qed.

Lemma gemini_pauses (k : nat) :
  k ≤ 3 →
  pauses_from (λ retryCount, BASE_DELAY * 2 ^ retryCount)%Z 0 k
  = take k [3000; 6000; 12000]%Z.
Proof. intros Hk. do 4 (destruct k as [|k]; [reflexivity|]). lia. Qed.

(** The text [firstText] finds is not empty. *)
Lemma firstText_truthy (typeError : list ascii → Js.Error) (data : option Gemini.Data)
  (t : list ascii) :
  Gemini.firstText typeError data = Fulfilled (Some t) → t ≠ [].
Proof.
  unfold Gemini.firstText. destruct data as [d|]; [|done].
  destruct (Gemini.candidates d) as [cs|]; [|done].
  destruct (head cs) as [candidate|]; [|done].
  destruct (Gemini.content candidate) as [c|]; [|done].
  destruct (Gemini.parts c) as [ps|]; [|done].
  destruct (head ps) as [part|]; [|done].
  destruct (Gemini.text part) as [[|ch found]|]; [done| |done].
  by intros [= <-].
Qed.

Section CallGeminiFacts.

Variable post :
  nat → list ascii → list ascii → list (list ascii) → Js.settled (option Gemini.Data).
Variable engineMessage : list ascii → list ascii.
Variables (context question : list ascii) (sourceFiles : list (list ascii)).

Local Abbreviation attempt := (gemini_attempt post engineMessage context question sourceFiles).
Local Abbreviation reply := (gemini_reply post engineMessage context question sourceFiles).
Local Abbreviation call_from :=
  (callGemini_from post engineMessage context question sourceFiles).
Local Abbreviation call := (callGemini post engineMessage context question sourceFiles).
Local Abbreviation again := (λ (e : Js.Error) (retryCount : Z),
                     transient e && (retryCount <? MAX_RETRIES)%Z).
Local Abbreviation delay := (λ retryCount : Z, (BASE_DELAY * 2 ^ retryCount)%Z).

Lemma gemini_attempt_reply (w : World) :
  attempt w = Some (reply (requests w), later w 1 []).
Proof.
  rewrite later_one. unfold gemini_attempt, gemini_reply, request, settle.
  unfold and_then, mbind, Async_bind, mret, Async_ret.
  destruct (post _ _ _ _) as [data|e]; [|done].
  by destruct (Gemini.firstText _ data) as [[t|]|e].
Qed.

Lemma callGemini_from_loop (fuel : nat) (retryCount : Z) (w : World) :
  call_from fuel retryCount w
  = retry_loop attempt again delay gemini_conclude fuel retryCount w.
Proof.
  revert retryCount w. induction fuel as [|fuel IH]; intros retryCount w; [done|].
  cbn [callGemini_from retry_loop]. unfold try_catch.
  destruct (attempt w) as [[[a|e] w']|]; try reflexivity.
  unfold transient. destruct (_ && _); [|reflexivity].
  unfold and_then, mbind, Async_bind. rewrite sleep_later. apply IH.
Qed.

Lemma gemini_again_bound (e : Js.Error) (retryCount : Z) :
  again e retryCount = true → (retryCount < MAX_RETRIES)%Z.
Proof. intros H. apply andb_true_iff in H as [_ H]. by apply Z.ltb_lt in H. Qed.

(** What the end of the [catch] block makes of an error: a text for the
    statuses 429 and 503 and for an error with a message of the service,
    the error itself otherwise; the world stays as it is. *)
Lemma gemini_conclude_run (e : Js.Error) (w : World) :
  ∃ r, gemini_conclude e w = Some (r, w)
    ∧ match r with
      | Fulfilled t =>
          t ≠ []
          ∧ (Js.statusOf e = Some 429%Z → t = rateLimitMessage)
          ∧ (Js.statusOf e = Some 503%Z → t = overloadedMessage)
      | Rejected e' => e' = e ∧ transient e = false ∧ Js.apiMessageOf e = None
      end.
Proof.
  unfold gemini_conclude, transient, Js.isStatus.
  destruct (Js.statusOf e) as [status|] eqn:Hstatus.
  - case_bool_decide as H429.
    { eexists. split; [reflexivity|]. split; [done|]. split; [done|].
      intros [= H503]. by rewrite H503 in H429. }
    case_bool_decide as H503.
    { eexists. split; [reflexivity|]. split; [done|]. split; [|done].
      intros H. by rewrite H in H429. }
    destruct (Js.apiMessageOf e) as [msg|] eqn:Hmsg.
    + eexists. split; [reflexivity|]. split; [|split; intros H; by rewrite H in *].
      intros Hnil. apply app_eq_nil in Hnil as [Hnil _]. discriminate Hnil.
    + eexists. split; [reflexivity|]. done.
  - rewrite !bool_decide_eq_false_2 by done.
    destruct (Js.apiMessageOf e) as [msg|] eqn:Hmsg.
    + eexists. split; [reflexivity|]. split; [|done].
      intros Hnil. apply app_eq_nil in Hnil as [Hnil _]. discriminate Hnil.
    + eexists. split; [reflexivity|]. done.
Qed.

Lemma gemini_reply_text (n : nat) (t : list ascii) :
  reply n = Fulfilled t → t ≠ [].
Proof.
  unfold gemini_reply. destruct (post _ _ _ _) as [data|e]; [|done].
  destruct (Gemini.firstText _ data) as [[found|]|e] eqn:Hfound; [| |done].
  - intros [= <-]. by eapply firstText_truthy.
  - intros [= <-]. by vm_compute.
Qed.

Lemma callGemini_run (fuel : nat) (w : World) :
  4 ≤ fuel →
  ∃ k, k ≤ 3
    ∧ (∀ i, i < k → ∃ e, reply (requests w + i) = Rejected e ∧ transient e = true)
    ∧ match reply (requests w + k) with
      | Fulfilled t =>
          call_from fuel 0 w
          = Some (Fulfilled t, later w (S k) (take k [3000; 6000; 12000]%Z))
      | Rejected e =>
          (k = 3 ∨ transient e = false)
          ∧ call_from fuel 0 w
            = gemini_conclude e (later w (S k) (take k [3000; 6000; 12000]%Z))
      end.
Proof.
  intros Hfuel.
  destruct (retry_loop_one_request attempt again delay gemini_conclude MAX_RETRIES
              gemini_again_bound reply gemini_attempt_reply fuel 0%Z w)
    as (k & Hk & Hbefore & Hlast); [done | unfold MAX_RETRIES; simpl; lia |].
  change (Z.to_nat (MAX_RETRIES - 0)) with 3 in Hk.
  exists k. split; [done|]. split.
  - intros i Hi. destruct (Hbefore i Hi) as (e & He & Hagain).
    exists e. split; [done|]. by apply andb_true_iff in Hagain as [? _].
  - rewrite callGemini_from_loop, <- gemini_pauses by done.
    destruct (reply (requests w + k)) as [t|e]; [done|].
    destruct Hlast as [Hstop Hrun]. split; [|done].
    apply andb_false_iff in Hstop as [Hstop | Hstop]; [by right|].
    left. apply Z.ltb_ge in Hstop. unfold MAX_RETRIES in Hstop. lia.
Qed.

(** X14.  [callGemini] always settles, after 1 to 4 requests: it asks again
    only after a request rejected with status 429 or 503, at most 3 times,
    and pauses 3000, 6000 and 12000 milliseconds before the second, third
    and fourth request.  More fuel than the 4 calls of the definition
    changes nothing. *)
Theorem callGemini_retries (w : World) :
  ∃ k r,
    k ≤ 3
    ∧ (∀ i, i < k → ∃ e, reply (requests w + i) = Rejected e ∧ transient e = true)
    ∧ (k = 3 ∨ ∀ e, reply (requests w + k) = Rejected e → transient e = false)
    ∧ call w = Some (r, {| requests := requests w + k + 1;
                           pauses := pauses w ++ take k [3000; 6000; 12000]%Z |})
    ∧ ∀ fuel, 4 ≤ fuel → call_from fuel 0 w = call w.
Proof.
  destruct (callGemini_run 4 w) as (k & Hk & Hbefore & Hlast); [done|].
  assert (∃ r, call w = Some (r, later w (S k) (take k [3000; 6000; 12000]%Z))
               ∧ (k = 3 ∨ ∀ e, reply (requests w + k) = Rejected e
                               → transient e = false)) as (r & Hrun & Hstop).
  { unfold callGemini. destruct (reply (requests w + k)) as [t|e] eqn:Hreply.
    - exists (Fulfilled t). split; [done|]. right. intros e He. discriminate He.
    - destruct Hlast as [Hstop Hrun].
      destruct (gemini_conclude_run e (later w (S k) (take k [3000; 6000; 12000]%Z)))
        as (r & Hr & _).
      exists r. split; [by rewrite Hrun|].
      destruct Hstop as [-> | Hstop]; [by left | right].
      by intros e' [= <-]. }
  exists k, r. split; [done|]. split; [done|]. split; [done|]. split.
  - rewrite Hrun. unfold later. do 3 f_equal. lia.
  - intros fuel Hfuel. unfold callGemini.
    destruct (callGemini_run fuel w) as (k' & Hk' & Hbefore' & Hlast'); [done|].
    assert (k' = k) as ->.
    { destruct (Nat.lt_trichotomy k' k) as [Hlt | [Heq | Hgt]]; [|done|].
      - destruct (Hbefore k' Hlt) as (e & He & Htrans). rewrite He in Hlast'.
        destruct Hlast' as [[-> | Hno] _]; [lia | congruence].
      - destruct (Hbefore' k Hgt) as (e & He & Htrans). rewrite He in Hlast.
        destruct Hlast as [[-> | Hno] _]; [lia | congruence]. }
    destruct (reply (requests w + k)) as [t|e].
    + by rewrite Hlast, Hlast'.
    + destruct Hlast as [_ ->], Hlast' as [_ ->]. reflexivity.
Qed.

(** X15.  [callGemini] never answers with the empty string, and it throws
    neither an error of status 429 or 503 nor one that carries a message of
    the service: those end as texts of the answer. *)
Theorem callGemini_outcome (w : World) :
  match call w with
  | Some (Fulfilled t, _) => t ≠ []
  | Some (Rejected e, _) => transient e = false ∧ Js.apiMessageOf e = None
  | None => False
  end.
Proof.
  destruct (callGemini_run 4 w) as (k & Hk & Hbefore & Hlast); [done|].
  unfold callGemini. destruct (reply (requests w + k)) as [t|e] eqn:Hreply.
  - rewrite Hlast. by eapply gemini_reply_text.
  - destruct Hlast as [_ ->].
    destruct (gemini_conclude_run e (later w (S k) (take k [3000; 6000; 12000]%Z)))
      as (r & -> & Hr).
    destruct r as [t|e']; [by destruct Hr | by destruct Hr as (-> & ? & ?)].
Qed.

(** X16.  When the first [k] requests are rejected with status 429 or 503
    and [k] is at most 3, [callGemini] sends [k + 1] requests and pauses [k]
    times; a reply with a text to the last request is the answer, and when
    all 4 requests are rejected the answer is the text about the rate limit
    for status 429 and the text about the overload for status 503. *)
Theorem callGemini_after_rejections (w : World) (k : nat) :
  k ≤ 3 →
  (∀ i, i < k → ∃ e, reply (requests w + i) = Rejected e ∧ transient e = true) →
  let w' := {| requests := requests w + k + 1;
               pauses := pauses w ++ take k [3000; 6000; 12000]%Z |} in
  (∀ t, reply (requests w + k) = Fulfilled t → call w = Some (Fulfilled t, w'))
  ∧ (∀ e, k = 3 → reply (requests w + k) = Rejected e →
       (Js.statusOf e = Some 429%Z → call w = Some (Fulfilled rateLimitMessage, w'))
       ∧ (Js.statusOf e = Some 503%Z → call w = Some (Fulfilled overloadedMessage, w'))).
Proof.
  intros Hk Hbefore w'.
  destruct (callGemini_run 4 w) as (k' & Hk' & Hbefore' & Hlast'); [done|].
  assert (later w (S k) (take k [3000; 6000; 12000]%Z) = w') as Hworld.
  { subst w'. unfold later. f_equal. lia. }
  assert (∀ e, reply (requests w + k) = Rejected e → transient e = true → k = 3 → k' = k)
    as Hfull.
  { intros e He Htrans ->.
    destruct (Nat.lt_trichotomy k' 3) as [Hlt | [Heq | Hgt]]; [|done|lia].
    destruct (Hbefore k' Hlt) as (e' & He' & Htrans'). rewrite He' in Hlast'.
    destruct Hlast' as [[-> | Hno] _]; [done | congruence]. }
  assert (∀ t, reply (requests w + k) = Fulfilled t → k' = k) as Hdone.
  { intros t Ht. destruct (Nat.lt_trichotomy k' k) as [Hlt | [Heq | Hgt]]; [|done|].
    - destruct (Hbefore k' Hlt) as (e & He & Htrans). rewrite He in Hlast'.
      destruct Hlast' as [[-> | Hno] _]; [lia | congruence].
    - destruct (Hbefore' k Hgt) as (e & He & _). congruence. }
  unfold callGemini. split.
  - intros t Ht. rewrite (Hdone t Ht) in Hlast'. rewrite Ht in Hlast'.
    by rewrite Hlast', Hworld.
  - intros e -> He.
    assert (∀ n, Js.statusOf e = Some n → n = 429%Z ∨ n = 503%Z →
              call_from 4 0 w = gemini_conclude e w') as Hrun.
    { intros n Hn Hcase.
      assert (transient e = true) as Htrans.
      { unfold transient, Js.isStatus. rewrite Hn.
        destruct Hcase as [-> | ->]; by vm_compute. }
      rewrite (Hfull e He Htrans eq_refl) in Hlast'. rewrite He in Hlast'.
      destruct Hlast' as [_ ->]. by rewrite Hworld. }
    destruct (gemini_conclude_run e w') as (r & Hr & Hcases).
    split; intros Hstatus; rewrite (Hrun _ Hstatus) by tauto; rewrite Hr.
    + unfold gemini_conclude in Hr. unfold Js.isStatus in Hr. rewrite Hstatus in Hr.
      simpl in Hr. by inversion Hr.
    + unfold gemini_conclude in Hr. unfold Js.isStatus in Hr. rewrite Hstatus in Hr.
      simpl in Hr. by inversion Hr.
Qed.

End CallGeminiFacts.

Lemma callGemini_after_rejections_witness :
  callGemini
    (λ n _ _ _, if n <? 2 then Rejected rate_limited
                else Fulfilled (reply_with (lit "It is 42.")))
    (λ _, []) (lit "The answer is 42.") (lit "What is it?") [lit "a.pdf"] quiet
  = Some (Fulfilled (lit "It is 42."),
          {| requests := 3; pauses := [3000; 6000]%Z |}).
Proof.
  destruct (callGemini_after_rejections
              (λ n _ _ _, if n <? 2 then Rejected rate_limited
                          else Fulfilled (reply_with (lit "It is 42.")))
              (λ _, []) (lit "The answer is 42.") (lit "What is it?") [lit "a.pdf"]
              quiet 2) as [Hdone _].
  - lia.
  - intros i Hi. exists rate_limited.
    destruct i as [|[|i]]; [split; reflexivity | split; reflexivity | lia].
  - apply Hdone. reflexivity.
Defined.

(** ** Retries in general *)

Section RetryFuel.

Context {A : Type} (attempt : Async A) (again : Js.Error → Z → bool)
  (delay : Z → Z) (conclude : Js.Error → Async A) (max : Z).

Hypothesis again_bound : ∀ e retryCount, again e retryCount = true → (retryCount < max)%Z.

(** Fuel beyond the retries that are left changes nothing. *)
Lemma retry_loop_fuel (fuel fuel' : nat) (retryCount : Z) (w : World) :
  Z.to_nat (max - retryCount) < fuel → Z.to_nat (max - retryCount) < fuel' →
  retry_loop attempt again delay conclude fuel retryCount w
  = retry_loop attempt again delay conclude fuel' retryCount w.
Proof.
  revert fuel' retryCount w.
  induction fuel as [|fuel IH]; intros fuel' retryCount w Hfuel Hfuel'; [lia|].
  destruct fuel' as [|fuel']; [lia|].
  cbn [retry_loop]. unfold try_catch.
  destruct (attempt w) as [[[a|e] w']|]; try reflexivity.
  destruct (again e retryCount) eqn:Hagain; [|reflexivity].
  apply again_bound in Hagain.
  unfold and_then, mbind, Async_bind. rewrite sleep_later. apply IH; lia.
Qed.

(** *** Attempts of up to [N] requests that end by throwing the error *)

Variable N : nat.
Variable Good : Js.settled A → Prop.

Hypothesis attempt_runs :
  ∀ w, ∃ r n, 1 ≤ n ≤ N ∧ attempt w = Some (r, later w n []) ∧ Good r.

Lemma retry_loop_throwing (fuel : nat) (retryCount : Z) (w : World) :
  (retryCount <= max)%Z → Z.to_nat (max - retryCount) < fuel →
  ∃ r k n wk,
    k ≤ Z.to_nat (max - retryCount)
    ∧ S k ≤ n ≤ N * S k
    ∧ retried attempt again delay retryCount k w wk
    ∧ attempt wk = Some (r, later w n (pauses_from delay retryCount k))
    ∧ retry_loop attempt again delay throw fuel retryCount w
      = Some (r, later w n (pauses_from delay retryCount k))
    ∧ Good r
    ∧ (∀ e, r = Rejected e → again e (retryCount + Z.of_nat k)%Z = false).
Proof.
  revert retryCount w. induction fuel as [|fuel IH]; intros retryCount w Hle Hfuel; [lia|].
  cbn [retry_loop]. unfold try_catch.
  destruct (attempt_runs w) as (r & n & Hn & Hrun & Hgood). rewrite Hrun.
  assert (later w n [] = later w n (pauses_from delay retryCount 0)) as Hnone by done.
  destruct r as [a|e].
  - exists (Fulfilled a), 0, n, w. rewrite <- Hnone.
    repeat split; [lia | lia | lia | done | done | done].
  - destruct (again e retryCount) eqn:Hagain.
    + pose proof (again_bound _ _ Hagain) as Hlt.
      unfold and_then, mbind, Async_bind. rewrite sleep_later.
      destruct (IH (retryCount + 1)%Z (later (later w n []) 0 [delay retryCount]))
        as (r & k & m & wk & Hk & Hm & Htrace & Hlast & Hloop & Hr & Hstop);
        [lia | lia |].
      assert (later (later (later w n []) 0 [delay retryCount]) m
                (pauses_from delay (retryCount + 1) k)
              = later w (n + m) (pauses_from delay retryCount (S k))) as Hworld.
      { unfold later. cbn [requests pauses pauses_from]. f_equal; [lia|].
        by rewrite app_nil_r, <- app_assoc. }
      rewrite Hworld in Hlast, Hloop.
      exists r, (S k), (n + m), wk. rewrite Hloop.
      repeat split; [lia | lia | nia | | done | done |].
      * exists e, (later w n []). by repeat split.
      * intros e' He'. rewrite <- (Hstop e' He'). f_equal. lia.
    + exists (Rejected e), 0, n, w. rewrite <- Hnone.
      repeat split; [lia | lia | lia | done | done |].
      intros e' [= <-]. by rewrite Z.add_0_r.
Qed.

Lemma retried_weaken (again' : Js.Error → Z → bool) (retryCount : Z) (k : nat)
  (w w' : World) :
  (∀ e n, again e n = true → again' e n = true) →
  retried attempt again delay retryCount k w w' →
  retried attempt again' delay retryCount k w w'.
Proof.
  intros Himpl. revert retryCount w. induction k as [|k IH]; intros retryCount w; [done|].
  intros (e & w1 & Hrun & Hagain & Hrest). exists e, w1. eauto.
Qed.

End RetryFuel.

(** ** [extractWithGemini] and [extractTextFromPDF] *)

Lemma extract_pauses (k : nat) :
  k ≤ 2 →
  pauses_from (λ retryCount, (retryCount + 1) * 5000)%Z 0 k = take k [5000; 10000]%Z.
Proof. intros Hk. do 3 (destruct k as [|k]; [reflexivity|]). lia. Qed.

Section ExtractionFacts.

Variable extract : nat → Pdf.Buffer → list ascii → Js.settled (option Gemini.Data).
Variable pdfParse : Pdf.Buffer → Js.settled Pdf.PdfData.
Variable engineMessage : list ascii → list ascii.
Variables (pdfBuffer : Pdf.Buffer) (name : list ascii).

Local Abbreviation attempt := (Pdf.extract_attempt extract engineMessage pdfBuffer name).
Local Abbreviation reply := (extract_reply extract engineMessage pdfBuffer name).
Local Abbreviation ask_from :=
  (λ fuel, Pdf.extractWithGemini_from extract engineMessage fuel pdfBuffer name).
Local Abbreviation ask := (Pdf.extractWithGemini extract engineMessage pdfBuffer name).
Local Abbreviation read :=
  (Pdf.extractTextFromPDF extract pdfParse engineMessage pdfBuffer name).
Local Abbreviation again := (λ (e : Js.Error) (retryCount : Z),
                               transient e && (retryCount <? 2)%Z).
Local Abbreviation delay := (λ retryCount : Z, ((retryCount + 1) * 5000)%Z).

Lemma extract_attempt_reply (w : World) :
  attempt w = Some (reply (requests w), later w 1 []).
Proof.
  rewrite later_one. unfold Pdf.extract_attempt, extract_reply, request, settle.
  unfold and_then, mbind, Async_bind, mret, Async_ret, throw.
  destruct (extract _ _ _) as [data|e]; [|done].
  by destruct (Gemini.firstText _ data) as [[t|]|e].
Qed.

Lemma extractWithGemini_from_loop (fuel : nat) (retryCount : Z) (w : World) :
  ask_from fuel retryCount w = retry_loop attempt again delay throw fuel retryCount w.
Proof.
  revert retryCount w. induction fuel as [|fuel IH]; intros retryCount w; [done|].
  cbn [Pdf.extractWithGemini_from retry_loop]. unfold try_catch.
  destruct (attempt w) as [[[a|e] w']|]; try reflexivity.
  unfold transient. destruct (_ && _); [|reflexivity].
  unfold and_then, mbind, Async_bind. rewrite sleep_later. apply IH.
Qed.

Lemma extract_again_bound (e : Js.Error) (retryCount : Z) :
  again e retryCount = true → (retryCount < 2)%Z.
Proof. intros H. apply andb_true_iff in H as [_ H]. by apply Z.ltb_lt in H. Qed.

Lemma extractWithGemini_run (fuel : nat) (w : World) :
  3 ≤ fuel →
  ∃ k, k ≤ 2
    ∧ (∀ i, i < k → ∃ e, reply (requests w + i) = Rejected e ∧ transient e = true)
    ∧ (k = 2 ∨ ∀ e, reply (requests w + k) = Rejected e → transient e = false)
    ∧ ask_from fuel 0%Z w
      = Some (reply (requests w + k), later w (S k) (take k [5000; 10000]%Z)).
Proof.
  intros Hfuel.
  destruct (retry_loop_one_request attempt again delay throw 2%Z
              extract_again_bound reply extract_attempt_reply fuel 0%Z w)
    as (k & Hk & Hbefore & Hlast); [done | simpl; lia |].
  change (Z.to_nat (2 - 0)) with 2 in Hk.
  exists k. split; [done|]. split; [|split].
  - intros i Hi. destruct (Hbefore i Hi) as (e & He & Hagain).
    exists e. split; [done|]. by apply andb_true_iff in Hagain as [? _].
  - destruct (reply (requests w + k)) as [x|e]; [right; by intros e [=]|].
    destruct Hlast as [Hstop _].
    apply andb_false_iff in Hstop as [Hstop | Hstop].
    + right. by intros e' [= <-].
    + left. apply Z.ltb_ge in Hstop. lia.
  - rewrite extractWithGemini_from_loop, <- extract_pauses by done.
    destruct (reply (requests w + k)) as [x|e]; [done|]. by destruct Hlast as [_ ->].
Qed.

(** X17.  [extractWithGemini] always settles, after 1 to 3 requests: it asks
    again only after a request rejected with status 429 or 503, at most
    twice, pausing 5000 and then 10000 milliseconds, and it settles as its
    last attempt does; an error of that attempt is thrown as it is, also one
    of status 429 or 503.  More fuel than the 3 calls of the definition
    changes nothing. *)
Theorem extractWithGemini_retries (w : World) :
  ∃ k,
    k ≤ 2
    ∧ (∀ i, i < k → ∃ e, reply (requests w + i) = Rejected e ∧ transient e = true)
    ∧ (k = 2 ∨ ∀ e, reply (requests w + k) = Rejected e → transient e = false)
    ∧ ask w = Some (reply (requests w + k),
                    {| requests := requests w + k + 1;
                       pauses := pauses w ++ take k [5000; 10000]%Z |})
    ∧ ∀ fuel, 3 ≤ fuel → ask_from fuel 0%Z w = ask w.
Proof.
  destruct (extractWithGemini_run 3 w) as (k & Hk & Hbefore & Hstop & Hrun); [done|].
  exists k. split; [done|]. split; [done|]. split; [done|]. split.
  - unfold Pdf.extractWithGemini. rewrite Hrun. unfold later. do 3 f_equal. lia.
  - intros fuel Hfuel. unfold Pdf.extractWithGemini.
    rewrite !extractWithGemini_from_loop.
    apply (retry_loop_fuel attempt again delay throw 2%Z extract_again_bound);
      simpl; lia.
Qed.

(** A fulfilled attempt gives a text that is not empty, by the model. *)
Lemma extract_reply_fulfilled (n : nat) (x : Pdf.Extraction) :
  reply n = Fulfilled x →
  Pdf.text x ≠ [] ∧ Pdf.method x = lit "gemini" ∧ Pdf.pages x = None.
Proof.
  unfold extract_reply. destruct (extract _ _ _) as [data|e]; [|done].
  destruct (Gemini.firstText _ data) as [[found|]|e] eqn:Hfound; [|done..].
  intros [= <-]. split; [|done]. by eapply firstText_truthy.
Qed.

(** What [extractWithGemini] leaves: between 1 and 3 requests. *)
Lemma extractWithGemini_settles (w : World) :
  ∃ r w', ask w = Some (r, w')
    ∧ requests w < requests w' ≤ requests w + 3
    ∧ (∀ x, r = Fulfilled x →
         Pdf.text x ≠ [] ∧ Pdf.method x = lit "gemini" ∧ Pdf.pages x = None).
Proof.
  destruct (extractWithGemini_run 3 w) as (k & Hk & _ & _ & Hrun); [done|].
  eexists _, _. split; [exact Hrun|]. split; [simpl; lia|].
  intros x Hx. by eapply extract_reply_fulfilled.
Qed.

Lemma long_text_not_empty (s : list ascii) : 100 < length (trim s) → s ≠ [].
Proof. intros Hlong ->. simpl in Hlong. lia. Qed.

(** X18.  When [pdf-parse] finds a text of more than 100 characters between
    its outer white space, [extractTextFromPDF] returns that text, white
    space included, with the number of pages, and sends no request. *)
Theorem extractTextFromPDF_parsed (w : World) (pdfData : Pdf.PdfData) :
  pdfParse pdfBuffer = Fulfilled pdfData →
  100 < length (trim (Pdf.parsed_text pdfData)) →
  read w = Some (Fulfilled {| Pdf.text := Pdf.parsed_text pdfData;
                              Pdf.method := lit "pdf-parse";
                              Pdf.pages := Some (Pdf.numpages pdfData) |}, w).
Proof.
  intros Hparsed Hlong. unfold Pdf.extractTextFromPDF, try_catch, settle.
  unfold and_then, mbind, Async_bind. rewrite Hparsed.
  rewrite bool_decide_eq_false_2 by (by apply long_text_not_empty).
  apply Nat.ltb_lt in Hlong. by rewrite Hlong.
Qed.

(** X19.  When [pdf-parse] finds 100 characters or fewer, the model is asked
    in the [try] block, so that an error it ends with is caught there and
    the model is asked once more from the start: [extractTextFromPDF] then
    settles as that second run does. *)
Theorem extractTextFromPDF_asks_again (w w1 : World) (pdfData : Pdf.PdfData)
  (e : Js.Error) :
  pdfParse pdfBuffer = Fulfilled pdfData →
  length (trim (Pdf.parsed_text pdfData)) ≤ 100 →
  ask w = Some (Rejected e, w1) →
  read w = ask w1.
Proof.
  intros Hparsed Hshort Hfirst.
  unfold Pdf.extractTextFromPDF, try_catch, settle.
  unfold and_then, mbind, Async_bind. rewrite Hparsed.
  apply Nat.ltb_ge in Hshort. rewrite Hshort, andb_false_r. by rewrite Hfirst.
Qed.

Lemma extractTextFromPDF_rejected (w : World) (e : Js.Error) :
  pdfParse pdfBuffer = Rejected e → read w = ask w.
Proof.
  intros He. unfold Pdf.extractTextFromPDF, try_catch, settle.
  unfold and_then, mbind, Async_bind. by rewrite He.
Qed.

Lemma extractTextFromPDF_settles (w : World) :
  ∃ r w',
    read w = Some (r, w')
    ∧ requests w' ≤ requests w + 6
    ∧ match r with
      | Fulfilled x =>
          Pdf.text x ≠ []
          ∧ ((Pdf.method x = lit "pdf-parse" ∧ is_Some (Pdf.pages x) ∧ w' = w)
             ∨ (Pdf.method x = lit "gemini" ∧ Pdf.pages x = None
                ∧ requests w < requests w'))
      | Rejected _ => requests w < requests w'
      end.
Proof.
  assert (∀ w0, ∃ r w', ask w0 = Some (r, w')
            ∧ requests w0 < requests w' ≤ requests w0 + 3
            ∧ match r with
              | Fulfilled x =>
                  Pdf.text x ≠ [] ∧ Pdf.method x = lit "gemini" ∧ Pdf.pages x = None
              | Rejected _ => True
              end) as Hask.
  { intros w0. destruct (extractWithGemini_settles w0) as (r & w' & Hrun & Hn & Hx).
    exists r, w'. split; [done|]. split; [done|]. destruct r; [by apply Hx | done]. }
  destruct (pdfParse pdfBuffer) as [pdfData|e] eqn:Hparsed.
  - assert (length (trim (Pdf.parsed_text pdfData)) ≤ 100 →
            read w = try_catch ask (λ _, ask) w) as Hshort_run.
    { intros Hshort. unfold Pdf.extractTextFromPDF, try_catch, settle.
      unfold and_then, mbind, Async_bind. rewrite Hparsed.
      apply Nat.ltb_ge in Hshort. by rewrite Hshort, andb_false_r. }
    destruct (Nat.lt_ge_cases 100 (length (trim (Pdf.parsed_text pdfData))))
      as [Hlong | Hshort].
    + eexists _, _. split.
      { unfold Pdf.extractTextFromPDF, try_catch, settle.
        unfold and_then, mbind, Async_bind. rewrite Hparsed.
        rewrite bool_decide_eq_false_2 by (by eapply long_text_not_empty).
        apply Nat.ltb_lt in Hlong. rewrite Hlong. reflexivity. }
      split; [lia|]. split; [by eapply long_text_not_empty|]. left. simpl. eauto.
    + rewrite (Hshort_run Hshort). unfold try_catch.
      destruct (Hask w) as (r & w1 & Hrun & Hn & Hr). rewrite Hrun.
      destruct r as [x|e].
      * exists (Fulfilled x), w1. split; [done|].
        split; [lia|]. destruct Hr as (? & ? & ?). split; [done|]. right.
        repeat split; [done | done | lia].
      * destruct (Hask w1) as (r & w2 & Hrun2 & Hn2 & Hr2).
        exists r, w2. split; [done|].
        split; [lia|]. destruct r as [x|e2]; [|lia].
        destruct Hr2 as (? & ? & ?). split; [done|]. right.
        repeat split; [done | done | lia].
  - rewrite (extractTextFromPDF_rejected w e Hparsed).
    destruct (Hask w) as (r & w1 & Hrun & Hn & Hr).
    exists r, w1. split; [done|]. split; [lia|]. destruct r as [x|e1]; [|lia].
    destruct Hr as (? & ? & ?). split; [done|]. right.
    repeat split; [done | done | lia].
Qed.

(** X20.  [extractTextFromPDF] always settles, after at most 6 requests.
    When it is fulfilled the text is not empty; it is the text of
    [pdf-parse], with a number of pages and without a request, or a text of
    the model, without a number of pages.  It is rejected only after the
    model has been asked.  When [pdf-parse] is rejected it settles as one
    run of [extractWithGemini] does. *)
Theorem extractTextFromPDF_outcome (w : World) :
  (∃ r w',
     read w = Some (r, w')
     ∧ requests w' ≤ requests w + 6
     ∧ match r with
       | Fulfilled x =>
           Pdf.text x ≠ []
           ∧ ((Pdf.method x = lit "pdf-parse" ∧ is_Some (Pdf.pages x) ∧ w' = w)
              ∨ (Pdf.method x = lit "gemini" ∧ Pdf.pages x = None
                 ∧ requests w < requests w'))
       | Rejected _ => requests w < requests w'
       end)
  ∧ (∀ e, pdfParse pdfBuffer = Rejected e → read w = ask w).
Proof.
  split.
  - apply extractTextFromPDF_settles.
  - intros e. apply extractTextFromPDF_rejected.
Qed.

End ExtractionFacts.

Lemma extractTextFromPDF_parsed_witness :
  Pdf.extractTextFromPDF (λ _ _ _, Rejected rate_limited) (λ _, Fulfilled typed)
    (λ _, []) [] (lit "a.pdf") quiet
  = Some (Fulfilled {| Pdf.text := Pdf.parsed_text typed;
                       Pdf.method := lit "pdf-parse";
                       Pdf.pages := Some 2%Z |}, quiet).
Proof.
  apply (extractTextFromPDF_parsed (λ _ _ _, Rejected rate_limited)
           (λ _, Fulfilled typed) (λ _, []) [] (lit "a.pdf") quiet typed).
  - reflexivity.
  - vm_compute. lia.
Defined.

Lemma extractTextFromPDF_asks_again_witness :
  Pdf.extractTextFromPDF (λ _ _ _, Rejected rate_limited) (λ _, Fulfilled scanned)
    (λ _, []) [] (lit "a.pdf") quiet
  = Some (Rejected rate_limited,
          {| requests := 6; pauses := [5000; 10000; 5000; 10000]%Z |}).
Proof.
  rewrite (extractTextFromPDF_asks_again (λ _ _ _, Rejected rate_limited)
             (λ _, Fulfilled scanned) (λ _, []) [] (lit "a.pdf") quiet
             {| requests := 3; pauses := [5000; 10000]%Z |} scanned rate_limited).
  - reflexivity.
  - reflexivity.
  - vm_compute. lia.
  - reflexivity.
Defined.

(** ** [downloadTelegramFile] and [processPDF] *)

Lemma download_pauses (k : nat) :
  k ≤ 3 →
  pauses_from (λ retryCount, (retryCount + 1) * 2000)%Z 0 k
  = take k [2000; 4000; 6000]%Z.
Proof. intros Hk. do 4 (destruct k as [|k]; [reflexivity|]). lia. Qed.

(** The pieces of a split hold no separator, and the string is the pieces
    with a separator behind each but the last. *)
Lemma split_char_pieces (sep : ascii) (s : list ascii) :
  ∃ dirs name,
    Pdf.split_char sep s = dirs ++ [name]
    ∧ (sep ∉ name)
    ∧ s = concat ((λ d, d ++ [sep]) <$> dirs) ++ name.
Proof.
  induction s as [|c s (dirs & name & Hsplit & Hname & Hs)].
  - exists [], []. split; [done|]. split; [apply not_elem_of_nil | done].
  - cbn [Pdf.split_char]. rewrite Hsplit. unfold ascii_eqb.
    destruct (Ascii.eqb_spec c sep) as [-> | Hne].
    + exists ([] :: dirs), name. split; [done|]. split; [done|].
      by rewrite Hs at 1.
    + destruct dirs as [|d dirs].
      * exists [], (c :: name). split; [done|]. split.
        -- apply not_elem_of_cons. split; [congruence | done].
        -- simpl in *. by rewrite Hs.
      * exists ((c :: d) :: dirs), name. split; [done|]. split; [done|].
        simpl in *. by rewrite Hs.
Qed.

(** [path.split('/').pop()]: what follows the last [/] of the path, or the
    path when it has none. *)
Lemma pop_split_char (sep : ascii) (path : list ascii) :
  let name := Pdf.pop (Pdf.split_char sep path) in
  (sep ∉ name) ∧ (path = name ∨ ∃ dir, path = dir ++ sep :: name).
Proof.
  destruct (split_char_pieces sep path) as (dirs & name & Hsplit & Hname & Hpath).
  unfold Pdf.pop. rewrite Hsplit, last_snoc. simpl. split; [done|].
  destruct dirs as [|d dirs] using rev_ind; [by left|]. right.
  rewrite fmap_app, concat_app in Hpath. simpl in Hpath.
  exists (concat ((λ d, d ++ [sep]) <$> dirs) ++ d).
  rewrite Hpath, app_nil_r. by rewrite <- !app_assoc.
Qed.

Section DownloadFacts.

Variable getFile : nat → list ascii → Js.settled (option Pdf.FileInfo).
Variable download : nat → option (list ascii) → Js.settled Pdf.Buffer.
Variable extract : nat → Pdf.Buffer → list ascii → Js.settled (option Gemini.Data).
Variable pdfParse : Pdf.Buffer → Js.settled Pdf.PdfData.
Variable engineMessage : list ascii → list ascii.
Variable fileId : list ascii.

Local Abbreviation attempt := (Pdf.download_attempt getFile download engineMessage fileId).
Local Abbreviation fetch_from :=
  (λ fuel, Pdf.downloadTelegramFile_from getFile download engineMessage fuel fileId).
Local Abbreviation fetch := (Pdf.downloadTelegramFile getFile download engineMessage fileId).
Local Abbreviation again := (λ (e : Js.Error) (retryCount : Z),
                               (retryCount <? 3)%Z && network_error e).
Local Abbreviation delay := (λ retryCount : Z, ((retryCount + 1) * 2000)%Z).
Local Abbreviation good := (λ r : Js.settled Pdf.Download,
                              match r with
                              | Fulfilled d => download_of getFile download fileId d
                              | Rejected _ => True
                              end).

Lemma later_requests (w : World) (n : nat) :
  later w n [] = {| requests := requests w + n; pauses := pauses w |}.
Proof. unfold later. by rewrite app_nil_r. Qed.

Lemma download_attempt_runs (w : World) :
  ∃ r n, 1 ≤ n ≤ 2 ∧ attempt w = Some (r, later w n []) ∧ good r.
Proof.
  unfold Pdf.download_attempt, request, throw.
  unfold and_then, mbind, Async_bind, mret, Async_ret.
  assert (∀ r : Js.settled Pdf.Download,
            good r → ∃ r' n, 1 ≤ n ≤ 2
              ∧ Some (r, {| requests := S (requests w); pauses := pauses w |})
                = Some (r', later w n [])
              ∧ good r') as Hone.
  { intros r Hr. exists r, 1. rewrite later_one. split; [lia | done]. }
  assert (∀ r : Js.settled Pdf.Download,
            good r → ∃ r' n, 1 ≤ n ≤ 2
              ∧ Some (r, {| requests := S (S (requests w)); pauses := pauses w |})
                = Some (r', later w n [])
              ∧ good r') as Htwo.
  { intros r Hr. exists r, 2. rewrite later_requests.
    replace (requests w + 2) with (S (S (requests w))) by lia.
    split; [lia | done]. }
  destruct (getFile (requests w) fileId) as [[info|]|e] eqn:Hinfo;
    [|by apply Hone..].
  destruct (Pdf.ok info) eqn:Hok; simpl; [|by apply Hone].
  destruct (Pdf.result info) as [found|] eqn:Hfound; [|by apply Hone].
  cbn [requests pauses].
  destruct (download (S (requests w)) (Pdf.file_path found)) as [bytes|e] eqn:Hbytes;
    [|by apply Htwo].
  destruct (Pdf.file_path found) as [path|] eqn:Hpath; [|by apply Htwo].
  apply Htwo. by exists (requests w), info, found, path.
Qed.

Lemma downloadTelegramFile_from_loop (fuel : nat) (retryCount : Z) (w : World) :
  fetch_from fuel retryCount w = retry_loop attempt again delay throw fuel retryCount w.
Proof.
  revert retryCount w. induction fuel as [|fuel IH]; intros retryCount w; [done|].
  cbn [Pdf.downloadTelegramFile_from retry_loop]. unfold try_catch.
  destruct (attempt w) as [[[a|e] w']|]; try reflexivity.
  unfold network_error. destruct (_ && _); [|reflexivity].
  unfold and_then, mbind, Async_bind. rewrite sleep_later. apply IH.
Qed.

Lemma download_again_bound (e : Js.Error) (retryCount : Z) :
  again e retryCount = true → (retryCount < 3)%Z.
Proof. intros H. apply andb_true_iff in H as [H _]. by apply Z.ltb_lt in H. Qed.

Lemma downloadTelegramFile_run (fuel : nat) (w : World) :
  4 ≤ fuel →
  ∃ r k n wk,
    k ≤ 3 ∧ S k ≤ n ≤ 2 * S k
    ∧ retried attempt (λ e _, network_error e) delay 0%Z k w wk
    ∧ attempt wk = Some (r, later w n (take k [2000; 4000; 6000]%Z))
    ∧ fetch_from fuel 0%Z w = Some (r, later w n (take k [2000; 4000; 6000]%Z))
    ∧ good r
    ∧ (∀ e, r = Rejected e → k = 3 ∨ network_error e = false).
Proof.
  intros Hfuel.
  destruct (retry_loop_throwing attempt again delay 3%Z download_again_bound 2 good
              download_attempt_runs fuel 0%Z w)
    as (r & k & n & wk & Hk & Hn & Htrace & Hlast & Hrun & Hgood & Hstop);
    [done | simpl; lia |].
  change (Z.to_nat (3 - 0)) with 3 in Hk.
  rewrite download_pauses in Hlast, Hrun by done.
  exists r, k, n, wk. split; [done|]. split; [done|]. split.
  { eapply retried_weaken; [|exact Htrace].
    intros e m Hagain. by apply andb_true_iff in Hagain as [_ ?]. }
  split; [done|]. split; [by rewrite downloadTelegramFile_from_loop|].
  split; [done|].
  intros e He. specialize (Hstop e He).
  apply andb_false_iff in Hstop as [Hstop | Hstop]; [|by right].
  left. apply Z.ltb_ge in Hstop. lia.
Qed.

(** X21.  [downloadTelegramFile] always settles, after 1 to 4 attempts of 1 or
    2 requests each: every attempt but the last was rejected with the code
    [ECONNRESET] or [ETIMEDOUT] or a message that contains [aborted] and was
    followed by a pause, of 2000, 4000 and 6000 milliseconds in turn; the
    function settles as its last attempt does, which is the fourth or one
    that is not rejected with such an error.  More fuel than the 4 calls of
    the definition changes nothing. *)
Theorem downloadTelegramFile_retries (w : World) :
  ∃ r k wk w',
    k ≤ 3
    ∧ retried attempt (λ e _, network_error e) (λ retryCount, (retryCount + 1) * 2000)%Z
        0%Z k w wk
    ∧ attempt wk = Some (r, w')
    ∧ fetch w = Some (r, w')
    ∧ (∀ e, r = Rejected e → k = 3 ∨ network_error e = false)
    ∧ pauses w' = pauses w ++ take k [2000; 4000; 6000]%Z
    ∧ requests w + k + 1 ≤ requests w' ≤ requests w + 2 * (k + 1)
    ∧ ∀ fuel, 4 ≤ fuel → fetch_from fuel 0%Z w = fetch w.
Proof.
  destruct (downloadTelegramFile_run 4 w)
    as (r & k & n & wk & Hk & Hn & Htrace & Hlast & Hrun & _ & Hstop); [done|].
  exists r, k, wk, (later w n (take k [2000; 4000; 6000]%Z)).
  split; [done|]. split; [done|]. split; [done|]. split; [exact Hrun|].
  split; [done|]. split; [done|]. split; [simpl; lia|].
  intros fuel Hfuel. unfold Pdf.downloadTelegramFile.
  rewrite !downloadTelegramFile_from_loop.
  apply (retry_loop_fuel attempt again delay throw 3%Z download_again_bound);
    simpl; lia.
Qed.

(** X22.  A download that is fulfilled holds the bytes of the file whose path
    a reply of [getFile] gave, and its name is what follows the last [/] of
    that path, the whole path when it holds no [/]: the name holds no [/]. *)
Theorem downloaded_file_name (w : World) :
  match fetch w with
  | Some (Fulfilled d, _) =>
      ("/"%char ∉ Pdf.downloaded_fileName d)
      ∧ ∃ n info found path,
          getFile n fileId = Fulfilled (Some info)
          ∧ Pdf.ok info = true
          ∧ Pdf.result info = Some found
          ∧ Pdf.file_path found = Some path
          ∧ download (S n) (Some path) = Fulfilled (Pdf.buffer d)
          ∧ (path = Pdf.downloaded_fileName d
             ∨ ∃ dir, path = dir ++ "/"%char :: Pdf.downloaded_fileName d)
  | Some (Rejected _, _) => True
  | None => False
  end.
Proof.
  destruct (downloadTelegramFile_run 4 w)
    as (r & k & n & wk & _ & _ & _ & _ & Hrun & Hgood & _); [done|].
  unfold Pdf.downloadTelegramFile. rewrite Hrun. destruct r as [d|e]; [|done].
  destruct Hgood as (m & info & found & path & Hinfo & Hok & Hfound & Hpath & Hbytes
                     & Hname).
  destruct (pop_split_char "/" path) as [Hno Hend]. rewrite <- Hname in Hno, Hend.
  split; [done|]. by exists m, info, found, path.
Qed.

(** X23.  When [getFile] answers that it is not ok, [downloadTelegramFile] is
    rejected with its own error after that one request: the refusal is not
    taken for an error of the network. *)
Theorem refused_file_is_not_retried (w : World) (info : Pdf.FileInfo) :
  getFile (requests w) fileId = Fulfilled (Some info) →
  Pdf.ok info = false →
  fetch w = Some (Rejected (Js.newError (lit "Could not get file info from Telegram")),
                  {| requests := requests w + 1; pauses := pauses w |}).
Proof.
  intros Hinfo Hok. unfold Pdf.downloadTelegramFile.
  cbn [Pdf.downloadTelegramFile_from]. unfold try_catch, Pdf.download_attempt, request.
  unfold and_then, mbind, Async_bind, mret, Async_ret, throw.
  rewrite Hinfo, Hok. cbn [negb]. cbv beta iota.
  replace (_ && _) with false by (by vm_compute).
  by rewrite Nat.add_1_r.
Qed.

(** What [downloadTelegramFile] leaves: at most 8 requests. *)
Lemma downloadTelegramFile_settles (w : World) :
  ∃ r w', fetch w = Some (r, w')
    ∧ requests w' ≤ requests w + 8
    ∧ ∀ d, r = Fulfilled d → "/"%char ∉ Pdf.downloaded_fileName d.
Proof.
  destruct (downloadTelegramFile_run 4 w)
    as (r & k & n & wk & Hk & Hn & _ & _ & Hrun & Hgood & _); [done|].
  eexists _, _. split; [exact Hrun|]. split; [simpl; lia|].
  intros d ->. destruct Hgood as (_ & _ & _ & path & _ & _ & _ & _ & _ & ->).
  apply (pop_split_char "/" path).
Qed.

(** X24.  [processPDF] always settles, after at most 14 requests.  When it is
    fulfilled, the download was fulfilled and then the extraction for its
    bytes, under the file name of the result; that file name is the name of
    the message when that is a string that is not empty, and the name of the
    download, which holds no [/], otherwise; the content is the text of the
    extraction and is not empty, the size is the number of bytes, and the
    result names [pdf-parse] with a number of pages or the model without
    one, as the extraction does. *)
Theorem processPDF_outcome (w : World) (originalFileName : option (list ascii)) :
  ∃ r w',
    Pdf.processPDF getFile download extract pdfParse engineMessage fileId
      originalFileName w = Some (r, w')
    ∧ requests w' ≤ requests w + 14
    ∧ ∀ p, r = Fulfilled p →
        ∃ d w1 x,
          fetch w = Some (Fulfilled d, w1)
          ∧ Pdf.extractTextFromPDF extract pdfParse engineMessage (Pdf.buffer d)
              (Pdf.fileName p) w1 = Some (Fulfilled x, w')
          ∧ Pdf.fileName p = match originalFileName with
                             | Some (c :: name) => c :: name
                             | _ => Pdf.downloaded_fileName d
                             end
          ∧ (originalFileName = None ∨ originalFileName = Some [] →
               "/"%char ∉ Pdf.fileName p)
          ∧ Pdf.content p = Pdf.text x
          ∧ Pdf.content p ≠ []
          ∧ Pdf.size p = length (Pdf.buffer d)
          ∧ Pdf.processed_method p = Pdf.method x
          ∧ Pdf.processed_pages p = Pdf.pages x
          ∧ ((Pdf.method x = lit "pdf-parse" ∧ is_Some (Pdf.pages x))
             ∨ (Pdf.method x = lit "gemini" ∧ Pdf.pages x = None)).
Proof.
  unfold Pdf.processPDF. unfold and_then, mbind, Async_bind, mret, Async_ret.
  destruct (downloadTelegramFile_settles w) as (r1 & w1 & Hfetch & Hn1 & Hname).
  rewrite Hfetch. destruct r1 as [d|e]; [|by exists (Rejected e), w1; split; [|split; [lia|]]].
  set (finalFileName := Pdf.orElse originalFileName (Pdf.downloaded_fileName d)).
  destruct (extractTextFromPDF_settles extract pdfParse engineMessage (Pdf.buffer d)
              finalFileName w1) as (r2 & w2 & Hread & Hn2 & Hr2).
  rewrite Hread. destruct r2 as [x|e]; [|by exists (Rejected e), w2; split; [|split; [lia|]]].
  eexists _, w2. split; [reflexivity|]. split; [lia|].
  intros p [= <-]. exists d, w1, x. cbn. destruct Hr2 as [Htext Hmethod].
  split; [done|]. split; [exact Hread|]. split; [done|]. split.
  { intros [-> | ->]; subst finalFileName; simpl; by apply Hname. }
  split; [done|]. split; [done|]. split; [done|]. split; [done|]. split; [done|].
  destruct Hmethod as [(? & ? & _) | (? & ? & _)]; [by left | by right].
Qed.

End DownloadFacts.

Lemma refused_file_is_not_retried_witness :
  Pdf.downloadTelegramFile
    (λ _ _, Fulfilled (Some {| Pdf.ok := false; Pdf.result := None |}))
    (λ _ _, Fulfilled []) (λ _, []) (lit "file-1") quiet
  = Some (Rejected (Js.newError (lit "Could not get file info from Telegram")),
          {| requests := 1; pauses := [] |}).
Proof.
  apply (refused_file_is_not_retried
           (λ _ _, Fulfilled (Some {| Pdf.ok := false; Pdf.result := None |}))
           (λ _ _, Fulfilled []) (λ _, []) (lit "file-1") quiet
           {| Pdf.ok := false; Pdf.result := None |}); reflexivity.
Defined.

(** ** Long messages *)

Section Blocks.

Context {A : Type} (n : nat).
Hypothesis block_size : 1 ≤ n.

Lemma match_blocks_concat (fuel : nat) (text : list A) :
  length text ≤ fuel → concat (match_blocks n fuel text) = text.
Proof.
  revert text. induction fuel as [|fuel IH]; intros text Hfuel.
  - destruct text; [done | simpl in Hfuel; lia].
  - destruct text as [|c text]; [done|].
    cbn [match_blocks concat]. rewrite IH, take_drop; [done|].
    rewrite length_drop. simpl in *. lia.
Qed.

Lemma match_blocks_sizes (fuel : nat) (text : list A) :
  Forall (λ block, 1 ≤ length block ≤ n) (match_blocks n fuel text).
Proof.
  revert text. induction fuel as [|fuel IH]; intros text; [constructor|].
  destruct text as [|c text]; [constructor|].
  cbn [match_blocks]. constructor; [|apply IH].
  rewrite length_take. simpl. lia.
Qed.

(** A block with a block behind it is a full one. *)
Lemma match_blocks_full (fuel : nat) (text : list A) (pre post : list (list A))
  (block next : list A) :
  match_blocks n fuel text = pre ++ block :: next :: post → length block = n.
Proof.
  revert text pre. induction fuel as [|fuel IH]; intros text pre Hblocks.
  - by destruct pre.
  - destruct text as [|c text]; [by destruct pre|].
    cbn [match_blocks] in Hblocks. destruct pre as [|first pre].
    + injection Hblocks as <- Hrest.
      destruct fuel as [|fuel]; [done|].
      destruct (drop n (c :: text)) as [|c' rest] eqn:Hdrop; [done|].
      rewrite length_take. apply (f_equal length) in Hdrop.
      rewrite length_drop in Hdrop. simpl in *. lia.
    + injection Hblocks as _ Hrest. by eapply IH.
Qed.

Lemma match_blocks_none (fuel : nat) (text : list A) :
  length text ≤ fuel → match_blocks n fuel text = [] → text = [].
Proof.
  intros Hfuel Hnone. apply (match_blocks_concat fuel) in Hfuel.
  by rewrite Hnone in Hfuel.
Qed.

End Blocks.

(** X25.  [text.match(/[\s\S]{1,4000}/g)] is [null] exactly for the empty
    text; otherwise the blocks, put one behind the other, are the text, each
    block holds between 1 and 4000 code units, and every block but the last
    holds 4000. *)
Theorem long_message_blocks {A : Type} (text : list A) :
  match match_1_4000 text with
  | None => text = []
  | Some blocks =>
      text ≠ []
      ∧ concat blocks = text
      ∧ Forall (λ block, 1 ≤ length block ≤ 4000) blocks
      ∧ ∀ pre block next post,
          blocks = pre ++ block :: next :: post → length block = 4000
  end.
Proof.
  unfold match_1_4000.
  assert (1 ≤ 4000) as Hsize by lia.
  pose proof (match_blocks_concat 4000 Hsize (length text) text (le_n _)) as Hconcat.
  pose proof (match_blocks_sizes 4000 Hsize (length text) text) as Hsizes.
  pose proof (match_blocks_full 4000 Hsize (length text) text) as Hfull.
  destruct (match_blocks 4000 (length text) text) as [|block blocks] eqn:Hblocks.
  - by rewrite <- Hconcat.
  - split; [|split; [done | split; [done|]]].
    + intros ->. simpl in Hblocks. discriminate Hblocks.
    + intros pre b next post Heq. by eapply Hfull.
Qed.

Section SendLongMessageFacts.

Context {A : Type}.
Variable sendMessage : nat → Z → list A → option Js.Error.
Variable notIterable : Js.Error.
Variable chatId : Z.

(** The loop delivers the chunks in order, up to the first call that is
    rejected. *)
Lemma send_each_run (chunks : list (list A)) (box : Outbox A) :
  ∃ sent,
    sent `prefix_of` chunks
    ∧ delivered (snd (send_each sendMessage chatId chunks box))
      = delivered box ++ (pair chatId <$> sent)
    ∧ (fst (send_each sendMessage chatId chunks box) = Fulfilled tt → sent = chunks)
    ∧ ((∀ k chat chunk, sendMessage k chat chunk = None) →
         fst (send_each sendMessage chatId chunks box) = Fulfilled tt).
Proof.
  revert box. induction chunks as [|chunk rest IH]; intros box.
  - exists []. simpl. by rewrite app_nil_r.
  - cbn [send_each]. unfold send.
    destruct (sendMessage (calls box) chatId chunk) as [e|] eqn:Hcall.
    + exists []. simpl. rewrite app_nil_r.
      split; [apply prefix_nil|]. split; [done|]. split; [done|].
      intros Hall. by rewrite Hall in Hcall.
    + destruct (IH {| calls := S (calls box);
                      delivered := delivered box ++ [(chatId, chunk)] |})
        as (sent & Hprefix & Hdelivered & Hall & Hnone).
      exists (chunk :: sent). split; [by apply prefix_cons|]. split.
      * rewrite Hdelivered. simpl. by rewrite <- app_assoc.
      * split; [|done]. intros Hdone. by rewrite Hall.
Qed.


End SendLongMessageFacts.

(** ** [escapeMarkdown] *)

Lemma escapeMarkdown_cons (c : ascii) (text : list ascii) :
  escapeMarkdown (c :: text)
  = (if isMarkdownSpecial c then [backslash; c] else [c]) ++ escapeMarkdown text.
Proof. reflexivity. Qed.

(** The result never starts with a character of the class. *)
Lemma escapeMarkdown_head (text : list ascii) (x : ascii) (rest : list ascii) :
  escapeMarkdown text = x :: rest → isMarkdownSpecial x = false.
Proof.
  destruct text as [|c text]; [done|]. rewrite escapeMarkdown_cons.
  destruct (isMarkdownSpecial c) eqn:Hc; intros [= <- _]; [reflexivity | done].
Qed.

Lemma escapeMarkdown_injective (a b : list ascii) :
  escapeMarkdown a = escapeMarkdown b → a = b.
Proof.
  revert b. induction a as [|c a IH]; intros [|d b].
  - done.
  - rewrite escapeMarkdown_cons. by destruct (isMarkdownSpecial d).
  - rewrite escapeMarkdown_cons. by destruct (isMarkdownSpecial c).
  - rewrite !escapeMarkdown_cons.
    destruct (isMarkdownSpecial c) eqn:Hc, (isMarkdownSpecial d) eqn:Hd; simpl.
    + intros [= -> Heq]. by rewrite (IH b Heq).
    + intros [= <- Heq]. symmetry in Heq. apply escapeMarkdown_head in Heq. congruence.
    + intros [= -> Heq]. apply escapeMarkdown_head in Heq. congruence.
    + intros [= -> Heq]. by rewrite (IH b Heq).
Qed.

